(** * Verification of the group-moderation core: admin cache and antilink queue

  Shallow embedding of [utils/isadmin.js] (identity normalisation, the
  permanent admin cache, the retrying metadata fetch, [isadmin]) and of
  [carl/antilink.js] (whitelist check, duplicate suppression, the per-chat
  deletion queue, the warning ledger, the settings table, the [antilink]
  command, [cleanup]).

  Conventions of the embedding.
  - A JavaScript string is a [string]: a sequence of 8-bit code units, read
    as the Latin-1 range of UTF-16.  [toLowerCase] and [trim] are written out
    for that range.
  - [null]/[undefined] fields are [None]; the empty string is [Some ""], so
    that [||] (falsy test) and [??] (nullish test) can be told apart.
  - An awaited external call is an oracle of the environment; every call is
    recorded in a log so that theorems can speak about which calls were made.
*)

From Stdlib Require Import ZArith Ascii String.
From stdpp Require Import base gmap sets list strings.

Local Open Scope Z_scope.

(* ===================================================================== *)
(** * JavaScript string primitives                                         *)
(* ===================================================================== *)

Module Js.

Definition code (c : ascii) : N := N_of_ascii c.

(** White space removed by [String.prototype.trim] (TAB, LF, VT, FF, CR,
    SP, NBSP). *)
Definition isWhiteSpace (c : ascii) : bool :=
  let n := code c in
  ((9 <=? n) && (n <=? 13) || (n =? 32) || (n =? 160))%N.

(** [toLowerCase] on one code unit: A-Z, and the accented capitals
    U+00C0..U+00DE except the multiplication sign U+00D7. *)
Definition toLowerChar (c : ascii) : ascii :=
  let n := code c in
  if ((65 <=? n) && (n <=? 90) ||
      (192 <=? n) && (n <=? 222) && negb (n =? 215))%N
  then ascii_of_N (n + 32) else c.

Fixpoint toLowerCase (s : string) : string :=
  match s with
  | EmptyString => EmptyString
  | String c r => String (toLowerChar c) (toLowerCase r)
  end.

Fixpoint trimStart (s : string) : string :=
  match s with
  | EmptyString => EmptyString
  | String c r => if isWhiteSpace c then trimStart r else s
  end.

Fixpoint trimEnd (s : string) : string :=
  match s with
  | EmptyString => EmptyString
  | String c r =>
      match trimEnd r with
      | EmptyString => if isWhiteSpace c then EmptyString else String c EmptyString
      | t => String c t
      end
  end.

Definition trim (s : string) : string := trimEnd (trimStart s).

(** [s.indexOf(c)]; [None] stands for [-1]. *)
Fixpoint indexOf (c : ascii) (s : string) : option nat :=
  match s with
  | EmptyString => None
  | String d r => if Ascii.eqb d c then Some O else S <$> indexOf c r
  end.

(** [s.slice(0, n)] and [s.slice(n)] for [0 <= n]. *)
Fixpoint sliceTo (n : nat) (s : string) : string :=
  match n, s with
  | S k, String c r => String c (sliceTo k r)
  | _, _ => EmptyString
  end.

Fixpoint sliceFrom (n : nat) (s : string) : string :=
  match n, s with
  | S k, String _ r => sliceFrom k r
  | _, _ => s
  end.

(** The separators of the regular expression [/[:/]/]. *)
Definition isResourceSep (c : ascii) : bool :=
  Ascii.eqb c ":" || Ascii.eqb c "/".

(** [s.split(/[:/]/)[0]]: the part before the first [:] or [/]. *)
Fixpoint splitHead (s : string) : string :=
  match s with
  | EmptyString => EmptyString
  | String c r => if isResourceSep c then EmptyString else String c (splitHead r)
  end.

(** [text.includes(item)]. *)
Fixpoint startsWith (item text : string) : bool :=
  match item, text with
  | EmptyString, _ => true
  | String a i, String b t => Ascii.eqb a b && startsWith i t
  | String _ _, EmptyString => false
  end.

Fixpoint includes (text item : string) : bool :=
  startsWith item text ||
  match text with
  | EmptyString => false
  | String _ t => includes t item
  end.

Fixpoint endsWith (s suffix : string) : bool :=
  String.eqb s suffix ||
  match s with
  | EmptyString => false
  | String _ r => endsWith r suffix
  end.

(** Falsy test of a possibly missing string ([!x]). *)
Definition truthy (x : option string) : bool :=
  match x with
  | Some s => negb (String.eqb s "")
  | None => false
  end.

(** [a || b] on possibly missing strings. *)
Definition or_else (a b : option string) : option string :=
  if truthy a then a else b.

(** [a ?? b] on possibly missing strings. *)
Definition nullish (a b : option string) : option string :=
  match a with
  | Some _ => a
  | None => b
  end.

(** A JavaScript value, as far as a caller can hand one to a function that
    expects a string. *)
Inductive value : Type :=
| VUndefined
| VNull
| VBool (b : bool)
| VNumber (z : Z)
| VString (s : string)
| VObject (ref : nat).

(** [!!v] and [typeof v === 'string']. *)
Definition truthyValue (v : value) : bool :=
  match v with
  | VUndefined | VNull => false
  | VBool b => b
  | VNumber z => negb (z =? 0)
  | VString s => negb (String.eqb s "")
  | VObject _ => true
  end.

Definition isString (v : value) : bool :=
  match v with
  | VString _ => true
  | _ => false
  end.

(** Apply a string function to a string value, leave other values alone. *)
Definition onString (f : string -> string) (v : value) : value :=
  match v with
  | VString s => VString (f s)
  | _ => v
  end.

(** ** Vocabulary for statements about strings *)

Fixpoint allChars (P : ascii -> bool) (s : string) : bool :=
  match s with
  | EmptyString => true
  | String c r => P c && allChars P r
  end.

(** The string is empty or starts (ends) with something else than white
    space. *)
Definition startsNonWs (s : string) : bool :=
  match s with
  | EmptyString => true
  | String c _ => negb (isWhiteSpace c)
  end.

Fixpoint endsNonWs (s : string) : bool :=
  match s with
  | EmptyString => true
  | String c EmptyString => negb (isWhiteSpace c)
  | String _ r => endsNonWs r
  end.

End Js.

Infix "|||" := Js.or_else (at level 50, left associativity).
Infix "???" := Js.nullish (at level 50, left associativity).

(* ===================================================================== *)
(** * utils/isadmin.js                                                     *)
(* ===================================================================== *)

Module IsAdmin.
Import Js.

(** ** Identity normalisation *)

(** The string branch of [normalizeJid]. *)
Definition normalizeJidString (jid : string) : string :=
  let s := toLowerCase (trim jid) in
  match indexOf "@" s with
  | None => splitHead s
  | Some atIdx =>
      let local := splitHead (sliceTo atIdx s) in
      let domain := sliceFrom (S atIdx) s in
      local +:+ "@" +:+ domain
  end.

(** [normalizeJid(jid)] on any value.  [None] stands for a thrown
    [TypeError] ([jid.trim] called on something that has no such method);
    the guard returns anything falsy or not a string as it came. *)
Definition normalizeJid (jid : value) : option value :=
  if negb (truthyValue jid) || negb (isString jid) then Some jid
  else
    match jid with
    | VString s => Some (VString (normalizeJidString s))
    | _ => None
    end.

(** [jidEquals(a, b)] on strings. *)
Definition jidEquals (a b : string) : bool :=
  if String.eqb a "" || String.eqb b "" then false
  else String.eqb (normalizeJidString a) (normalizeJidString b).

(** ** Group metadata as the transport delivers it *)

(** A participant record; the role fields are strings, the flags are read
    through [!!]. *)
Record participantObj : Type := {
  p_id : option string;
  p_jid : option string;
  p_participant : option string;
  p_role : option string;
  p_participantType : option string;
  p_isAdmin : bool;
  p_isSuperAdmin : bool;
  p_admin : bool;
  p_superAdmin : bool;
  p_isCreator : bool
}.

(** An element of a participants array: a falsy value, a plain string or
    a record. *)
Inductive participant : Type :=
| PNull
| PString (s : string)
| PObject (o : participantObj).

(** A truthy value returned by a metadata call.  [participants] is [None]
    when the field is missing or not an array. *)
Record metadata : Type := {
  participants : option (list participant)
}.

Definition normalizeParticipantId (p : participant) : option string :=
  match p with
  | PNull => None
  | PString s =>
      if String.eqb s "" then None else Some (normalizeJidString s)
  | PObject o =>
      let possible := p_id o ??? p_jid o ??? p_participant o in
      if truthy possible then normalizeJidString <$> possible else None
  end.

(** The role string and the [isAdminFlag] of [buildAdminSetFromParticipants]. *)
Definition roleOf (o : participantObj) : string :=
  toLowerCase (default "" (p_role o ||| p_participantType o ||| Some "")).

Definition isAdminFlag (o : participantObj) : bool :=
  p_isAdmin o || p_isSuperAdmin o || p_admin o || p_superAdmin o ||
  p_isCreator o ||
  String.eqb (roleOf o) "admin" || String.eqb (roleOf o) "creator" ||
  String.eqb (roleOf o) "superadmin" || String.eqb (roleOf o) "owner".

(** One iteration of the loop of [buildAdminSetFromParticipants]. *)
Definition addIfAdmin (admins : gset string) (p : participant) : gset string :=
  match p with
  | PNull => admins
  | PString _ => admins
  | PObject o =>
      match normalizeParticipantId p with
      | Some id =>
          if String.eqb id "" then admins
          else if isAdminFlag o then {[ id ]} ∪ admins else admins
      | None => admins
      end
  end.

Definition buildAdminSetFromParticipants (ps : list participant) : gset string :=
  foldl addIfAdmin ∅ ps.

(** ** The bot object *)

Record cacheEntry : Type := { admins : gset string }.

(** The four places a metadata function may live, in the order the fetch
    tries them. *)
Inductive method : Type :=
| BotGroupMetadata
| SockGroupMetadata
| BotGetGroupMetadata
| SockFetchGroupMetadata.

(** What an awaited metadata call does: it rejects, or it resolves to a
    falsy value ([None]) or to a metadata object. *)
Inductive outcome : Type :=
| Throws
| Returns (v : option metadata).

(** A metadata function: its behaviour may depend on how many calls the bot
    has made so far and on the chat asked for. *)
Definition metadataFn : Type := nat -> string -> outcome.

Inductive event : Type :=
| EvCall (m : method) (chatId : string)
| EvWarn (attempt : nat) (threw : bool)
| EvSleep (ms : Z)
| EvError.

(** [_adminCacheFetches] maps a chat to the value its in-flight promise
    resolves to. *)
Record bot : Type := {
  _adminCache : gmap string cacheEntry;
  _adminCacheFetches : gmap string (option metadata);
  groupMetadata : option metadataFn;
  sock_groupMetadata : option metadataFn;
  getGroupMetadata : option metadataFn;
  sock_fetchGroupMetadata : option metadataFn;
  calls : nat;
  log : list event
}.

Definition setCache (c : gmap string cacheEntry) (b : bot) : bot :=
  {| _adminCache := c;
     _adminCacheFetches := _adminCacheFetches b;
     groupMetadata := groupMetadata b;
     sock_groupMetadata := sock_groupMetadata b;
     getGroupMetadata := getGroupMetadata b;
     sock_fetchGroupMetadata := sock_fetchGroupMetadata b;
     calls := calls b;
     log := log b |}.

Definition setFetches (f : gmap string (option metadata)) (b : bot) : bot :=
  {| _adminCache := _adminCache b;
     _adminCacheFetches := f;
     groupMetadata := groupMetadata b;
     sock_groupMetadata := sock_groupMetadata b;
     getGroupMetadata := getGroupMetadata b;
     sock_fetchGroupMetadata := sock_fetchGroupMetadata b;
     calls := calls b;
     log := log b |}.

Definition emit (e : event) (b : bot) : bot :=
  {| _adminCache := _adminCache b;
     _adminCacheFetches := _adminCacheFetches b;
     groupMetadata := groupMetadata b;
     sock_groupMetadata := sock_groupMetadata b;
     getGroupMetadata := getGroupMetadata b;
     sock_fetchGroupMetadata := sock_fetchGroupMetadata b;
     calls := calls b;
     log := log b ++ [e] |}.

Definition tick (b : bot) : bot :=
  {| _adminCache := _adminCache b;
     _adminCacheFetches := _adminCacheFetches b;
     groupMetadata := groupMetadata b;
     sock_groupMetadata := sock_groupMetadata b;
     getGroupMetadata := getGroupMetadata b;
     sock_fetchGroupMetadata := sock_fetchGroupMetadata b;
     calls := S (calls b);
     log := log b |}.

Definition methodOf (m : method) (b : bot) : option metadataFn :=
  match m with
  | BotGroupMetadata => groupMetadata b
  | SockGroupMetadata => sock_groupMetadata b
  | BotGetGroupMetadata => getGroupMetadata b
  | SockFetchGroupMetadata => sock_fetchGroupMetadata b
  end.

(** ** The retrying fetch *)

(** [typeof f === 'function' && (await f(chatId))]. *)
Definition tryMethod (m : method) (chatId : string) (b : bot) : outcome * bot :=
  match methodOf m b with
  | None => (Returns None, b)
  | Some f => (f (calls b) chatId, tick (emit (EvCall m chatId) b))
  end.

(** The [||] chain over the candidates, ending in [|| null]. *)
Fixpoint firstTruthy (ms : list method) (chatId : string) (b : bot) : outcome * bot :=
  match ms with
  | [] => (Returns None, b)
  | m :: rest =>
      match tryMethod m chatId b with
      | (Returns None, b1) => firstTruthy rest chatId b1
      | r => r
      end
  end.

Definition candidates : list method :=
  [BotGroupMetadata; SockGroupMetadata; BotGetGroupMetadata; SockFetchGroupMetadata].

(** The body of [for (let i = 0; i < 3; i++)], with [remaining = 3 - i]. *)
Fixpoint retryLoop (remaining i : nat) (chatId : string) (b : bot)
  : option metadata * bot :=
  match remaining with
  | O => (None, emit EvError b)
  | S r =>
      match firstTruthy candidates chatId b with
      | (Returns (Some md), b1) => (Some md, b1)
      | (o, b1) =>
          let b2 := emit (EvWarn (i + 1) (match o with Throws => true | Returns _ => false end)) b1 in
          let b3 :=
            if (i <? 2)%nat then emit (EvSleep (300 * (Z.of_nat i + 1))) b2
            else b2 in
          retryLoop r (S i) chatId b3
      end
  end.

(** [fetchGroupMetadataDeduped(bot, chatId)], awaited.  When the awaited
    promise has settled its [finally] has removed the in-flight entry. *)
Definition fetchGroupMetadataDeduped (chatId : string) (b : bot)
  : option metadata * bot :=
  if String.eqb chatId "" then (None, b)
  else
    match _adminCacheFetches b !! chatId with
    | Some existing =>
        (existing, setFetches (delete chatId (_adminCacheFetches b)) b)
    | None =>
        let '(r, b1) := retryLoop 3 0 chatId b in
        (r, setFetches (delete chatId (_adminCacheFetches b1)) b1)
    end.

(** ** Contexts and [isadmin] *)

Record messageKey : Type := {
  fromMe : bool;
  remoteJid : option string;
  key_participant : option string;
  key_from : option string
}.

Record context : Type := {
  key : option messageKey;
  ctx_remoteJid : option string;
  ctx_participant : option string;
  ctx_sender : option string
}.

(** [for (const a of admins) if (a && jidEquals(a, sender)) return true]. *)
Definition anyAdminMatches (s : gset string) (sender : string) : bool :=
  existsb (fun a => negb (String.eqb a "") && jidEquals a sender) (elements s).

(** [isadmin(bot, ctx)], awaited.  [ensureAdminCache] creates the two maps
    when they are missing; here they always exist and start empty. *)
Definition isadmin (ctx : context) (b : bot) : bool * bot :=
  match key ctx with
  | None => (false, b)
  | Some k =>
      if fromMe k then (true, b)
      else
        match remoteJid k ||| ctx_remoteJid ctx with
        | None => (false, b)
        | Some chatId =>
            if String.eqb chatId "" || negb (endsWith chatId "@g.us")
            then (false, b)
            else
              match key_participant k ||| ctx_participant ctx
                    ||| ctx_sender ctx ||| key_from k with
              | None => (false, b)
              | Some senderRaw =>
                  if String.eqb senderRaw "" then (false, b)
                  else
                    let sender := normalizeJidString senderRaw in
                    match _adminCache b !! chatId with
                    | Some cached => (anyAdminMatches (admins cached) sender, b)
                    | None =>
                        match fetchGroupMetadataDeduped chatId b with
                        | (None, b1) => (false, b1)
                        | (Some md, b1) =>
                            let ps := default [] (participants md) in
                            let s := buildAdminSetFromParticipants ps in
                            let b2 :=
                              setCache (<[chatId := {| admins := s |}]> (_adminCache b1)) b1 in
                            (anyAdminMatches s sender, b2)
                        end
                    end
              end
        end
  end.

(** ** Cache maintenance *)

Definition invalidateAdminCacheForChat (chatId : string) (b : bot) : bot :=
  if String.eqb chatId "" then b
  else setCache (delete chatId (_adminCache b)) b.

Definition clearAdminCache (b : bot) : bot := setCache ∅ b.

(** A [group-participants.update] event. *)
Record participantsUpdate : Type := {
  upd_id : option string;
  upd_participants : list participant;
  upd_action : string
}.

(** [participants.map(normalizeParticipantId).filter(Boolean)]. *)
Definition normalizedIds (ps : list participant) : list string :=
  omap (fun p =>
          match normalizeParticipantId p with
          | Some id => if String.eqb id "" then None else Some id
          | None => None
          end) ps.

Definition structuralActions : list string :=
  ["add"; "remove"; "leave"; "invite"; "change"].

Definition gpHandler (update : participantsUpdate) (b : bot) : bot :=
  match upd_id update with
  | None => b
  | Some chatId =>
      if String.eqb chatId "" then b
      else
        match _adminCache b !! chatId with
        | None => b
        | Some cacheEntry =>
            let partIds := normalizedIds (upd_participants update) in
            let action := upd_action update in
            if String.eqb action "promote" then
              let s := foldl (fun acc pid => {[ pid ]} ∪ acc) (admins cacheEntry) partIds in
              setCache (<[chatId := {| admins := s |}]> (_adminCache b)) b
            else if String.eqb action "demote" then
              let s := foldl (fun acc pid => acc ∖ {[ pid ]}) (admins cacheEntry) partIds in
              setCache (<[chatId := {| admins := s |}]> (_adminCache b)) b
            else if bool_decide (action ∈ structuralActions) then
              setCache (delete chatId (_adminCache b)) b
            else b
        end
  end.

(** A system notice in message history, as [upsertHandler] reads it:
    the chat found by [getChatIdFromMessage], the stub code and its
    parameters ([None] when they are not an array). *)
Record stubMessage : Type := {
  stub_chat : option string;
  stub_type : option Z;
  stub_params : option (list participant)
}.

Definition structuralStubs : list Z := [24; 25; 26; 27].

Definition upsertOne (b : bot) (m : stubMessage) : bot :=
  match stub_chat m, stub_type m with
  | Some chatId, Some stub =>
      if String.eqb chatId "" || (stub =? 0) then b
      else
        match _adminCache b !! chatId with
        | None => b
        | Some cacheEntry =>
            let paramIds := normalizedIds (default [] (stub_params m)) in
            let nonEmpty := negb (Nat.eqb (length paramIds) 0) in
            if (stub =? 29) && nonEmpty then
              let s := foldl (fun acc pid => {[ pid ]} ∪ acc) (admins cacheEntry) paramIds in
              setCache (<[chatId := {| admins := s |}]> (_adminCache b)) b
            else if (stub =? 30) && nonEmpty then
              let s := foldl (fun acc pid => acc ∖ {[ pid ]}) (admins cacheEntry) paramIds in
              setCache (<[chatId := {| admins := s |}]> (_adminCache b)) b
            else if bool_decide (stub ∈ structuralStubs) then
              setCache (delete chatId (_adminCache b)) b
            else b
        end
  | _, _ => b
  end.

Definition upsertHandler (messages : list stubMessage) (b : bot) : bot :=
  foldl upsertOne b messages.

(** ** Vocabulary for the statements *)

(** The part of [normalizeJidString] after trimming and lower-casing. *)
Definition splitJid (s : string) : string :=
  match indexOf "@" s with
  | None => splitHead s
  | Some atIdx => splitHead (sliceTo atIdx s) +:+ "@" +:+ sliceFrom (S atIdx) s
  end.

Definition isCall (e : event) : bool :=
  match e with
  | EvCall _ _ => true
  | _ => false
  end.

(** Every metadata function the bot has fails for [chatId]: it throws or
    resolves to a falsy value, whenever it is called. *)
Definition allFail (chatId : string) (b : bot) : Prop :=
  forall m f n, methodOf m b = Some f ->
    f n chatId = Throws \/ f n chatId = Returns None.

(** [b'] is [b] after some metadata calls and log entries: same cache, same
    in-flight map, same metadata functions. *)
Record sameBot (b b' : bot) : Prop := {
  same_cache : _adminCache b' = _adminCache b;
  same_fetches : _adminCacheFetches b' = _adminCacheFetches b;
  same_methods : forall m, methodOf m b' = methodOf m b
}.

(** The log entries of a failed attempt number [i] (counted from 0). *)
Definition afterFailure (i : nat) (threw : bool) : list event :=
  EvWarn (i + 1) threw ::
  (if (i <? 2)%nat then [EvSleep (300 * (Z.of_nat i + 1))] else []).

(** The chat a context is about ([chatId] in [isadmin]) and whether it is the
    bot's own message. *)
Definition chatOf (ctx : context) : option string :=
  match key ctx with
  | Some k => remoteJid k ||| ctx_remoteJid ctx
  | None => None
  end.

Definition selfAction (ctx : context) : bool :=
  match key ctx with
  | Some k => fromMe k
  | None => false
  end.

(** No admin-marking role or flag on a participant, on a metadata object. *)
Definition noAdminMark (p : participant) : bool :=
  match p with
  | PObject o => negb (isAdminFlag o)
  | _ => true
  end.

Definition noAdminMarks (md : metadata) : bool :=
  forallb noAdminMark (default [] (participants md)).

(** A sequence of awaited [isadmin] calls. *)
Fixpoint isadminAll (ctxs : list context) (b : bot) : list bool * bot :=
  match ctxs with
  | [] => ([], b)
  | c :: cs =>
      let '(r, b1) := isadmin c b in
      let '(rs, b2) := isadminAll cs b1 in
      (r :: rs, b2)
  end.

(** The metadata calls made for chat [g], read off a log. *)
Definition callsFor (g : string) (l : list event) : list event :=
  List.filter (fun e => match e with EvCall _ c => String.eqb c g | _ => false end) l.

Definition emptyEntry : cacheEntry := {| admins := ∅ |}.

(** A role-change event for one user of chat [g]. *)
Definition roleChange (g : string) (u : participant) (action : string)
  : participantsUpdate :=
  {| upd_id := Some g; upd_participants := [u]; upd_action := action |}.

(** The admin set cached for [g], if any, and whether [id] is in it. *)
Definition cachedAdmins (g : string) (b : bot) : option (gset string) :=
  admins <$> _adminCache b !! g.

Definition cachedMember (g id : string) (b : bot) : bool :=
  match cachedAdmins g b with
  | Some s => bool_decide (id ∈ s)
  | None => false
  end.

(** ** Sample bots and contexts *)

(** The bot with nothing cached, nothing in flight and no metadata function. *)
Definition freshBot : bot :=
  {| _adminCache := ∅; _adminCacheFetches := ∅;
     groupMetadata := None; sock_groupMetadata := None;
     getGroupMetadata := None; sock_fetchGroupMetadata := None;
     calls := 0; log := [] |}.

Definition withGroupMetadata (f : metadataFn) (b : bot) : bot :=
  {| _adminCache := _adminCache b; _adminCacheFetches := _adminCacheFetches b;
     groupMetadata := Some f; sock_groupMetadata := sock_groupMetadata b;
     getGroupMetadata := getGroupMetadata b;
     sock_fetchGroupMetadata := sock_fetchGroupMetadata b;
     calls := calls b; log := log b |}.

(** A bot whose [groupMetadata] always rejects, one that always resolves to
    a metadata object with an empty participants array, and one whose group
    has two members, none of them marked as admin. *)
Definition offlineBot : bot := withGroupMetadata (fun _ _ => Throws) freshBot.

Definition emptySnapshot : metadata := {| participants := Some [] |}.

Definition emptyGroupBot : bot :=
  withGroupMetadata (fun _ _ => Returns (Some emptySnapshot)) freshBot.

Definition plainMember (jid : string) : participant :=
  PObject {| p_id := Some jid; p_jid := None; p_participant := None;
             p_role := None; p_participantType := None;
             p_isAdmin := false; p_isSuperAdmin := false; p_admin := false;
             p_superAdmin := false; p_isCreator := false |}.

Definition membersOnly : metadata :=
  {| participants := Some [plainMember "a@s.whatsapp.net"; PString "b@s.whatsapp.net"] |}.

Definition leaderlessBot : bot :=
  withGroupMetadata (fun _ _ => Returns (Some membersOnly)) freshBot.

(** A bot that has [u@s.whatsapp.net] cached as the only admin of
    [g@g.us]. *)
Definition demoEntry : cacheEntry := {| admins := {[ "u@s.whatsapp.net" ]} |}.

Definition demoBot : bot := setCache {[ "g@g.us" := demoEntry ]} freshBot.

Definition demoKey : messageKey :=
  {| fromMe := false; remoteJid := Some "g@g.us";
     key_participant := Some "u@s.whatsapp.net"; key_from := None |}.

Definition demoContext : context :=
  {| key := Some demoKey; ctx_remoteJid := None; ctx_participant := None;
     ctx_sender := None |}.

(** * More of the admin check *)

(** A character that may stand in the user part of a JID: neither [@] nor
    one of the separators that start the device part. *)
Definition isUserChar (c : ascii) : bool :=
  negb (Ascii.eqb c "@") && negb (isResourceSep c).

Definition isNotAt (c : ascii) : bool := negb (Ascii.eqb c "@").

(** [sender], as it came with a message, is matched by an entry of the admin
    set [S]: [isadmin] normalises the sender, [jidEquals] normalises the
    entry and the normalised sender once more. *)
Definition recognises (S : gset string) (sender : string) : Prop :=
  normalizeJidString sender <> "" /\
  exists a, a ∈ S /\ a <> "" /\
    normalizeJidString a = trimEnd (normalizeJidString sender).

(** The participant record [o] contributes [id] to the admin set. *)
Definition contributes (o : participantObj) (id : string) : Prop :=
  isAdminFlag o = true /\ normalizeParticipantId (PObject o) = Some id /\ id <> "".

(** A group with one admin and one plain member, and the bot that is told
    so by its [groupMetadata]. *)
Definition adminMember (jid : string) : participant :=
  PObject {| p_id := Some jid; p_jid := None; p_participant := None;
             p_role := None; p_participantType := None;
             p_isAdmin := false; p_isSuperAdmin := false; p_admin := true;
             p_superAdmin := false; p_isCreator := false |}.

Definition ledGroup : metadata :=
  {| participants := Some [adminMember "U@s.whatsapp.net"; plainMember "a@s.whatsapp.net"] |}.

Definition ledBot : bot :=
  withGroupMetadata (fun _ _ => Returns (Some ledGroup)) freshBot.

(** ** The module seen from outside *)

(** [teardownAdminCache(bot)], as far as the two maps go: both are cleared
    and replaced. *)
Definition teardownAdminCache (b : bot) : bot := setFetches ∅ (setCache ∅ b).

(** What can happen to the cache of a bot: a call of one of the exported
    functions, or one of the two event handlers running. *)
Inductive call : Type :=
| CallIsAdmin (ctx : context)
| EventParticipants (update : participantsUpdate)
| EventUpsert (messages : list stubMessage)
| CallInvalidate (chatId : string)
| CallClear
| CallTeardown.

Definition perform (b : bot) (c : call) : bot :=
  match c with
  | CallIsAdmin ctx => (isadmin ctx b).2
  | EventParticipants update => gpHandler update b
  | EventUpsert messages => upsertHandler messages b
  | CallInvalidate chatId => invalidateAdminCacheForChat chatId b
  | CallClear => clearAdminCache b
  | CallTeardown => teardownAdminCache b
  end.

Definition performAll (cs : list call) (b : bot) : bot := foldl perform b cs.

(** Every element is a normalised identity, and not the empty one. *)
Definition normalForms (S : gset string) : Prop :=
  forall a, a ∈ S -> a <> "" /\ exists raw, a = normalizeJidString raw.

(** Only groups are cached, and only with normalised identities. *)
Definition cacheWF (b : bot) : Prop :=
  forall g e, _adminCache b !! g = Some e ->
    endsWith g "@g.us" = true /\ normalForms (admins e).

(** The system notice of a role change or of a structural change, and the
    participants update that says the same. *)
Definition noticeAsUpdate (m : stubMessage) (action : string) : participantsUpdate :=
  {| upd_id := stub_chat m; upd_participants := default [] (stub_params m);
     upd_action := action |}.

(** The handlers read and write [_adminCache] only. *)
Record cacheOnly (b b' : bot) : Prop := {
  co_fetches : _adminCacheFetches b' = _adminCacheFetches b;
  co_methods : forall m, methodOf m b' = methodOf m b;
  co_calls : calls b' = calls b;
  co_log : log b' = log b
}.

(** A message of [sender] in chat [g], not the bot's own. *)
Definition messageFrom (g sender : string) : context :=
  {| key := Some {| fromMe := false; remoteJid := Some g;
                    key_participant := Some sender; key_from := None |};
     ctx_remoteJid := None; ctx_participant := None; ctx_sender := None |}.

(** The three facts about one handler step: the other fields stay, no entry
    appears, the other chats stay. *)
Definition tame (chat : option string) (b b' : bot) : Prop :=
  cacheOnly b b' /\
  (forall g, _adminCache b !! g = None -> _adminCache b' !! g = None) /\
  (forall g, chat <> Some g -> _adminCache b' !! g = _adminCache b !! g).

(** The bot [b] with [f] as its [sock.groupMetadata]. *)
Definition withSockGroupMetadata (f : metadataFn) (b : bot) : bot :=
  {| _adminCache := _adminCache b; _adminCacheFetches := _adminCacheFetches b;
     groupMetadata := groupMetadata b; sock_groupMetadata := Some f;
     getGroupMetadata := getGroupMetadata b;
     sock_fetchGroupMetadata := sock_fetchGroupMetadata b;
     calls := calls b; log := log b |}.

(** A bot whose [groupMetadata] always rejects although its
    [sock.groupMetadata] would answer, and one whose [groupMetadata]
    resolves to nothing while [sock.groupMetadata] answers. *)
Definition brokenFront : bot :=
  withSockGroupMetadata (fun _ _ => Returns (Some ledGroup)) offlineBot.

Definition silentFront : bot :=
  withSockGroupMetadata (fun _ _ => Returns (Some ledGroup))
    (withGroupMetadata (fun _ _ => Returns None) freshBot).

End IsAdmin.

(* ===================================================================== *)
(** * carl/antilink.js                                                     *)
(* ===================================================================== *)

Module Antilink.
Import Js.

(** ** Configuration, messages, settings *)

(** The [ANTILINK] configuration after [refreshConfig]. *)
Record config : Type := {
  MAX_WARNS : Z;
  REMOVE_ON_MAX : bool;
  SEND_WARNING : bool;
  LOG_DELETED_LINKS : bool;
  BATCH_SIZE : Z;
  BATCH_DELAY_MS : Z;
  GLOBAL_CONCURRENCY : Z;
  DELETE_RETRY_COUNT : Z
}.

Definition defaultConfig : config :=
  {| MAX_WARNS := 3; REMOVE_ON_MAX := true; SEND_WARNING := true;
     LOG_DELETED_LINKS := true; BATCH_SIZE := 5; BATCH_DELAY_MS := 800;
     GLOBAL_CONCURRENCY := 2; DELETE_RETRY_COUNT := 2 |}.

(** [n || 1] on numbers. *)
Definition orOne (n : Z) : Z := if n =? 0 then 1 else n.

Record messageKey : Type := {
  remoteJid : option string;
  id : option string;
  participant : option string;
  fromMe : bool
}.

Record messageBody : Type := {
  conversation : option string;
  extendedText : option string;
  imageCaption : option string;
  videoCaption : option string
}.

Record context : Type := {
  key : option messageKey;
  message : option messageBody;
  text : option string;
  isCommand : bool
}.

Record groupSetting : Type := {
  enabled : bool;
  whitelist : list string
}.

(** What the awaited collaborators answer while one message is handled:
    [getGroupSetting], [isadmin] and [messageContainsLink]. *)
Record answers : Type := {
  setting : groupSetting;
  admin : bool;
  containsLink : bool
}.

(** [ctx.key?.remoteJid]. *)
Definition chatIdOf (ctx : context) : option string :=
  match key ctx with
  | Some k => remoteJid k
  | None => None
  end.

(** [ctx.key?.participant || ctx.key?.remoteJid]. *)
Definition senderJidOf (ctx : context) : option string :=
  match key ctx with
  | Some k => participant k ||| remoteJid k
  | None => None
  end.

(** [ctx.key.fromMe]. *)
Definition fromMeOf (ctx : context) : bool :=
  match key ctx with
  | Some k => fromMe k
  | None => false
  end.

Definition extractTextFromMessage (ctx : context) : string :=
  match message ctx with
  | None => ""
  | Some m =>
      default ""
        (conversation m ||| extendedText m ||| imageCaption m
           ||| videoCaption m ||| Some "")
  end.

Definition getMessageKey (ctx : context) : option string :=
  match key ctx with
  | Some k =>
      match id k with
      | Some i =>
          if String.eqb i "" then None
          else Some (default "undefined" (remoteJid k) +:+ ":" +:+ i)
      | None => None
      end
  | None => None
  end.

(** ** The whitelist check of [onMessage] *)

Definition whitelistMatch (senderJid text : string) (item : string) : bool :=
  if includes item "@" then String.eqb item senderJid
  else includes text item.

Definition isWhitelisted (wl : list string) (senderJid text : string) : bool :=
  existsb (whitelistMatch senderJid text) wl.

(** ** The command word of [onMessage] *)

(** [s.split(/\s+/)[0]] for a trimmed [s]. *)
Fixpoint firstWord (s : string) : string :=
  match s with
  | EmptyString => EmptyString
  | String c r => if isWhiteSpace c then EmptyString else String c (firstWord r)
  end.

(** [s.replace('/', '')]: the first slash is removed. *)
Fixpoint dropFirstSlash (s : string) : string :=
  match s with
  | EmptyString => EmptyString
  | String c r => if Ascii.eqb c "/" then r else String c (dropFirstSlash r)
  end.

Definition commands : list string := ["antilink"; "antilinkwl"].

Definition commandOf (ctx : context) : option string :=
  let cmdText := trim (default "" (text ctx ||| Some (extractTextFromMessage ctx))) in
  if isCommand ctx && negb (String.eqb cmdText "")
  then Some (dropFirstSlash (toLowerCase (firstWord cmdText)))
  else None.

Definition isKnownCommand (ctx : context) : bool :=
  isCommand ctx &&
  match commandOf ctx with
  | Some cmd => bool_decide (cmd ∈ commands)
  | None => false
  end.

(** ** The warning ledger *)

Record warnResult : Type := { count : Z; removed : bool }.

Definition userKey (chatId sender : string) : string :=
  chatId +:+ "::" +:+ sender.

(** Where [incrementWarningAndMaybeRemove] stands when it first yields:
    it has returned, or [groupParticipantsUpdate] is in flight. *)
Inductive ledgerStep : Type :=
| LedgerDone (r : warnResult)
| LedgerRemoving (chatId sender : string) (n : Z).

Definition beginWarning (cfg : config) (ctx : context) (w : gmap string Z)
  : gmap string Z * ledgerStep :=
  match chatIdOf ctx, (senderJidOf ctx ||| Some "") with
  | Some chat, Some sender =>
      if String.eqb chat "" || String.eqb sender ""
      then (w, LedgerDone {| count := 0; removed := false |})
      else
        let k := userKey chat sender in
        let n := default 0 (w !! k) + 1 in
        let w1 := <[k := n]> w in
        if REMOVE_ON_MAX cfg && (MAX_WARNS cfg <=? n)
        then (w1, LedgerRemoving chat sender n)
        else (w1, LedgerDone {| count := n; removed := false |})
  | _, _ => (w, LedgerDone {| count := 0; removed := false |})
  end.

(** After the awaited removal: on success the counter is deleted, on a
    rejection the [catch] returns [{count: 0, removed: false}] and the
    counter stays as it was incremented. *)
Definition endRemoval (chatId sender : string) (n : Z) (ok : bool)
    (w : gmap string Z) : gmap string Z * warnResult :=
  if ok then (delete (userKey chatId sender) w, {| count := n; removed := true |})
  else (w, {| count := 0; removed := false |}).

(** [incrementWarningAndMaybeRemove(ctx)], awaited; [removal] says whether
    [groupParticipantsUpdate] resolves, should it be called. *)
Definition incrementWarningAndMaybeRemove (cfg : config) (removal : bool)
    (ctx : context) (w : gmap string Z) : gmap string Z * warnResult :=
  match beginWarning cfg ctx w with
  | (w1, LedgerDone r) => (w1, r)
  | (w1, LedgerRemoving chat sender n) => endRemoval chat sender n removal w1
  end.

(** ** The deletion queue as a transition system

    JavaScript runs one callback at a time; an [async] function runs until
    its next [await] and resumes later.  The state below holds the module's
    variables, the pending timers, and one record per running
    [processChatQueue] saying at which [await] it is suspended.  A run of
    [await]s with no access to the module's variables between them is one
    suspension.  Every externally visible action is appended to [trace].
    The clock matters for the timers only: a timer fires no earlier than
    it is due, a sleeping drain may resume at any later step.  [cleanup]
    and a second [initialize] are not steps of the system: it describes
    the module between its start and its shutdown. *)

(** The callbacks handed to [setTimeout]/[setImmediate]. *)
Inductive callback : Type :=
| ForgetMessage (msgKey : option string)
| TryStart (chatId : string).

Record timer : Type := { due : Z; cb : callback }.

(** The suspension points of [processChatQueue]; [rest] is what is left of
    the batch that was spliced off the queue. *)
Inductive pc : Type :=
| AwaitDelete (ctx : context) (i : nat) (rest : list context)
| AwaitRetrySleep (ctx : context) (i : nat) (rest : list context)
| AwaitNoDelete (rest : list context)
| AwaitForward (ctx : context) (rest : list context)
| AwaitRemoval (ctx : context) (chatId sender : string) (n : Z) (rest : list context)
| AwaitWarning (rest : list context)
| AwaitBatchDelay
| Finishing.

Inductive effect : Type :=
| Enqueued (ctx : context)
| DeleteAttempt (ctx : context) (i : nat)
| Forwarded (ctx : context)
| RemoveRequested (chatId sender : string)
| Warned (ctx : context) (n : Z).

Record state : Type := {
  perChatQueue : gmap string (list context);
  perChatProcessing : gmap string bool;
  activeChats : Z;
  shuttingDown : bool;
  processedMessageIds : gset (option string);
  perUserWarnings : gmap string Z;
  timers : list timer;
  tasks : list (string * pc);
  now : Z;
  trace : list effect
}.

(** After [initialize], at time [t0]. *)
Definition initial (t0 : Z) : state :=
  {| perChatQueue := ∅; perChatProcessing := ∅; activeChats := 0;
     shuttingDown := false; processedMessageIds := ∅; perUserWarnings := ∅;
     timers := []; tasks := []; now := t0; trace := [] |}.

Definition setQueue (q : gmap string (list context)) (s : state) : state :=
  {| perChatQueue := q; perChatProcessing := perChatProcessing s;
     activeChats := activeChats s; shuttingDown := shuttingDown s;
     processedMessageIds := processedMessageIds s;
     perUserWarnings := perUserWarnings s; timers := timers s;
     tasks := tasks s; now := now s; trace := trace s |}.

Definition setProcessing (p : gmap string bool) (a : Z) (s : state) : state :=
  {| perChatQueue := perChatQueue s; perChatProcessing := p;
     activeChats := a; shuttingDown := shuttingDown s;
     processedMessageIds := processedMessageIds s;
     perUserWarnings := perUserWarnings s; timers := timers s;
     tasks := tasks s; now := now s; trace := trace s |}.

Definition setProcessed (m : gset (option string)) (s : state) : state :=
  {| perChatQueue := perChatQueue s; perChatProcessing := perChatProcessing s;
     activeChats := activeChats s; shuttingDown := shuttingDown s;
     processedMessageIds := m;
     perUserWarnings := perUserWarnings s; timers := timers s;
     tasks := tasks s; now := now s; trace := trace s |}.

Definition setWarnings (w : gmap string Z) (s : state) : state :=
  {| perChatQueue := perChatQueue s; perChatProcessing := perChatProcessing s;
     activeChats := activeChats s; shuttingDown := shuttingDown s;
     processedMessageIds := processedMessageIds s;
     perUserWarnings := w; timers := timers s;
     tasks := tasks s; now := now s; trace := trace s |}.

Definition setTimers (t : list timer) (s : state) : state :=
  {| perChatQueue := perChatQueue s; perChatProcessing := perChatProcessing s;
     activeChats := activeChats s; shuttingDown := shuttingDown s;
     processedMessageIds := processedMessageIds s;
     perUserWarnings := perUserWarnings s; timers := t;
     tasks := tasks s; now := now s; trace := trace s |}.

Definition setTasks (t : list (string * pc)) (s : state) : state :=
  {| perChatQueue := perChatQueue s; perChatProcessing := perChatProcessing s;
     activeChats := activeChats s; shuttingDown := shuttingDown s;
     processedMessageIds := processedMessageIds s;
     perUserWarnings := perUserWarnings s; timers := timers s;
     tasks := t; now := now s; trace := trace s |}.

Definition setNow (t : Z) (s : state) : state :=
  {| perChatQueue := perChatQueue s; perChatProcessing := perChatProcessing s;
     activeChats := activeChats s; shuttingDown := shuttingDown s;
     processedMessageIds := processedMessageIds s;
     perUserWarnings := perUserWarnings s; timers := timers s;
     tasks := tasks s; now := t; trace := trace s |}.

Definition record (e : effect) (s : state) : state :=
  {| perChatQueue := perChatQueue s; perChatProcessing := perChatProcessing s;
     activeChats := activeChats s; shuttingDown := shuttingDown s;
     processedMessageIds := processedMessageIds s;
     perUserWarnings := perUserWarnings s; timers := timers s;
     tasks := tasks s; now := now s; trace := trace s ++ [e] |}.

(** [setTimeout(cb, ms)]. *)
Definition setTimeout (c : callback) (ms : Z) (s : state) : state :=
  setTimers (timers s ++ [{| due := now s + ms; cb := c |}]) s.

(** [perChatQueue.get(chatId)], an absent queue read as empty, and
    [perChatProcessing.get(chatId)] read through [!]. *)
Definition queueOf (chatId : string) (s : state) : list context :=
  default [] (perChatQueue s !! chatId).

Definition processingOf (chatId : string) (s : state) : bool :=
  default false (perChatProcessing s !! chatId).

Definition nonEmpty {A} (l : list A) : bool :=
  match l with
  | [] => false
  | _ :: _ => true
  end.

(** The first steps of [deleteWithRetry(ctx)]: without a [remoteJid] it
    returns [false]; otherwise the first [sendMessage] is issued. *)
Definition startDelete (ctx : context) (rest : list context) (s : state)
  : state * pc :=
  if truthy (chatIdOf ctx)
  then (record (DeleteAttempt ctx 1) s, AwaitDelete ctx 1 rest)
  else (s, AwaitNoDelete rest).

(** The [for (const ctx of batch)] loop from its next element on, and what
    follows the loop: the pause when the queue is not empty, the [while]
    test otherwise. *)
Definition continueBatch (chatId : string) (batch : list context) (s : state)
  : state * pc :=
  match batch with
  | ctx :: rest => startDelete ctx rest s
  | [] =>
      if nonEmpty (queueOf chatId s) then (s, AwaitBatchDelay)
      else (s, Finishing)
  end.

(** [processChatQueue(chatId)] from the [while] test to its next [await]. *)
Definition processChatQueue (cfg : config) (chatId : string) (s : state)
  : state * pc :=
  if nonEmpty (queueOf chatId s) && negb (shuttingDown s) then
    let n := Z.to_nat (orOne (BATCH_SIZE cfg)) in
    let q := queueOf chatId s in
    continueBatch chatId (take n q)
      (setQueue (<[chatId := drop n q]> (perChatQueue s)) s)
  else (s, Finishing).

Definition tryStartProcessingForChat (cfg : config) (chatId : string) (s : state)
  : state :=
  if processingOf chatId s || shuttingDown s then s
  else if orOne (GLOBAL_CONCURRENCY cfg) <=? activeChats s
  then setTimeout (TryStart chatId) 150 s
  else
    let s1 := setProcessing (<[chatId := true]> (perChatProcessing s))
                            (activeChats s + 1) s in
    let '(s2, p) := processChatQueue cfg chatId s1 in
    setTasks (tasks s2 ++ [(chatId, p)]) s2.

Definition enqueueDeletion (cfg : config) (ctx : context) (s : state) : state :=
  match chatIdOf ctx with
  | Some chatId =>
      if String.eqb chatId "" then s
      else
        let s1 :=
          record (Enqueued ctx)
            (setQueue (<[chatId := queueOf chatId s ++ [ctx]]> (perChatQueue s)) s) in
        if processingOf chatId s1 then s1
        else tryStartProcessingForChat cfg chatId s1
  | None => s
  end.

(** [Math.max(1, config.DELETE_RETRY_COUNT || 1)]. *)
Definition deleteAttempts (cfg : config) : Z :=
  Z.max 1 (orOne (DELETE_RETRY_COUNT cfg)).

(** [sendWarning(ctx, count)] up to its [await]. *)
Definition sendWarning (cfg : config) (ctx : context) (n : Z) (s : state) : state :=
  if SEND_WARNING cfg then record (Warned ctx n) s else s.

(** [forwardDeletedLink(ctx)] up to its first [await]. *)
Definition forwardDeletedLink (cfg : config) (ctx : context) (s : state) : state :=
  if LOG_DELETED_LINKS cfg then record (Forwarded ctx) s else s.

(** A suspended [processChatQueue] of [chatId] goes on: [ok] tells whether
    the awaited call resolved (it matters for the deletion and for the
    removal).  The result is the next suspension, or [None] when the
    [finally] block of [tryStartProcessingForChat] has run. *)
Definition resume (cfg : config) (chatId : string) (p : pc) (ok : bool) (s : state)
  : state * option pc :=
  match p with
  | AwaitDelete ctx i rest =>
      if ok then (forwardDeletedLink cfg ctx s, Some (AwaitForward ctx rest))
      else if Z.of_nat i <? deleteAttempts cfg
      then (s, Some (AwaitRetrySleep ctx i rest))
      else let '(s1, p1) := continueBatch chatId rest s in (s1, Some p1)
  | AwaitRetrySleep ctx i rest =>
      (record (DeleteAttempt ctx (S i)) s, Some (AwaitDelete ctx (S i) rest))
  | AwaitNoDelete rest =>
      let '(s1, p1) := continueBatch chatId rest s in (s1, Some p1)
  | AwaitForward ctx rest =>
      match beginWarning cfg ctx (perUserWarnings s) with
      | (w1, LedgerDone r) =>
          (sendWarning cfg ctx (count r) (setWarnings w1 s), Some (AwaitWarning rest))
      | (w1, LedgerRemoving chat sender n) =>
          (record (RemoveRequested chat sender) (setWarnings w1 s),
           Some (AwaitRemoval ctx chat sender n rest))
      end
  | AwaitRemoval ctx chat sender n rest =>
      let '(w2, r) := endRemoval chat sender n ok (perUserWarnings s) in
      let s1 := setWarnings w2 s in
      if removed r
      then let '(s2, p2) := continueBatch chatId rest s1 in (s2, Some p2)
      else (sendWarning cfg ctx (count r) s1, Some (AwaitWarning rest))
  | AwaitWarning rest =>
      let '(s1, p1) := continueBatch chatId rest s in (s1, Some p1)
  | AwaitBatchDelay =>
      let '(s1, p1) := processChatQueue cfg chatId s in (s1, Some p1)
  | Finishing =>
      let s1 := setProcessing (<[chatId := false]> (perChatProcessing s))
                              (activeChats s - 1) s in
      (if nonEmpty (queueOf chatId s1) then setTimeout (TryStart chatId) 0 s1 else s1,
       None)
  end.

(** Lines 517-520 of [onMessage]: duplicate suppression, then the enqueue. *)
Definition acceptViolation (cfg : config) (ctx : context) (s : state) : state :=
  let msgKey := getMessageKey ctx in
  if bool_decide (msgKey ∈ processedMessageIds s) then s
  else
    enqueueDeletion cfg ctx
      (setTimeout (ForgetMessage msgKey) 5000
         (setProcessed ({[ msgKey ]} ∪ processedMessageIds s) s)).

(** [onMessage(ctx)], with the answers of its awaited collaborators.  The
    command branch changes settings only, not this state. *)
Definition onMessage (cfg : config) (env : answers) (ctx : context) (s : state)
  : state :=
  match chatIdOf ctx, message ctx with
  | Some remote, Some _ =>
      if String.eqb remote "" || shuttingDown s then s
      else if isKnownCommand ctx then s
      else if endsWith remote "@g.us" then
        if negb (enabled (setting env)) then s
        else if fromMeOf ctx || admin env then s
        else if isWhitelisted (whitelist (setting env))
                  (default "" (senderJidOf ctx)) (extractTextFromMessage ctx)
        then s
        else if containsLink env then acceptViolation cfg ctx s
        else s
      else s
  | _, _ => s
  end.

(** What can happen next: a message is handled up to its last
    synchronous stretch, a due timer fires, a suspended drain resumes, or
    time passes. *)
Inductive label : Type :=
| Message (env : answers) (ctx : context)
| Fire (n : nat)
| Resume (n : nat) (ok : bool)
| Tick (d : Z).

Definition fire (cfg : config) (c : callback) (s : state) : state :=
  match c with
  | ForgetMessage msgKey => setProcessed (processedMessageIds s ∖ {[ msgKey ]}) s
  | TryStart chatId => tryStartProcessingForChat cfg chatId s
  end.

Definition step (cfg : config) (l : label) (s : state) : option state :=
  match l with
  | Message env ctx => Some (onMessage cfg env ctx s)
  | Fire n =>
      match timers s !! n with
      | Some t =>
          if due t <=? now s
          then Some (fire cfg (cb t) (setTimers (delete n (timers s)) s))
          else None
      | None => None
      end
  | Resume n ok =>
      match tasks s !! n with
      | Some (chatId, p) =>
          let '(s1, next) := resume cfg chatId p ok (setTasks (delete n (tasks s)) s) in
          Some (match next with
                | Some p1 => setTasks (tasks s1 ++ [(chatId, p1)]) s1
                | None => s1
                end)
      | None => None
      end
  | Tick d => if 0 <=? d then Some (setNow (now s + d) s) else None
  end.

Fixpoint run (cfg : config) (ls : list label) (s : state) : option state :=
  match ls with
  | [] => Some s
  | l :: rest =>
      match step cfg l s with
      | Some s1 => run cfg rest s1
      | None => None
      end
  end.

(** ** Vocabulary for the statements *)

(** The enqueue order and the deletion attempts of one chat, read off the
    trace. *)
Definition inChat (g : string) (ctx : context) : bool :=
  bool_decide (chatIdOf ctx = Some g).

Definition enqueuedFor (g : string) (tr : list effect) : list context :=
  omap (fun e => match e with
                 | Enqueued c => if inChat g c then Some c else None
                 | _ => None
                 end) tr.

Definition attemptsFor (g : string) (tr : list effect) : list (context * nat) :=
  omap (fun e => match e with
                 | DeleteAttempt c i => if inChat g c then Some (c, i) else None
                 | _ => None
                 end) tr.

(** Attempts number 1 to [k] on one action, and the attempts on a list of
    actions done one after the other. *)
Definition attemptsOf (p : context * nat) : list (context * nat) :=
  map (fun i => (p.1, i)) (seq 1 p.2).

Definition blocks (done : list (context * nat)) : list (context * nat) :=
  flat_map attemptsOf done.

(** The actions of chat [g] whose deletion was started, in the order of their
    first attempt. *)
Definition startedFor (g : string) (tr : list effect) : list context :=
  map fst (List.filter (fun a => Nat.eqb a.2 1) (attemptsFor g tr)).

(** The suspension points of the drains of chat [g]. *)
Definition pcsOf (g : string) (ts : list (string * pc)) : list pc :=
  omap (fun t => if decide (t.1 = g) then Some t.2 else None) ts.

(** The action a drain is busy deleting, with the number of the attempt, and
    the rest of its batch. *)
Definition current (p : option pc) : list (context * nat) :=
  match p with
  | Some (AwaitDelete c i _) | Some (AwaitRetrySleep c i _) => [(c, i)]
  | _ => []
  end.

Definition waiting (p : option pc) : list context :=
  match p with
  | Some (AwaitDelete _ _ r) | Some (AwaitRetrySleep _ _ r) | Some (AwaitNoDelete r)
  | Some (AwaitForward _ r) | Some (AwaitRemoval _ _ _ _ r) | Some (AwaitWarning r) => r
  | _ => []
  end.

Definition ofChat (g : string) (c : context) : Prop :=
  chatIdOf c = Some g /\ g <> "".

(** What holds of chat [g] when its drain, if any, is suspended at [p]: the
    enqueue order is the finished actions, then the one being deleted, then
    the rest of the batch, then the queue; the attempts so far are those on
    the finished actions and on the one being deleted. *)
Record drainInv (g : string) (s : state) (p : option pc) : Prop := {
  inv_queue : Forall (ofChat g) (queueOf g s);
  inv_held : Forall (ofChat g) (map fst (current p) ++ waiting p);
  inv_order : exists done,
    Forall (fun d => (1 <= d.2)%nat) (done ++ current p) /\
    enqueuedFor g (trace s) =
      map fst done ++ (map fst (current p) ++ waiting p) ++ queueOf g s /\
    attemptsFor g (trace s) = blocks (done ++ current p)
}.

(** At most one drain per chat, and only while the chat is flagged as being
    processed. *)
Record chatInv (g : string) (s : state) : Prop := {
  inv_single : (length (pcsOf g (tasks s)) <= 1)%nat;
  inv_flag : pcsOf g (tasks s) <> [] -> processingOf g s = true;
  inv_drain : drainInv g s (head (pcsOf g (tasks s)))
}.

Definition queueInv (s : state) : Prop := forall g, chatInv g s.

(** Two states look the same from chat [g]. *)
Record sameView (g : string) (s s' : state) : Prop := {
  view_queue : queueOf g s' = queueOf g s;
  view_flag : processingOf g s' = processingOf g s;
  view_enq : enqueuedFor g (trace s') = enqueuedFor g (trace s);
  view_att : attemptsFor g (trace s') = attemptsFor g (trace s)
}.

(** What an operation on the drain of chat [g] may change. *)
Record touches (g : string) (s s' : state) : Prop := {
  t_others : forall g', g' <> g -> sameView g' s s';
  t_tasks : tasks s' = tasks s;
  t_flag : processingOf g s' = processingOf g s
}.

(** The pending duplicate-suppression timers: message key and due time. *)
Definition forgetTimers (s : state) : list (option string * Z) :=
  omap (fun t => match cb t with
                 | ForgetMessage k => Some (k, due t)
                 | TryStart _ => None
                 end) (timers s).

(** [ctx.key?.id]. *)
Definition messageIdOf (ctx : context) : option string :=
  match key ctx with
  | Some k => id k
  | None => None
  end.

(** [c] carries the same (group, message-id) pair as [c1]. *)
Definition samePair (c1 c : context) : bool :=
  bool_decide (chatIdOf c = chatIdOf c1 /\ messageIdOf c = messageIdOf c1).

(** How many actions with the pair of [c1] were pushed on a queue, and for
    how many of them a deletion was started. *)
Definition enqueuedLike (c1 : context) (tr : list effect) : nat :=
  length (List.filter (fun e => match e with
                                | Enqueued c => samePair c1 c
                                | _ => false
                                end) tr).


(** The message passes every check of [onMessage] before the duplicate
    test: it is a violation. *)
Definition isViolation (env : answers) (ctx : context) : bool :=
  match chatIdOf ctx, message ctx with
  | Some remote, Some _ =>
      negb (String.eqb remote "") && negb (isKnownCommand ctx) &&
      endsWith remote "@g.us" && enabled (setting env) &&
      negb (fromMeOf ctx || admin env) &&
      negb (isWhitelisted (whitelist (setting env))
              (default "" (senderJidOf ctx)) (extractTextFromMessage ctx)) &&
      containsLink env
  | _, _ => false
  end.

(** Every pending suppression timer belongs to a key that is still
    suppressed, and no key has two timers. *)
Record dedupInv (s : state) : Prop := {
  dd_nodup : NoDup (map fst (forgetTimers s));
  dd_live : forall k, k ∈ map fst (forgetTimers s) -> k ∈ processedMessageIds s;
  dd_running : shuttingDown s = false
}.


(** An operation that leaves duplicate suppression, the clock and the
    enqueue log alone. *)
Record quiet (s s' : state) : Prop := {
  q_processed : processedMessageIds s' = processedMessageIds s;
  q_forget : forgetTimers s' = forgetTimers s;
  q_now : now s' = now s;
  q_down : shuttingDown s' = shuttingDown s;
  q_enq : forall c1, enqueuedLike c1 (trace s') = enqueuedLike c1 (trace s)
}.

(** The chats with a pending [tryStartProcessingForChat] timer. *)
Definition startTimers (s : state) : list string :=
  omap (fun t => match cb t with
                 | TryStart g => Some g
                 | ForgetMessage _ => None
                 end) (timers s).

(** Bookkeeping of the drains: the counter counts them, a chat is flagged
    only while it has one, and a queue that is not empty has a drain or a
    timer that will start one. *)
Record liveInv (s : state) : Prop := {
  live_running : shuttingDown s = false;
  live_active : activeChats s = Z.of_nat (length (tasks s));
  live_flag : forall g, processingOf g s = true -> pcsOf g (tasks s) <> [];
  live_pending : forall g, queueOf g s <> [] ->
                   pcsOf g (tasks s) <> [] \/ g ∈ startTimers s
}.

(** An operation inside a drain: it may shorten queues and log, nothing
    else. *)
Record calm (s s' : state) : Prop := {
  c_down : shuttingDown s' = shuttingDown s;
  c_flags : perChatProcessing s' = perChatProcessing s;
  c_active : activeChats s' = activeChats s;
  c_timers : timers s' = timers s;
  c_tasks : tasks s' = tasks s;
  c_queues : forall g, queueOf g s' <> [] -> queueOf g s <> [];
  c_enq : forall g, enqueuedFor g (trace s') = enqueuedFor g (trace s)
}.

(** How far a suspended drain is from its end, the queue left aside. *)
Definition weight (p : pc) : nat :=
  match p with
  | AwaitRetrySleep _ _ r => 10 * length r + 9
  | AwaitDelete _ _ r => 10 * length r + 8
  | AwaitForward _ r => 10 * length r + 7
  | AwaitRemoval _ _ _ _ r => 10 * length r + 6
  | AwaitWarning r | AwaitNoDelete r => 10 * length r + 5
  | AwaitBatchDelay => 4
  | Finishing => 0
  end.

Definition distance (g : string) (p : pc) (s : state) : nat :=
  10 * length (queueOf g s) + weight p.

(** A drain that is about to end has seen its queue empty. *)
Definition settled (g : string) (p : pc) (s : state) : Prop :=
  p = Finishing -> queueOf g s = [].

(** A step that is not the arrival of a message. *)
Definition silent (l : label) : bool :=
  match l with
  | Message _ _ => false
  | _ => true
  end.

(** What a stretch of a schedule achieves: no message arrived, nothing was
    enqueued. *)
Definition reaches (cfg : config) (ls : list label) (s s' : state) : Prop :=
  forallb silent ls = true /\ run cfg ls s = Some s' /\
  forall g, enqueuedFor g (trace s') = enqueuedFor g (trace s).

(** ** Sample messages and runs *)

(** A text message of [sender] in chat [g]. *)
Definition textMessage (g i sender body : string) : context :=
  {| key := Some {| remoteJid := Some g; id := Some i;
                    participant := Some sender; fromMe := false |};
     message := Some {| conversation := Some body; extendedText := None;
                        imageCaption := None; videoCaption := None |};
     text := None; isCommand := false |}.

(** The answers for a group with enforcement on, a sender who is not an
    admin, and a message whose link resolves. *)
Definition enforcing (wl : list string) : answers :=
  {| setting := {| enabled := true; whitelist := wl |};
     admin := false; containsLink := true |}.

Definition shoutedEntry : string := "ABC@s.whatsapp.net".
Definition quietSender : string := "abc@s.whatsapp.net".

(** Three violations in one group, with one drain at a time, batches of
    two and a first deletion that fails once. *)
Definition oneAtATime : config :=
  {| MAX_WARNS := 3; REMOVE_ON_MAX := true; SEND_WARNING := true;
     LOG_DELETED_LINKS := true; BATCH_SIZE := 2; BATCH_DELAY_MS := 800;
     GLOBAL_CONCURRENCY := 1; DELETE_RETRY_COUNT := 2 |}.

Definition A1 : context := textMessage "g@g.us" "m1" "u@s.whatsapp.net" "http://x.org/1".
Definition A2 : context := textMessage "g@g.us" "m2" "u@s.whatsapp.net" "http://x.org/2".
Definition A3 : context := textMessage "g@g.us" "m3" "u@s.whatsapp.net" "http://x.org/3".

Definition threeViolations : list label :=
  [Message (enforcing []) A1; Message (enforcing []) A2; Message (enforcing []) A3;
   Resume 0 false] ++ repeat (Resume 0 true) 12.

Definition afterThreeViolations : state :=
  default (initial 0) (run oneAtATime threeViolations (initial 0)).


(** The three violations have arrived and nothing has resolved yet: the
    first deletion is in flight, two actions wait. *)
Definition threeArrivals : list label :=
  [Message (enforcing []) A1; Message (enforcing []) A2; Message (enforcing []) A3].

Definition midDrain : state :=
  default (initial 0) (run oneAtATime threeArrivals (initial 0)).

(** * More of the antilink module *)

(** ** Vocabulary for the bookkeeping of drains and retries *)


(** A logged deletion attempt, and a drain suspended in [deleteWithRetry],
    within the bounds of its loop [for (let i = 1; i <= attempts; i++)]. *)
Definition attemptOK (cfg : config) (e : effect) : Prop :=
  match e with
  | DeleteAttempt _ i => (1 <= i)%nat /\ Z.of_nat i <= deleteAttempts cfg
  | _ => True
  end.

Definition pcOK (cfg : config) (p : pc) : Prop :=
  match p with
  | AwaitDelete _ i _ => (1 <= i)%nat /\ Z.of_nat i <= deleteAttempts cfg
  | AwaitRetrySleep _ i _ => (1 <= i)%nat /\ Z.of_nat i < deleteAttempts cfg
  | _ => True
  end.

Record retryInv (cfg : config) (s : state) : Prop := {
  retry_trace : Forall (attemptOK cfg) (trace s);
  retry_tasks : Forall (fun t => pcOK cfg t.2) (tasks s)
}.

(** A drain that holds no action: it pauses between batches or is about to
    end. *)
Definition emptyHanded (p : pc) : bool :=
  match p with
  | AwaitBatchDelay | Finishing => true
  | _ => false
  end.

Definition isEnqueued (e : effect) : bool :=
  match e with
  | Enqueued _ => true
  | _ => false
  end.

(** Nothing but enqueueing has happened, and no drain holds an action. *)
Record idleInv (s : state) : Prop := {
  idle_trace : forallb isEnqueued (trace s) = true;
  idle_tasks : forallb (fun t => emptyHanded t.2) (tasks s) = true
}.

(** The default configuration with a negative batch size, and the three
    violations under it after two resumptions of the drain. *)
Definition takeNothing : config :=
  {| MAX_WARNS := 3; REMOVE_ON_MAX := true; SEND_WARNING := true;
     LOG_DELETED_LINKS := true; BATCH_SIZE := -1; BATCH_DELAY_MS := 800;
     GLOBAL_CONCURRENCY := 2; DELETE_RETRY_COUNT := 2 |}.

Definition stalled : state :=
  default (initial 0)
    (run takeNothing (threeArrivals ++ [Resume 0 true; Resume 0 true]) (initial 0)).

(** The actions a suspended drain holds: the one it works on and the rest
    of its batch. *)
Definition heldBy (p : pc) : list context :=
  match p with
  | AwaitDelete c _ r | AwaitRetrySleep c _ r | AwaitForward c r
  | AwaitRemoval c _ _ _ r => c :: r
  | AwaitNoDelete r | AwaitWarning r => r
  | AwaitBatchDelay | Finishing => []
  end.

(** [onMessage] let the message through to the queue under some answers of
    its collaborators. *)
Definition wasViolation (c : context) : Prop :=
  exists env, isViolation env c = true.

(** [sender] is the author of [c] and [chat] the chat of [c], as
    [incrementWarningAndMaybeRemove] reads them. *)
Definition authorOf (c : context) (chat sender : string) : Prop :=
  chatIdOf c = Some chat /\ (senderJidOf c ||| Some "") = Some sender.

(** An effect that concerns a violation only. *)
Definition vetted (e : effect) : Prop :=
  match e with
  | Enqueued c | DeleteAttempt c _ | Forwarded c | Warned c _ => wasViolation c
  | RemoveRequested chat sender =>
      exists c, wasViolation c /\ authorOf c chat sender
  end.

Definition pcVetted (p : pc) : Prop :=
  Forall wasViolation (heldBy p) /\
  match p with
  | AwaitRemoval c chat sender _ _ => authorOf c chat sender
  | _ => True
  end.

Record provInv (s : state) : Prop := {
  prov_trace : Forall vetted (trace s);
  prov_queue : forall g c, c ∈ queueOf g s -> wasViolation c;
  prov_tasks : Forall (fun t => pcVetted t.2) (tasks s)
}.

(** ** Shutdown *)

(** [cleanup()].  The timers it clears are those stored in
    [processedMessageIds]: the pending [ForgetMessage] timer of each key in
    the map (a reachable state has one per key, see [dedupInv]).  The
    [tryStartProcessingForChat] timers and the drains in flight are not
    touched. *)
Definition cleanup (s : state) : state :=
  {| perChatQueue := ∅; perChatProcessing := ∅; activeChats := 0;
     shuttingDown := true; processedMessageIds := ∅; perUserWarnings := ∅;
     timers :=
       List.filter
         (fun t => match cb t with
                   | ForgetMessage k => negb (bool_decide (k ∈ processedMessageIds s))
                   | TryStart _ => true
                   end) (timers s);
     tasks := tasks s; now := now s; trace := trace s |}.

(** The actions held by the drains in flight. *)
Definition heldAll (ts : list (string * pc)) : list context :=
  flat_map (fun t => heldBy t.2) ts.

(** What may still be logged after a shutdown that found the actions [held]
    in the hands of the drains. *)
Definition aftermath (held : list context) (e : effect) : Prop :=
  match e with
  | Enqueued _ => False
  | DeleteAttempt c _ | Forwarded c | Warned c _ => c ∈ held
  | RemoveRequested _ _ => True
  end.

(** The state [s'] some time after a shutdown that found [n0] drains in
    flight, holding [held], and the log [tr0]. *)
Record wound (held : list context) (n0 : nat) (tr0 : list effect) (s' : state)
  : Prop := {
  w_down : shuttingDown s' = true;
  w_queue : perChatQueue s' = ∅;
  w_processed : processedMessageIds s' = ∅;
  w_active : activeChats s' = Z.of_nat (length (tasks s')) - Z.of_nat n0;
  w_count : (length (tasks s') <= n0)%nat;
  w_tasks : Forall (fun t => heldBy t.2 ⊆ held) (tasks s');
  w_trace : exists more, trace s' = tr0 ++ more /\ Forall (aftermath held) more
}.

(** The shutdown of [midDrain], and the state once the drain that was in
    flight has finished its batch. *)
Definition afterCleanup : state :=
  default (initial 0)
    (run oneAtATime (repeat (Resume 0 true) 4) (cleanup midDrain)).

(** The trace of a state and what a drain operation adds to it. *)
Definition adds (s s' : state) (e : list effect) : Prop :=
  shuttingDown s' = shuttingDown s /\ perChatQueue s' = perChatQueue s /\
  processedMessageIds s' = processedMessageIds s /\
  activeChats s' = activeChats s /\ tasks s' = tasks s /\
  timers s' = timers s /\ trace s' = trace s ++ e.

(** The first violation five seconds later, and then with its suppression
    timer fired. *)
Definition fiveSecondsLater : state :=
  default (initial 0)
    (run defaultConfig [Message (enforcing []) A1; Tick 5000] (initial 0)).

Definition forgotten : state :=
  default (initial 0) (step defaultConfig (Fire 0) fiveSecondsLater).

(** ** Vocabulary for commands, keys and the ledger *)

Definition isNotWhiteSpace (c : ascii) : bool := negb (isWhiteSpace c).

Definition isNotColon (c : ascii) : bool := negb (Ascii.eqb c ":").

(** A command message with the given text. *)
Definition commandMessage (g i sender body : string) : context :=
  {| key := Some {| remoteJid := Some g; id := Some i;
                    participant := Some sender; fromMe := false |};
     message := Some {| conversation := Some body; extendedText := None;
                        imageCaption := None; videoCaption := None |};
     text := None; isCommand := true |}.

(** No counter has reached the limit. *)
Definition ledgerOK (cfg : config) (w : gmap string Z) : Prop :=
  forall k v, w !! k = Some v -> 1 <= v < MAX_WARNS cfg.

(** The ledger after the violations [ctxs], each removal succeeding. *)
Definition warnAll (cfg : config) (ctxs : list context) (w : gmap string Z)
  : gmap string Z :=
  foldl (fun w c => (incrementWarningAndMaybeRemove cfg true c w).1) w ctxs.

(** [Math.max(0, config.MAX_WARNS - count)] of [sendWarning]. *)
Definition remainingWarnings (cfg : config) (n : Z) : Z :=
  Z.max 0 (MAX_WARNS cfg - n).

(** ** Settings in the database *)

(** [Array.from(new Set(xs))]: the first occurrence of each element, in
    order; [seen] holds what the set holds already. *)
Fixpoint uniqueFirst (seen : list string) (xs : list string) : list string :=
  match xs with
  | [] => []
  | x :: rest =>
      if bool_decide (x ∈ seen) then uniqueFirst seen rest
      else x :: uniqueFirst (x :: seen) rest
  end.

(** [Array.from(new Set((whitelist || []).map(String).filter(Boolean)))]
    on an array of strings. *)
Definition uniqueWl (wl : list string) : list string :=
  uniqueFirst [] (List.filter (fun item => negb (String.eqb item "")) wl).

(** A row of [antilink_settings] without its key: [enabled INTEGER DEFAULT 0]
    and [whitelist TEXT DEFAULT '[]']; the table is a map from [chat_jid] to
    such rows. *)
Record settingsRow : Type := {
  row_enabled : Z;
  row_whitelist : option string
}.


(** [INSERT INTO antilink_settings (chat_jid, enabled) VALUES (?, ?)
     ON CONFLICT(chat_jid) DO UPDATE SET enabled = excluded.enabled]. *)
Definition upsertEnabled (chatJid : string) (e : Z) (t : gmap string settingsRow)
  : gmap string settingsRow :=
  match t !! chatJid with
  | Some row => <[chatJid := {| row_enabled := e; row_whitelist := row_whitelist row |}]> t
  | None => <[chatJid := {| row_enabled := e; row_whitelist := Some "[]" |}]> t
  end.

(** [INSERT INTO antilink_settings (chat_jid, whitelist) VALUES (?, ?)
     ON CONFLICT(chat_jid) DO UPDATE SET whitelist = excluded.whitelist]. *)
Definition upsertWhitelist (chatJid : string) (json : string) (t : gmap string settingsRow)
  : gmap string settingsRow :=
  match t !! chatJid with
  | Some row => <[chatJid := {| row_enabled := row_enabled row; row_whitelist := Some json |}]> t
  | None => <[chatJid := {| row_enabled := 0; row_whitelist := Some json |}]> t
  end.

(** [setGroupEnabled(chatJid, isEnabled)] and
    [setGroupWhitelist(chatJid, whitelist)]; [dbOk] tells whether [db.run]
    resolves, [stringify] stands for [JSON.stringify] on arrays of
    strings. *)
Definition setGroupEnabled (dbOk : bool) (chatJid : string) (isEnabled : bool)
    (t : gmap string settingsRow) : gmap string settingsRow * bool :=
  if dbOk then (upsertEnabled chatJid (if isEnabled then 1 else 0) t, true)
  else (t, false).

Definition setGroupWhitelist (stringify : list string -> string) (dbOk : bool)
    (chatJid : string) (wl : list string) (t : gmap string settingsRow)
  : gmap string settingsRow * bool :=
  if dbOk then (upsertWhitelist chatJid (stringify (uniqueWl wl)) t, true)
  else (t, false).

(** What [db.get] does: it rejects, or it resolves to the row of the chat,
    if there is one. *)
Inductive dbGet : Type :=
| DbThrows
| DbRow (row : option settingsRow).

Definition selectRow (dbOk : bool) (chatJid : string) (t : gmap string settingsRow) : dbGet :=
  if dbOk then DbRow (t !! chatJid) else DbThrows.

Definition settingOff : groupSetting := {| enabled := false; whitelist := [] |}.

(** [getGroupSetting(chatJid)] on the answer of [db.get].  [parse] stands
    for [JSON.parse] on the whitelist column, [None] for its [SyntaxError];
    the column holds an array of strings when it parses. *)
Definition getGroupSetting (parse : string -> option (list string)) (r : dbGet)
  : groupSetting :=
  match r with
  | DbThrows => settingOff
  | DbRow None => {| enabled := false; whitelist := [] |}
  | DbRow (Some row) =>
      match parse (default "[]" (row_whitelist row ||| Some "[]")) with
      | Some wl => {| enabled := negb (row_enabled row =? 0); whitelist := wl |}
      | None => settingOff
      end
  end.

(** A stand-in for [JSON.stringify] and [JSON.parse] that knows two
    arrays. *)
Definition toyStringify (l : list string) : string :=
  match l with
  | [] => "[]"
  | _ => "[x.org]"
  end.

Definition toyParse (s : string) : option (list string) :=
  if String.eqb s "[]" then Some []
  else if String.eqb s "[x.org]" then Some ["x.org"]
  else None.

(** The column of the row parses. *)
Definition readable (parse : string -> option (list string)) (row : settingsRow)
  : Prop :=
  parse (default "[]" (row_whitelist row ||| Some "[]")) <> None.

(** ** The command branch of [onMessage] *)

(** The character classes of the regular expressions: [\w], the line
    terminators that [.] does not match, [[:\s]] and [[, ]]. *)
Definition isWordChar (c : ascii) : bool :=
  let n := code c in
  ((48 <=? n) && (n <=? 57) || (65 <=? n) && (n <=? 90) ||
   (97 <=? n) && (n <=? 122) || (n =? 95))%N.

Definition isLineTerminator (c : ascii) : bool :=
  ((code c =? 10) || (code c =? 13))%N.

Definition isGpSep (c : ascii) : bool := Ascii.eqb c ":" || isWhiteSpace c.

Definition isModeSep (c : ascii) : bool := Ascii.eqb c "," || Ascii.eqb c " ".

Fixpoint takeWhile (P : ascii -> bool) (s : string) : string :=
  match s with
  | EmptyString => EmptyString
  | String c r => if P c then String c (takeWhile P r) else EmptyString
  end.

Fixpoint dropWhile (P : ascii -> bool) (s : string) : string :=
  match s with
  | EmptyString => EmptyString
  | String c r => if P c then dropWhile P r else s
  end.

Fixpoint lastChar (s : string) : option ascii :=
  match s with
  | EmptyString => None
  | String c EmptyString => Some c
  | String _ r => lastChar r
  end.

(** [senderJid.split('@')[0]]. *)
Definition userPart (jid : string) : string :=
  takeWhile (fun c => negb (Ascii.eqb c "@")) jid.

(** [s] starts with [p], letter case aside; [p] is in lower case.  What
    follows the prefix is returned. *)
Fixpoint stripPrefixCI (p s : string) : option string :=
  match p, s with
  | EmptyString, _ => Some s
  | String a p', String b s' =>
      if Ascii.eqb a (toLowerChar b) then stripPrefixCI p' s' else None
  | String _ _, EmptyString => None
  end.

(** [cmdText.replace(new RegExp(`^/?${cmd}\\b`, 'i'), '')] for a command
    word [cmd] of lower-case letters: an optional slash, the word in any
    letter case, and then the end of the text or a character that is not a
    word character. *)
Definition stripCommand (cmd s : string) : string :=
  let s1 := match s with
            | String c r => if Ascii.eqb c "/" then r else s
            | EmptyString => s
            end in
  match stripPrefixCI cmd s1 with
  | Some r =>
      match r with
      | EmptyString => r
      | String c _ => if isWordChar c then s else r
      end
  | None => s
  end.

(** The regular expression [/\bgp[:\s]+(.+)$/i] tried at the start of [s],
    the word boundary before it taken for granted: [gp], then the longest
    run of colons and white space that leaves something for [(.+)], which
    must reach the end of the text without a line terminator.  The result
    is the capture. *)
Definition matchGp (s : string) : option string :=
  match s with
  | String g (String p r) =>
      if Ascii.eqb (toLowerChar g) "g" && Ascii.eqb (toLowerChar p) "p" then
        let run := takeWhile isGpSep r in
        let tail := dropWhile isGpSep r in
        match run, tail with
        | EmptyString, _ => None
        | String _ _, String _ _ =>
            if allChars (fun c => negb (isLineTerminator c)) tail
            then Some tail else None
        | String _ EmptyString, EmptyString => None
        | String _ (String _ _), EmptyString =>
            match lastChar run with
            | Some c => if isLineTerminator c then None else Some (String c EmptyString)
            | None => None
            end
        end
      else None
  | _ => None
  end.

(** The leftmost match of the expression in [s]: its index and its
    capture.  [prevWord] tells whether the character before [s] is a word
    character, [idx] is the index of [s] in the whole text. *)
Fixpoint scanGp (prevWord : bool) (idx : nat) (s : string) : option (nat * string) :=
  match (if prevWord then None else matchGp s) with
  | Some cap => Some (idx, cap)
  | None =>
      match s with
      | EmptyString => None
      | String c r => scanGp (isWordChar c) (S idx) r
      end
  end.

Record restParts : Type := { rp_left : string; rp_gp : option string }.

Definition splitRestForGp (rest : string) : restParts :=
  if String.eqb rest "" then {| rp_left := ""; rp_gp := None |}
  else
    match scanGp false 0 rest with
    | Some (i, cap) => {| rp_left := trim (sliceTo i rest); rp_gp := Some (trim cap) |}
    | None => {| rp_left := trim rest; rp_gp := None |}
    end.

(** [left.split(/[, ]+/)[0]?.toLowerCase()]. *)
Definition modeOf (left : string) : string :=
  toLowerCase (takeWhile (fun c => negb (isModeSep c)) left).

(** The collaborators of the command branch, as they answer while one
    command is handled. *)
Record groupsUtil : Type := {
  getUniqueJids : list string;
  resolveName : string -> option string;
  normalizeToUserJid : string -> string
}.

Record world : Type := {
  w_isadmin : bool;
  w_botJid : option string;
  w_isSudo : bool;
  w_findings : list (option string);
  w_listSudo : option (list string);
  w_normalizeToJid : string -> string;
  w_groups : groupsUtil;
  w_getDefault : string -> option (list string);
  w_getConnection : string -> list string;
  w_runOk : string -> bool;
  w_getOk : string -> bool;
  w_parse : string -> option (list string)
}.

(** [resolveTargetsForSudo(gp)]. *)
Definition resolveTargetsForSudo (u : groupsUtil) (gp : option string) : list string :=
  match gp with
  | Some g =>
      if String.eqb g "" then []
      else if String.eqb (toLowerCase g) "all" then getUniqueJids u
      else if truthy (resolveName u g) then [default "" (resolveName u g)]
      else if includes g "@" then [normalizeToUserJid u g]
      else []
  | None => []
  end.

(** [resolveTargetsForGroupAdmin(senderKey)].  [getDefault] answers [None]
    when it rejects or resolves to something falsy, and a single name as a
    list of one; [getConnection] answers the empty list when it rejects or
    resolves to something falsy, and a single JID as a list of one. *)
Definition resolveTargetsForGroupAdmin (getDefault : string -> option (list string))
    (getConnection : string -> list string) (senderKey : string) : list string :=
  match getDefault senderKey with
  | None => []
  | Some defNames => uniqueFirst [] (flat_map getConnection defNames)
  end.

(** [findStoredMatchFromFindings(findings)]: a finding is its [jid], if it
    has one; [listSudo] answers [None] when it rejects or resolves to
    nothing. *)
Definition findStoredMatchFromFindings (listSudo : option (list string))
    (normalizeToJid : string -> string) (findings : list (option string))
  : option string :=
  match listSudo with
  | None => None
  | Some stored =>
      if nonEmpty stored then
        head (omap (fun f =>
                      match f with
                      | Some jid =>
                          if negb (String.eqb jid "") &&
                             bool_decide (normalizeToJid jid ∈ stored)
                          then Some (normalizeToJid jid) else None
                      | None => None
                      end) findings)
      else None
  end.

(** The messages the command branch sends, by their template and its
    parameters. *)
Inductive reply : Type :=
| NeedsSubcommand
| InvalidSubcommand (mode : string)
| PmUsage
| NoTargetsFor (gp : string)
| NoDefaultConnection
| Toggled (enable : bool) (successCount total : nat)
| StatusReport (lines : list (string * bool)).

Record sent : Type := { dest : string; body : reply }.

Record authorization : Type := {
  isAuthorized : bool;
  isSudoPM : bool;
  finalDest : string
}.

Definition authorize (w : world) (ctx : context) (remote : string) : authorization :=
  if endsWith remote "@g.us" then
    {| isAuthorized := w_isadmin w; isSudoPM := false; finalDest := remote |}
  else if fromMeOf ctx then
    {| isAuthorized := true; isSudoPM := true;
       finalDest := default remote (w_botJid w ||| Some remote) |}
  else if w_isSudo w then
    {| isAuthorized := true; isSudoPM := true;
       finalDest :=
         default remote
           (findStoredMatchFromFindings (w_listSudo w) (w_normalizeToJid w)
              (w_findings w) ||| Some remote) |}
  else {| isAuthorized := false; isSudoPM := false; finalDest := remote |}.

(** The targets of a command, or the message that says why there are
    none. *)
Definition targetsFor (w : world) (auth : authorization) (gp : option string)
    (senderKey : string) : list string + reply :=
  if isSudoPM auth then
    if truthy gp then
      let targets := resolveTargetsForSudo (w_groups w) gp in
      if nonEmpty targets then inl targets
      else inr (NoTargetsFor (default "" gp))
    else inr PmUsage
  else
    let targets :=
      resolveTargetsForGroupAdmin (w_getDefault w) (w_getConnection w) senderKey in
    if nonEmpty targets then inl targets else inr NoDefaultConnection.

(** The loop over the targets of [on] and [off]: the table afterwards and
    [successCount]. *)
Fixpoint setAll (w : world) (enable : bool) (targets : list string)
    (t : gmap string settingsRow) : gmap string settingsRow * nat :=
  match targets with
  | [] => (t, 0%nat)
  | chatJid :: rest =>
      let '(t1, ok) := setGroupEnabled (w_runOk w chatJid) chatJid enable t in
      let '(t2, n) := setAll w enable rest t1 in
      (t2, ((if ok then 1 else 0) + n)%nat)
  end.

Definition statusLines (w : world) (targets : list string)
    (t : gmap string settingsRow) : list (string * bool) :=
  map (fun chatJid =>
         (chatJid,
          enabled (getGroupSetting (w_parse w) (selectRow (w_getOk w chatJid) chatJid t))))
      targets.

Definition modes : list string := ["on"; "off"; "status"].

(** The [antilink] command of an authorized sender. *)
Definition antilinkCommand (w : world) (auth : authorization)
    (cmdText senderKey : string) (t : gmap string settingsRow)
  : gmap string settingsRow * list sent :=
  let rest := trim (stripCommand "antilink" cmdText) in
  let parts := splitRestForGp rest in
  let mode := modeOf (rp_left parts) in
  let say r := [{| dest := finalDest auth; body := r |}] in
  if String.eqb mode "" then (t, say NeedsSubcommand)
  else if negb (bool_decide (mode ∈ modes)) then (t, say (InvalidSubcommand mode))
  else
    match targetsFor w auth (rp_gp parts) senderKey with
    | inr r => (t, say r)
    | inl targets =>
        if String.eqb mode "on" || String.eqb mode "off" then
          let enable := String.eqb mode "on" in
          let '(t1, n) := setAll w enable targets t in
          (t1, say (Toggled enable n (length targets)))
        else (t, say (StatusReport (statusLines w targets t)))
    end.

(** [onMessage] as far as commands go: the settings table afterwards and
    the messages sent.  [down] is [shuttingDown]; a message that is not a
    known command takes the enforcement branch, which sends nothing from
    here and leaves the settings alone. *)
Definition commandBranch (w : world) (down : bool) (ctx : context)
    (t : gmap string settingsRow) : gmap string settingsRow * list sent :=
  match chatIdOf ctx, message ctx with
  | Some remote, Some _ =>
      if String.eqb remote "" || down then (t, [])
      else if negb (isKnownCommand ctx) then (t, [])
      else
        let auth := authorize w ctx remote in
        let cmdText := trim (default "" (text ctx ||| Some (extractTextFromMessage ctx))) in
        let senderKey := userPart (default "" (senderJidOf ctx)) in
        if negb (isAuthorized auth) then (t, [])
        else if String.eqb (default "" (commandOf ctx)) "antilink"
        then antilinkCommand w auth cmdText senderKey t
        else (t, [])
  | _, _ => (t, [])
  end.

(** Whether a chat reads as enabled, the database answering. *)
Definition readsEnabled (parse : string -> option (list string))
    (chatJid : string) (t : gmap string settingsRow) : bool :=
  enabled (getGroupSetting parse (selectRow true chatJid t)).
Definition isNotLineTerminator (c : ascii) : bool := negb (isLineTerminator c).

(** A private chat with the bot's own account, two groups known by name,
    and a database that accepts every write. *)
Definition twoGroups : groupsUtil :=
  {| getUniqueJids := ["a@g.us"; "b@g.us"];
     resolveName := fun name => if String.eqb name "Family" then Some "a@g.us" else None;
     normalizeToUserJid := fun jid => jid |}.

Definition calmWorld : world :=
  {| w_isadmin := false; w_botJid := Some "bot@s.whatsapp.net"; w_isSudo := false;
     w_findings := []; w_listSudo := None; w_normalizeToJid := fun jid => jid;
     w_groups := twoGroups;
     w_getDefault := fun _ => None; w_getConnection := fun _ => [];
     w_runOk := fun _ => true; w_getOk := fun _ => true; w_parse := toyParse |}.

Definition ownCommand (body : string) : context :=
  {| key := Some {| remoteJid := Some "bot@s.whatsapp.net"; id := Some "c1";
                    participant := None; fromMe := true |};
     message := Some {| conversation := Some body; extendedText := None;
                        imageCaption := None; videoCaption := None |};
     text := None; isCommand := true |}.

End Antilink.

(* ===================================================================== *)
(** * Facts about utils/isadmin.js                                         *)
(* ===================================================================== *)

Module IsAdminFacts.
Import Js IsAdmin.

Section StringFacts.

Ltac each_char c := destruct c as [[] [] [] [] [] [] [] []]; reflexivity.

Lemma toLowerChar_idem c : toLowerChar (toLowerChar c) = toLowerChar c.
Proof. each_char c. Qed.
Lemma isWhiteSpace_lower c : isWhiteSpace (toLowerChar c) = isWhiteSpace c.
Proof. each_char c. Qed.
Lemma isResourceSep_lower c : isResourceSep (toLowerChar c) = isResourceSep c.
Proof. each_char c. Qed.
Lemma eqb_at_lower c : Ascii.eqb (toLowerChar c) "@" = Ascii.eqb c "@".
Proof. each_char c. Qed.

Lemma append_cons c a b : String c a +:+ b = String c (a +:+ b).
Proof. reflexivity. Qed.
Lemma append_empty b : "" +:+ b = b.
Proof. reflexivity. Qed.

Lemma toLowerCase_idem s : toLowerCase (toLowerCase s) = toLowerCase s.
Proof. induction s as [|c r IH]; simpl; [done|]. by rewrite toLowerChar_idem, IH. Qed.

Lemma toLowerCase_trimStart s : toLowerCase (trimStart s) = trimStart (toLowerCase s).
Proof.
  induction s as [|c r IH]; simpl; [done|].
  rewrite isWhiteSpace_lower. by destruct (isWhiteSpace c).
Qed.

Lemma toLowerCase_trimEnd s : toLowerCase (trimEnd s) = trimEnd (toLowerCase s).
Proof.
  induction s as [|c r IH]; simpl; [done|].
  rewrite <- IH, isWhiteSpace_lower.
  destruct (trimEnd r); simpl; [by destruct (isWhiteSpace c)|done].
Qed.

Lemma toLowerCase_trim s : toLowerCase (trim s) = trim (toLowerCase s).
Proof. unfold trim. by rewrite toLowerCase_trimEnd, toLowerCase_trimStart. Qed.

Lemma toLowerCase_splitHead s : toLowerCase (splitHead s) = splitHead (toLowerCase s).
Proof.
  induction s as [|c r IH]; simpl; [done|].
  rewrite isResourceSep_lower. destruct (isResourceSep c); simpl; by rewrite ?IH.
Qed.

Lemma toLowerCase_sliceTo n s : toLowerCase (sliceTo n s) = sliceTo n (toLowerCase s).
Proof. revert s; induction n as [|n IH]; intros [|c r]; simpl; by rewrite ?IH. Qed.

Lemma toLowerCase_sliceFrom n s : toLowerCase (sliceFrom n s) = sliceFrom n (toLowerCase s).
Proof. revert s; induction n as [|n IH]; intros [|c r]; simpl; by rewrite ?IH. Qed.

Lemma toLowerCase_append a b : toLowerCase (a +:+ b) = toLowerCase a +:+ toLowerCase b.
Proof. induction a as [|c r IH]; [done|]. rewrite ?append_cons. simpl. by rewrite IH. Qed.

Lemma indexOf_at_lower s : indexOf "@" (toLowerCase s) = indexOf "@" s.
Proof.
  induction s as [|c r IH]; simpl; [done|].
  rewrite eqb_at_lower, IH. done.
Qed.

(** trimming *)
Lemma trimStart_fixed s : startsNonWs s = true -> trimStart s = s.
Proof. destruct s as [|c r]; simpl; [done|]. by destruct (isWhiteSpace c). Qed.

Lemma trimEnd_fixed s : endsNonWs s = true -> trimEnd s = s.
Proof.
  induction s as [|c r IH]; [done|]. simpl.
  destruct r as [|d r'].
  - simpl. by destruct (isWhiteSpace c).
  - intros H. rewrite (IH H). done.
Qed.

Lemma startsNonWs_trimStart s : startsNonWs (trimStart s) = true.
Proof.
  induction s as [|c r IH]; simpl; [done|].
  destruct (isWhiteSpace c) eqn:E; [done|]. simpl. by rewrite E.
Qed.

Lemma endsNonWs_trimEnd s : endsNonWs (trimEnd s) = true.
Proof.
  induction s as [|c r IH]; simpl; [done|].
  destruct (trimEnd r) as [|d t] eqn:E.
  - destruct (isWhiteSpace c) eqn:W; simpl; [done|by rewrite W].
  - exact IH.
Qed.

Lemma startsNonWs_trimEnd s : startsNonWs s = true -> startsNonWs (trimEnd s) = true.
Proof.
  destruct s as [|c r]; simpl; [done|]. intros H.
  destruct (trimEnd r); [|exact H]. destruct (isWhiteSpace c) eqn:E; [discriminate H|]. simpl. by rewrite E.
Qed.

Lemma startsNonWs_lower s : startsNonWs (toLowerCase s) = startsNonWs s.
Proof. destruct s; simpl; [done|]. by rewrite isWhiteSpace_lower. Qed.

Lemma endsNonWs_lower s : endsNonWs (toLowerCase s) = endsNonWs s.
Proof.
  induction s as [|c r IH]; [done|].
  destruct r as [|d r']; simpl in *; [by rewrite isWhiteSpace_lower|done].
Qed.

(** prefixes keep character-wise properties *)
Lemma allChars_trimEnd P s : allChars P s = true -> allChars P (trimEnd s) = true.
Proof.
  induction s as [|c r IH]; simpl; [done|].
  intros [Hc Hr]%andb_prop. specialize (IH Hr).
  destruct (trimEnd r); simpl in *.
  - destruct (isWhiteSpace c); simpl; [done|]. by rewrite Hc.
  - by rewrite Hc, IH.
Qed.

Lemma allChars_splitHead P s : allChars P s = true -> allChars P (splitHead s) = true.
Proof.
  induction s as [|c r IH]; simpl; [done|].
  intros [Hc Hr]%andb_prop.
  destruct (isResourceSep c); simpl; [done|]. by rewrite Hc, IH.
Qed.

Lemma noSep_splitHead s : allChars (fun c => negb (isResourceSep c)) (splitHead s) = true.
Proof.
  induction s as [|c r IH]; simpl; [done|].
  destruct (isResourceSep c) eqn:E; simpl; [done|]. by rewrite E, IH.
Qed.

Lemma splitHead_fixed s :
  allChars (fun c => negb (isResourceSep c)) s = true -> splitHead s = s.
Proof.
  induction s as [|c r IH]; simpl; [done|].
  intros [Hc Hr]%andb_prop. apply negb_true_iff in Hc. rewrite Hc. by rewrite IH.
Qed.

Lemma indexOf_None c s :
  indexOf c s = None <-> allChars (fun d => negb (Ascii.eqb d c)) s = true.
Proof.
  induction s as [|d r IH]; simpl; [done|].
  destruct (Ascii.eqb d c); simpl; [split; done|].
  rewrite <- IH. destruct (indexOf c r); simpl; split; done.
Qed.

Lemma indexOf_sliceTo c s n :
  indexOf c s = Some n ->
  allChars (fun d => negb (Ascii.eqb d c)) (sliceTo n s) = true.
Proof.
  revert n; induction s as [|d r IH]; intros n; simpl; [done|].
  destruct (Ascii.eqb d c) eqn:E.
  - intros [= <-]. done.
  - destruct (indexOf c r) as [k|]; simpl; [|done].
    intros [= <-]. simpl. rewrite E. simpl. by apply IH.
Qed.

Lemma indexOf_append c a b :
  allChars (fun d => negb (Ascii.eqb d c)) a = true ->
  indexOf c (a +:+ String c b) = Some (String.length a).
Proof.
  induction a as [|d r IH]; simpl.
  - intros _. rewrite ?append_empty. simpl. by rewrite Ascii.eqb_refl.
  - intros [Hd Hr]%andb_prop. rewrite ?append_cons. simpl.
    apply negb_true_iff in Hd. rewrite Hd, (IH Hr). done.
Qed.

Lemma sliceTo_append a b : sliceTo (String.length a) (a +:+ b) = a.
Proof.
  induction a as [|d r IH]; simpl.
  - by destruct b.
  - by rewrite IH.
Qed.

Lemma sliceFrom_append a c b : sliceFrom (S (String.length a)) (a +:+ String c b) = b.
Proof. induction a as [|d r IH]; simpl; done. Qed.

Lemma endsNonWs_sliceFrom n s : endsNonWs s = true -> endsNonWs (sliceFrom n s) = true.
Proof.
  revert s; induction n as [|n IH]; intros [|c r]; simpl; try done.
  intros H. apply IH. destruct r; [done|exact H].
Qed.

Lemma endsNonWs_append a c b :
  negb (isWhiteSpace c) = true -> endsNonWs b = true ->
  endsNonWs (a +:+ String c b) = true.
Proof.
  intros Hc Hb. induction a as [|d r IH].
  - rewrite ?append_empty. simpl. destruct b; [exact Hc|exact Hb].
  - rewrite ?append_cons. simpl.
    destruct (r +:+ String c b) eqn:E; [|exact IH].
    destruct r; discriminate E.
Qed.

Lemma startsNonWs_local n s c b :
  startsNonWs s = true -> negb (isWhiteSpace c) = true ->
  startsNonWs (splitHead (sliceTo n s) +:+ String c b) = true.
Proof.
  intros Hs Hc. destruct n as [|n], s as [|d r]; simpl; try exact Hc.
  destruct (isResourceSep d); [exact Hc|]. rewrite ?append_cons. exact Hs.
Qed.

Lemma allChars_trimStart_ws P s :
  (forall c, isWhiteSpace c = true -> P c = true) ->
  allChars P (trimStart s) = allChars P s.
Proof.
  intros HP. induction s as [|c r IH]; simpl; [done|].
  destruct (isWhiteSpace c) eqn:E; [|done]. by rewrite (HP c E), IH.
Qed.

Lemma allChars_trimEnd_ws P s :
  (forall c, isWhiteSpace c = true -> P c = true) ->
  allChars P (trimEnd s) = allChars P s.
Proof.
  intros HP. induction s as [|c r IH]; simpl; [done|].
  rewrite <- IH. destruct (trimEnd r); simpl; [|done].
  destruct (isWhiteSpace c) eqn:E; simpl; [by rewrite (HP c E)|by rewrite andb_true_r].
Qed.

Lemma indexOf_at_trim s : indexOf "@" (trim s) = None <-> indexOf "@" s = None.
Proof.
  rewrite !indexOf_None. unfold trim.
  rewrite allChars_trimEnd_ws, allChars_trimStart_ws; [done| |];
    intros [[] [] [] [] [] [] [] []]; done.
Qed.

Lemma normalizeJidString_split s :
  normalizeJidString s = splitJid (toLowerCase (trim s)).
Proof. reflexivity. Qed.

Lemma splitJid_lower x : toLowerCase x = x -> toLowerCase (splitJid x) = splitJid x.
Proof.
  intros Hx. unfold splitJid. destruct (indexOf "@" x) as [n|].
  - rewrite !toLowerCase_append, toLowerCase_splitHead, toLowerCase_sliceTo,
      toLowerCase_sliceFrom, Hx. done.
  - by rewrite toLowerCase_splitHead, Hx.
Qed.

Lemma splitJid_startsNonWs x : startsNonWs x = true -> startsNonWs (splitJid x) = true.
Proof.
  intros Hx. unfold splitJid. destruct (indexOf "@" x) as [n|].
  - by apply startsNonWs_local.
  - destruct x as [|c r]; simpl in *; [done|]. by destruct (isResourceSep c).
Qed.

Lemma splitJid_at_endsNonWs x n :
  indexOf "@" x = Some n -> endsNonWs x = true -> endsNonWs (splitJid x) = true.
Proof.
  intros Hn Hx. unfold splitJid. rewrite Hn.
  apply endsNonWs_append; [done|]. by apply endsNonWs_sliceFrom.
Qed.

Lemma splitJid_at_fixed x n : indexOf "@" x = Some n -> splitJid (splitJid x) = splitJid x.
Proof.
  intros Hn. unfold splitJid at 2 3. rewrite Hn.
  set (l := splitHead (sliceTo n x)). set (d := sliceFrom (S n) x).
  assert (Hl : allChars (fun c => negb (Ascii.eqb c "@")) l = true).
  { apply allChars_splitHead. by apply indexOf_sliceTo. }
  unfold splitJid. change (l +:+ "@" +:+ d) with (l +:+ String "@" d).
  rewrite (indexOf_append _ _ _ Hl), sliceTo_append, sliceFrom_append.
  rewrite (splitHead_fixed l); [done|]. apply noSep_splitHead.
Qed.

Lemma splitJid_noat_trimEnd x :
  indexOf "@" x = None -> splitJid (trimEnd (splitJid x)) = trimEnd (splitJid x).
Proof.
  intros Hn. unfold splitJid at 2 3. rewrite Hn.
  assert (Hat : indexOf "@" (trimEnd (splitHead x)) = None).
  { apply indexOf_None, allChars_trimEnd, allChars_splitHead. by apply indexOf_None. }
  unfold splitJid. rewrite Hat. apply splitHead_fixed, allChars_trimEnd, noSep_splitHead.
Qed.

Lemma normalizeJidString_twice s :
  normalizeJidString (normalizeJidString s) = trimEnd (normalizeJidString s).
Proof.
  rewrite (normalizeJidString_split (normalizeJidString s)).
  rewrite normalizeJidString_split.
  set (x := toLowerCase (trim s)).
  assert (Hlow : toLowerCase x = x) by apply toLowerCase_idem.
  assert (Hst : startsNonWs x = true).
  { unfold x, trim. rewrite startsNonWs_lower.
    apply startsNonWs_trimEnd, startsNonWs_trimStart. }
  assert (Hen : endsNonWs x = true).
  { unfold x, trim. rewrite endsNonWs_lower. apply endsNonWs_trimEnd. }
  unfold trim. rewrite (trimStart_fixed (splitJid x)) by by apply splitJid_startsNonWs.
  rewrite toLowerCase_trimEnd, (splitJid_lower x Hlow).
  destruct (indexOf "@" x) as [n|] eqn:Hn.
  - rewrite (trimEnd_fixed (splitJid x)) by by eapply splitJid_at_endsNonWs.
    by eapply splitJid_at_fixed.
  - by apply splitJid_noat_trimEnd.
Qed.

Lemma normalizeJidString_at s :
  indexOf "@" s <> None -> trimEnd (normalizeJidString s) = normalizeJidString s.
Proof.
  intros Hat. rewrite normalizeJidString_split.
  set (x := toLowerCase (trim s)).
  assert (Hen : endsNonWs x = true).
  { unfold x, trim. rewrite endsNonWs_lower. apply endsNonWs_trimEnd. }
  destruct (indexOf "@" x) as [n|] eqn:Hn.
  - apply trimEnd_fixed. by eapply splitJid_at_endsNonWs.
  - exfalso. apply Hat. unfold x in Hn. rewrite indexOf_at_lower in Hn.
    by apply indexOf_at_trim.
Qed.

Lemma trimEnd_idem s : trimEnd (trimEnd s) = trimEnd s.
Proof. apply trimEnd_fixed, endsNonWs_trimEnd. Qed.

Lemma normalizeJidString_empty : normalizeJidString "" = "".
Proof. reflexivity. Qed.

End StringFacts.

Section Normalisation.

Lemma normalizeJid_string s :
  normalizeJid (VString s) = Some (VString (normalizeJidString s)).
Proof.
  unfold normalizeJid. simpl. destruct (String.eqb_spec s "") as [->|_]; done.
Qed.

Lemma normalizeJid_other v :
  isString v = false -> normalizeJid v = Some v.
Proof. intros H. unfold normalizeJid. rewrite H. by rewrite orb_true_r. Qed.

End Normalisation.

(** C9, as the code has it.  [normalizeJid] never throws, whatever value it
    is given.  Applying it twice gives the first result with its trailing
    white space removed; so it is idempotent on every value that is not a
    string and on every string that contains an at sign, and from the second
    application on the result no longer changes. *)
Theorem normalizeJid_total_and_stable (v : value) :
  (exists r, normalizeJid v = Some r) /\
  (normalizeJid v ≫= normalizeJid = onString trimEnd <$> normalizeJid v) /\
  ((forall s, v = VString s -> indexOf "@" s <> None) ->
     normalizeJid v ≫= normalizeJid = normalizeJid v) /\
  ((normalizeJid v ≫= normalizeJid) ≫= normalizeJid =
     normalizeJid v ≫= normalizeJid).
Proof.
  destruct (isString v) eqn:Hs.
  - destruct v as [| | | |s|]; try discriminate Hs.
    rewrite normalizeJid_string. simpl. rewrite !normalizeJid_string. simpl.
    rewrite normalizeJid_string.
    rewrite (normalizeJidString_twice (normalizeJidString s)).
    rewrite !normalizeJidString_twice, trimEnd_idem.
    split; [eauto|]. split; [done|]. split; [|done].
    intros Hat. by rewrite normalizeJidString_at by by apply Hat.
  - rewrite (normalizeJid_other v Hs). simpl. rewrite (normalizeJid_other v Hs).
    simpl. rewrite (normalizeJid_other v Hs).
    split; [eauto|]. split; [by destruct v|]. done.
Qed.

(** C9, counterexample.  White space in front of a resource suffix survives
    the first normalisation and is trimmed by the second. *)
Lemma normalizeJid_not_idempotent :
  normalizeJid (VString "a :b") = Some (VString "a ") /\
  normalizeJid (VString "a ") = Some (VString "a") /\
  normalizeJid (VString "a :b") ≫= normalizeJid <> normalizeJid (VString "a :b").
Proof. split; [reflexivity|]. split; [reflexivity|]. vm_compute. discriminate. Qed.

Section Fetch.

Lemma sameBot_refl b : sameBot b b.
Proof. by split. Qed.

Lemma sameBot_trans b1 b2 b3 : sameBot b1 b2 -> sameBot b2 b3 -> sameBot b1 b3.
Proof.
  intros [] []; split; try congruence.
Qed.

Lemma sameBot_emit e b : sameBot b (emit e b).
Proof. by split. Qed.

Lemma sameBot_tick b : sameBot b (tick b).
Proof. by split. Qed.

Lemma allFail_same chatId b b' : sameBot b b' -> allFail chatId b -> allFail chatId b'.
Proof. intros [_ _ Hm] H m f n Hf. apply (H m f n). by rewrite <- Hm. Qed.

Lemma tryMethod_spec m chatId b :
  (methodOf m b = None /\ tryMethod m chatId b = (Returns None, b)) \/
  (exists f, methodOf m b = Some f /\
     tryMethod m chatId b = (f (calls b) chatId, tick (emit (EvCall m chatId) b))).
Proof. unfold tryMethod. destruct (methodOf m b); eauto. Qed.

(** The chain only makes calls. *)
Lemma firstTruthy_calls ms chatId b :
  sameBot b (firstTruthy ms chatId b).2 /\
  exists cs, log (firstTruthy ms chatId b).2 = log b ++ cs /\
             forallb isCall cs = true.
Proof.
  revert b; induction ms as [|m ms IH]; intros b; simpl.
  - split; [apply sameBot_refl|]. exists []. by rewrite app_nil_r.
  - destruct (tryMethod_spec m chatId b) as [[_ ->]|(f & Hf & ->)]; [apply IH|].
    set (b1 := tick (emit (EvCall m chatId) b)).
    assert (Hs : sameBot b b1).
    { eapply sameBot_trans; [apply sameBot_emit|apply sameBot_tick]. }
    assert (Hl : log b1 = log b ++ [EvCall m chatId]) by done.
    destruct (f (calls b) chatId) as [|[md|]]; simpl.
    + split; [done|]. by exists [EvCall m chatId].
    + split; [done|]. by exists [EvCall m chatId].
    + destruct (IH b1) as [Hs' (cs & Hcs & Hall)].
      split; [by eapply sameBot_trans|].
      exists (EvCall m chatId :: cs). rewrite Hcs, Hl, <- app_assoc. done.
Qed.

(** A truthy value out of the chain is what one of the calls returned. *)
Lemma firstTruthy_returned ms chatId b md :
  (firstTruthy ms chatId b).1 = Returns (Some md) ->
  exists m f n, methodOf m b = Some f /\ f n chatId = Returns (Some md).
Proof.
  revert b; induction ms as [|m ms IH]; intros b; simpl; [done|].
  destruct (tryMethod_spec m chatId b) as [[_ ->]|(f & Hf & ->)]; [apply IH|].
  destruct (f (calls b) chatId) as [|[md'|]] eqn:E; simpl; try done.
  - intros [= ->]. eauto.
  - intros H. destruct (IH _ H) as (m' & f' & n & Hm & Hr).
    exists m', f', n. split; [|done]. by destruct m'.
Qed.

Lemma firstTruthy_allFail ms chatId b :
  allFail chatId b ->
  (firstTruthy ms chatId b).1 = Throws \/ (firstTruthy ms chatId b).1 = Returns None.
Proof.
  intros Hf. destruct (firstTruthy ms chatId b).1 as [|[md|]] eqn:E; eauto.
  destruct (firstTruthy_returned _ _ _ _ E) as (m & f & n & Hm & Hr).
  destruct (Hf m f n Hm); congruence.
Qed.

(** One iteration of the retry loop: it returns the truthy value of the
    chain, or logs the failure, sleeps when this was not the last attempt,
    and goes on. *)
Lemma retryLoop_step r i chatId b :
  (exists md, (firstTruthy candidates chatId b).1 = Returns (Some md) /\
      retryLoop (S r) i chatId b = (Some md, (firstTruthy candidates chatId b).2)) \/
  (exists cs t b1,
      forallb isCall cs = true /\ sameBot b b1 /\
      log b1 = log b ++ cs ++ afterFailure i t /\
      ((firstTruthy candidates chatId b).1 = Throws \/
       (firstTruthy candidates chatId b).1 = Returns None) /\
      retryLoop (S r) i chatId b = retryLoop r (S i) chatId b1).
Proof.
  destruct (firstTruthy_calls candidates chatId b) as [Hs (cs & Hl & Hc)].
  cbn [retryLoop].
  destruct (firstTruthy candidates chatId b) as [o b1] eqn:E. simpl in *.
  destruct o as [|[md|]]; [right|left; eauto|right].
  - exists cs, true. eexists. split; [done|]. split; [|split; [|split; [by left|done]]].
    + destruct (i <? 2)%nat;
        repeat (eapply sameBot_trans; [|apply sameBot_emit]); done.
    + unfold afterFailure. destruct (i <? 2)%nat; simpl; rewrite Hl;
        rewrite <- ?app_assoc; done.
  - exists cs, false. eexists. split; [done|]. split; [|split; [|split; [by right|done]]].
    + destruct (i <? 2)%nat;
        repeat (eapply sameBot_trans; [|apply sameBot_emit]); done.
    + unfold afterFailure. destruct (i <? 2)%nat; simpl; rewrite Hl;
        rewrite <- ?app_assoc; done.
Qed.

Lemma retryLoop_same r i chatId b : sameBot b (retryLoop r i chatId b).2.
Proof.
  revert i b; induction r as [|r IH]; intros i b.
  - apply sameBot_emit.
  - destruct (retryLoop_step r i chatId b) as [(md & _ & ->)|(cs & t & b1 & _ & Hs & _ & _ & ->)].
    + apply firstTruthy_calls.
    + eapply sameBot_trans; [exact Hs|apply IH].
Qed.

Lemma retryLoop_returned r i chatId b md :
  (retryLoop r i chatId b).1 = Some md ->
  exists m f n, methodOf m b = Some f /\ f n chatId = Returns (Some md).
Proof.
  revert i b; induction r as [|r IH]; intros i b; [done|].
  destruct (retryLoop_step r i chatId b) as [(md' & Hr & ->)|(cs & t & b1 & _ & Hs & _ & _ & ->)].
  - simpl. intros [= ->]. by eapply firstTruthy_returned.
  - intros H. destruct (IH _ _ H) as (m & f & n & Hm & Hf).
    exists m, f, n. split; [|done]. by rewrite <- (same_methods _ _ Hs).
Qed.

(** A run of the loop that ends in failure went through all its remaining
    attempts, each of which failed. *)
Lemma retryLoop_three_failures chatId b :
  (retryLoop 3 0 chatId b).1 = None ->
  exists c1 c2 c3 t1 t2 t3,
    forallb isCall (c1 ++ c2 ++ c3) = true /\
    log (retryLoop 3 0 chatId b).2 =
      log b ++ c1 ++ [EvWarn 1 t1; EvSleep 300]
            ++ c2 ++ [EvWarn 2 t2; EvSleep 600]
            ++ c3 ++ [EvWarn 3 t3; EvError].
Proof.
  destruct (retryLoop_step 2 0 chatId b)
    as [(md & _ & ->)|(c1 & t1 & b1 & H1 & _ & L1 & _ & ->)]; [done|].
  destruct (retryLoop_step 1 1 chatId b1)
    as [(md & _ & ->)|(c2 & t2 & b2 & H2 & _ & L2 & _ & ->)]; [done|].
  destruct (retryLoop_step 0 2 chatId b2)
    as [(md & _ & ->)|(c3 & t3 & b3 & H3 & _ & L3 & _ & ->)]; [done|].
  intros _. exists c1, c2, c3, t1, t2, t3. split.
  - rewrite !forallb_app, H1, H2, H3. done.
  - simpl. rewrite L3, L2, L1. unfold afterFailure. simpl.
    rewrite <- !app_assoc. done.
Qed.

Lemma retryLoop_allFail r i chatId b :
  allFail chatId b -> (retryLoop r i chatId b).1 = None.
Proof.
  revert i b; induction r as [|r IH]; intros i b Hf; [done|].
  destruct (retryLoop_step r i chatId b) as [(md & Hr & _)|(cs & t & b1 & _ & Hs & _ & _ & ->)].
  - destruct (firstTruthy_allFail candidates chatId b Hf); congruence.
  - apply IH. by eapply allFail_same.
Qed.

Lemma fetch_fresh chatId b :
  chatId <> "" -> _adminCacheFetches b !! chatId = None ->
  fetchGroupMetadataDeduped chatId b =
    ((retryLoop 3 0 chatId b).1,
     setFetches (delete chatId (_adminCacheFetches (retryLoop 3 0 chatId b).2))
                (retryLoop 3 0 chatId b).2).
Proof.
  intros Hne Hfresh. unfold fetchGroupMetadataDeduped.
  apply String.eqb_neq in Hne. rewrite Hne, Hfresh.
  by destruct (retryLoop 3 0 chatId b).
Qed.

Lemma fetch_cache chatId b :
  _adminCache (fetchGroupMetadataDeduped chatId b).2 = _adminCache b.
Proof.
  unfold fetchGroupMetadataDeduped.
  destruct (String.eqb chatId ""); [done|].
  destruct (_adminCacheFetches b !! chatId); [done|].
  pose proof (retryLoop_same 3 0 chatId b) as Hs.
  destruct (retryLoop 3 0 chatId b) as [r b1]. simpl in *. apply Hs.
Qed.

End Fetch.

(** C3.  When every underlying metadata call fails, by throwing or by
    resolving to a falsy value, the fetch makes exactly three attempts: the
    log shows the calls of the first attempt, its warning and a sleep of 300
    ms, the calls of the second, its warning and a sleep of 600 ms, the calls
    of the third, its warning and the final error, with no sleep after it;
    and the fetch resolves to [null]. *)
Theorem fetch_exhausts chatId b :
  chatId <> "" -> _adminCacheFetches b !! chatId = None -> allFail chatId b ->
  (fetchGroupMetadataDeduped chatId b).1 = None /\
  exists c1 c2 c3 t1 t2 t3,
    forallb isCall (c1 ++ c2 ++ c3) = true /\
    log (fetchGroupMetadataDeduped chatId b).2 =
      log b ++ c1 ++ [EvWarn 1 t1; EvSleep 300]
            ++ c2 ++ [EvWarn 2 t2; EvSleep 600]
            ++ c3 ++ [EvWarn 3 t3; EvError].
Proof.
  intros Hne Hfresh Hfail. rewrite (fetch_fresh _ _ Hne Hfresh). cbn [fst snd setFetches log].
  pose proof (retryLoop_allFail 3 0 chatId b Hfail) as Hnone.
  split; [done|]. by apply retryLoop_three_failures.
Qed.

(** C2, as the code has it.  In every attempt an exception or a falsy result
    is a failure, after which the loop goes on with the next attempt, while
    any metadata object, also one without members, is a success and is
    returned at once.  The fetch settles in one of two ways: with a metadata
    object exactly as one underlying call returned it, or with [null] after
    three failed attempts. *)
Theorem fetch_settles chatId b :
  chatId <> "" -> _adminCacheFetches b !! chatId = None ->
  (forall r i,
     match (firstTruthy candidates chatId b).1 with
     | Returns (Some md) =>
         retryLoop (S r) i chatId b = (Some md, (firstTruthy candidates chatId b).2)
     | _ =>
         exists b1, sameBot b b1 /\
           retryLoop (S r) i chatId b = retryLoop r (S i) chatId b1
     end) /\
  match (fetchGroupMetadataDeduped chatId b).1 with
  | Some md =>
      exists m f n, methodOf m b = Some f /\ f n chatId = Returns (Some md)
  | None =>
      exists c1 c2 c3 t1 t2 t3,
        forallb isCall (c1 ++ c2 ++ c3) = true /\
        log (fetchGroupMetadataDeduped chatId b).2 =
          log b ++ c1 ++ [EvWarn 1 t1; EvSleep 300]
                ++ c2 ++ [EvWarn 2 t2; EvSleep 600]
                ++ c3 ++ [EvWarn 3 t3; EvError]
  end.
Proof.
  intros Hne Hfresh. split.
  - intros r i.
    destruct (retryLoop_step r i chatId b)
      as [(md & Hr & Heq)|(cs & t & b1 & _ & Hs & _ & Hr & Heq)].
    + by rewrite Hr.
    + destruct Hr as [Hr|Hr]; rewrite Hr; eauto.
  - rewrite (fetch_fresh _ _ Hne Hfresh). cbn [fst snd setFetches log].
    destruct (retryLoop 3 0 chatId b).1 as [md|] eqn:E.
    + by eapply retryLoop_returned.
    + by apply retryLoop_three_failures.
Qed.

(** C2, counterexample.  A metadata object with an empty participants array
    is returned by the first attempt: one call, no warning, no retry. *)
Lemma empty_snapshot_is_a_success :
  (fetchGroupMetadataDeduped "g@g.us" emptyGroupBot).1 = Some emptySnapshot /\
  log (fetchGroupMetadataDeduped "g@g.us" emptyGroupBot).2 =
    [EvCall BotGroupMetadata "g@g.us"].
Proof. split; reflexivity. Qed.

Lemma offline_allFail chatId : allFail chatId offlineBot.
Proof. intros [] f n [= <-]; by left. Qed.

Lemma fetch_settles_witness :
  (forall r i,
     match (firstTruthy candidates "g@g.us" emptyGroupBot).1 with
     | Returns (Some md) =>
         retryLoop (S r) i "g@g.us" emptyGroupBot =
           (Some md, (firstTruthy candidates "g@g.us" emptyGroupBot).2)
     | _ =>
         exists b1, sameBot emptyGroupBot b1 /\
           retryLoop (S r) i "g@g.us" emptyGroupBot = retryLoop r (S i) "g@g.us" b1
     end) /\
  match (fetchGroupMetadataDeduped "g@g.us" emptyGroupBot).1 with
  | Some md =>
      exists m f n, methodOf m emptyGroupBot = Some f /\
                    f n "g@g.us" = Returns (Some md)
  | None =>
      exists c1 c2 c3 t1 t2 t3,
        forallb isCall (c1 ++ c2 ++ c3) = true /\
        log (fetchGroupMetadataDeduped "g@g.us" emptyGroupBot).2 =
          log emptyGroupBot ++ c1 ++ [EvWarn 1 t1; EvSleep 300]
                ++ c2 ++ [EvWarn 2 t2; EvSleep 600]
                ++ c3 ++ [EvWarn 3 t3; EvError]
  end.
Proof. apply (fetch_settles "g@g.us" emptyGroupBot); [discriminate|reflexivity]. Defined.

Lemma fetch_exhausts_witness :
  (fetchGroupMetadataDeduped "g@g.us" offlineBot).1 = None /\
  exists c1 c2 c3 t1 t2 t3,
    forallb isCall (c1 ++ c2 ++ c3) = true /\
    log (fetchGroupMetadataDeduped "g@g.us" offlineBot).2 =
      log offlineBot ++ c1 ++ [EvWarn 1 t1; EvSleep 300]
            ++ c2 ++ [EvWarn 2 t2; EvSleep 600]
            ++ c3 ++ [EvWarn 3 t3; EvError].
Proof.
  apply (fetch_exhausts "g@g.us" offlineBot);
    [discriminate|reflexivity|apply offline_allFail].
Defined.

Section Oracle.

Lemma endsWith_nonempty g suffix :
  suffix <> "" -> endsWith g suffix = true -> String.eqb g "" = false.
Proof.
  intros Hs H. destruct g; [|done]. simpl in H.
  destruct suffix; [done|discriminate H].
Qed.

Lemma anyAdminMatches_empty sender : anyAdminMatches ∅ sender = false.
Proof. unfold anyAdminMatches. by rewrite elements_empty. Qed.

Lemma addIfAdmin_noMark acc p : noAdminMark p = true -> addIfAdmin acc p = acc.
Proof.
  destruct p as [| |o]; simpl; try done.
  intros H%negb_true_iff. rewrite H.
  destruct (truthy _); [|done].
  destruct (normalizeJidString <$> _); [|done].
  by destruct (String.eqb _ _).
Qed.

Lemma build_noMarks ps :
  forallb noAdminMark ps = true -> buildAdminSetFromParticipants ps = ∅.
Proof.
  unfold buildAdminSetFromParticipants. generalize (∅ : gset string).
  induction ps as [|p ps IH]; intros acc; simpl; [done|].
  intros [Hp Hps]%andb_prop. rewrite (addIfAdmin_noMark _ _ Hp). by apply IH.
Qed.

(** [isadmin] on a context that passes the guards. *)
Lemma isadmin_guarded ctx k g s b :
  key ctx = Some k -> fromMe k = false ->
  remoteJid k ||| ctx_remoteJid ctx = Some g ->
  endsWith g "@g.us" = true ->
  key_participant k ||| ctx_participant ctx ||| ctx_sender ctx ||| key_from k = Some s ->
  s <> "" ->
  isadmin ctx b =
    match _adminCache b !! g with
    | Some cached => (anyAdminMatches (admins cached) (normalizeJidString s), b)
    | None =>
        match fetchGroupMetadataDeduped g b with
        | (None, b1) => (false, b1)
        | (Some md, b1) =>
            let a := buildAdminSetFromParticipants (default [] (participants md)) in
            (anyAdminMatches a (normalizeJidString s),
             setCache (<[g := {| admins := a |}]> (_adminCache b1)) b1)
        end
    end.
Proof.
  intros Hk Hme Hg Hgrp Hs Hne. unfold isadmin.
  rewrite Hk, Hme, Hg, Hgrp, Hs.
  rewrite (endsWith_nonempty g "@g.us") by done.
  apply String.eqb_neq in Hne. rewrite Hne. done.
Qed.

(** Whatever the context, [isadmin] either leaves the bot alone, or it is
    a guarded call on a cache miss for the context's chat. *)
Lemma isadmin_cases ctx b :
  (isadmin ctx b).2 = b \/
  exists g, chatOf ctx = Some g /\ g <> "" /\ _adminCache b !! g = None /\
    ((isadmin ctx b).2 = (fetchGroupMetadataDeduped g b).2 \/
     exists e, (isadmin ctx b).2 =
       setCache (<[g := e]> (_adminCache (fetchGroupMetadataDeduped g b).2))
                (fetchGroupMetadataDeduped g b).2).
Proof.
  unfold isadmin, chatOf. destruct (key ctx) as [k|]; [|by left].
  destruct (fromMe k); [by left|].
  destruct (remoteJid k ||| ctx_remoteJid ctx) as [g|]; [|by left].
  destruct (String.eqb_spec g ""); [by left|]. simpl.
  destruct (negb (endsWith g "@g.us")); [by left|].
  destruct (_ ||| _ ||| _ ||| _) as [s|]; [|by left].
  destruct (String.eqb s ""); [by left|].
  destruct (_adminCache b !! g) eqn:Hc; [by left|].
  right. exists g. split; [done|]. split; [done|]. split; [done|].
  destruct (fetchGroupMetadataDeduped g b) as [[md|] b1]; simpl; eauto.
Qed.

Lemma callsFor_app g l1 l2 : callsFor g (l1 ++ l2) = callsFor g l1 ++ callsFor g l2.
Proof. apply List.filter_app. Qed.

Lemma firstTruthy_callsFor g ms chatId b :
  chatId <> g ->
  callsFor g (log (firstTruthy ms chatId b).2) = callsFor g (log b).
Proof.
  intros Hne. revert b; induction ms as [|m ms IH]; intros b; simpl; [done|].
  destruct (tryMethod_spec m chatId b) as [[_ ->]|(f & Hf & ->)]; [apply IH|].
  assert (Hl : callsFor g (log (tick (emit (EvCall m chatId) b))) = callsFor g (log b)).
  { simpl. rewrite callsFor_app. simpl.
    apply String.eqb_neq in Hne. rewrite Hne. by rewrite app_nil_r. }
  destruct (f (calls b) chatId) as [|[md|]]; simpl; try done.
  by rewrite IH.
Qed.

Lemma retryLoop_callsFor g r i chatId b :
  chatId <> g ->
  callsFor g (log (retryLoop r i chatId b).2) = callsFor g (log b).
Proof.
  intros Hne. revert i b; induction r as [|r IH]; intros i b.
  - simpl. rewrite callsFor_app. simpl. by rewrite app_nil_r.
  - pose proof (firstTruthy_callsFor g candidates chatId b Hne) as Hc.
    cbn [retryLoop]. destruct (firstTruthy candidates chatId b) as [o b1].
    simpl in Hc.
    assert (Hgo : forall t,
      callsFor g (log (retryLoop r (S i) chatId
         (if (i <? 2)%nat
          then emit (EvSleep (300 * (Z.of_nat i + 1))) (emit (EvWarn (i + 1) t) b1)
          else emit (EvWarn (i + 1) t) b1)).2) = callsFor g (log b)).
    { intros t. rewrite IH. destruct (i <? 2)%nat; simpl;
        rewrite !callsFor_app; simpl; rewrite ?app_nil_r; done. }
    destruct o as [|[md|]]; [apply Hgo|done|apply Hgo].
Qed.

Lemma fetch_callsFor g chatId b :
  chatId <> g ->
  callsFor g (log (fetchGroupMetadataDeduped chatId b).2) = callsFor g (log b).
Proof.
  intros Hne. unfold fetchGroupMetadataDeduped.
  destruct (String.eqb chatId ""); [done|].
  destruct (_adminCacheFetches b !! chatId); [done|].
  pose proof (retryLoop_callsFor g 3 0 chatId b Hne) as Hc.
  by destruct (retryLoop 3 0 chatId b).
Qed.

(** An entry that is in the cache survives every [isadmin] call, and no
    metadata call is made for its chat. *)
Lemma isadmin_keeps g e ctx b :
  _adminCache b !! g = Some e ->
  _adminCache (isadmin ctx b).2 !! g = Some e /\
  callsFor g (log (isadmin ctx b).2) = callsFor g (log b).
Proof.
  intros He.
  destruct (isadmin_cases ctx b) as [->|(g' & _ & _ & Hmiss & [->|[e' ->]])]; [done| |];
    assert (Hne : g' <> g) by congruence.
  - by rewrite fetch_cache, fetch_callsFor.
  - simpl. rewrite lookup_insert_ne by done. by rewrite fetch_cache, fetch_callsFor.
Qed.

(** With an empty admin set cached for its chat, a call that is not the
    bot's own is answered not-admin. *)
Lemma isadmin_cached_empty g ctx b :
  _adminCache b !! g = Some emptyEntry ->
  chatOf ctx = Some g -> selfAction ctx = false ->
  (isadmin ctx b).1 = false.
Proof.
  unfold chatOf, selfAction, isadmin. intros He.
  destruct (key ctx) as [k|]; [|done]. intros -> ->.
  destruct (_ || _); [done|].
  destruct (_ ||| _ ||| _ ||| _) as [s|]; [|done].
  destruct (String.eqb s ""); [done|].
  rewrite He. apply anyAdminMatches_empty.
Qed.

Lemma isadminAll_keeps g ctxs b :
  _adminCache b !! g = Some emptyEntry ->
  _adminCache (isadminAll ctxs b).2 !! g = Some emptyEntry /\
  callsFor g (log (isadminAll ctxs b).2) = callsFor g (log b) /\
  forall i c, ctxs !! i = Some c -> chatOf c = Some g -> selfAction c = false ->
              (isadminAll ctxs b).1 !! i = Some false.
Proof.
  revert b; induction ctxs as [|c cs IH]; intros b He; simpl; [done|].
  destruct (isadmin_keeps g emptyEntry c b He) as [He1 Hc1].
  pose proof (isadmin_cached_empty g c b He) as Hans.
  destruct (isadmin c b) as [r b1]. simpl in *.
  destruct (IH b1 He1) as (He2 & Hc2 & Hall).
  destruct (isadminAll cs b1) as [rs b2]. simpl in *.
  split; [done|]. split; [congruence|].
  intros [|i] c'; simpl.
  - intros [= <-] Hg Hs. by rewrite Hans.
  - apply Hall.
Qed.

(** A structural event drops the entry of its chat. *)
Lemma gpHandler_structural g action ps b :
  endsWith g "@g.us" = true -> action ∈ structuralActions ->
  _adminCache (gpHandler {| upd_id := Some g; upd_participants := ps;
                            upd_action := action |} b) !! g = None.
Proof.
  intros Hgrp Hact. unfold gpHandler. simpl.
  rewrite (endsWith_nonempty g "@g.us") by done.
  destruct (_adminCache b !! g) as [e|] eqn:He; [|done].
  assert (Hrole : String.eqb action "promote" = false /\
                  String.eqb action "demote" = false).
  { unfold structuralActions in Hact.
    repeat (apply elem_of_cons in Hact as [->|Hact]; [by split|]).
    by apply elem_of_nil in Hact. }
  destruct Hrole as [-> ->]. rewrite bool_decide_eq_true_2 by done.
  simpl. apply lookup_delete_eq.
Qed.

End Oracle.

(** C1.  For a group with no cache entry, when the deduplicated fetch
    resolves to [null], [isadmin] answers [false] to every context that is
    not the bot's own message (the only ones for which a fetch is made), and
    the admin cache is left as it was: a later lookup for the group is still
    a miss. *)
Theorem isadmin_fetch_failure (b : bot) (ctx : context) (k : messageKey) (g : string) :
  key ctx = Some k -> fromMe k = false ->
  remoteJid k ||| ctx_remoteJid ctx = Some g ->
  _adminCache b !! g = None ->
  (fetchGroupMetadataDeduped g b).1 = None ->
  (isadmin ctx b).1 = false /\
  _adminCache (isadmin ctx b).2 !! g = None /\
  _adminCache (isadmin ctx b).2 = _adminCache b.
Proof.
  intros Hk Hme Hg Hmiss Hfail.
  assert (Hgoal : (isadmin ctx b).1 = false /\ _adminCache (isadmin ctx b).2 = _adminCache b).
  { unfold isadmin. rewrite Hk, Hme, Hg.
    destruct (_ || _); [done|].
    destruct (_ ||| _ ||| _ ||| _) as [s|]; [|done].
    destruct (String.eqb s ""); [done|].
    rewrite Hmiss. pose proof (fetch_cache g b) as Hc.
    destruct (fetchGroupMetadataDeduped g b) as [[md|] b1]; [done|].
    done. }
  destruct Hgoal as [H1 H2]. by rewrite H2.
Qed.

(** C10.  When the fetch resolves to a metadata object in which no
    participant carries an admin role or flag (the participants array may be
    missing, empty, or hold plain strings only), [isadmin] answers [false]
    and caches an empty admin set for the group.  Through any later sequence
    of [isadmin] calls the entry stays, no metadata call is made for the group
    and every call for it that is not the bot's own message is answered
    [false]; in any state where the entry is in place such a call changes
    nothing; [invalidateAdminCacheForChat] and every structural
    participants event delete the entry. *)
Theorem empty_admin_set_cached (b : bot) (ctx : context) (k : messageKey)
    (g s : string) (md : metadata) :
  key ctx = Some k -> fromMe k = false ->
  remoteJid k ||| ctx_remoteJid ctx = Some g ->
  endsWith g "@g.us" = true ->
  key_participant k ||| ctx_participant ctx ||| ctx_sender ctx ||| key_from k = Some s ->
  s <> "" ->
  _adminCache b !! g = None ->
  (fetchGroupMetadataDeduped g b).1 = Some md ->
  noAdminMarks md = true ->
  (isadmin ctx b).1 = false /\
  _adminCache (isadmin ctx b).2 !! g = Some emptyEntry /\
  (forall ctxs,
      _adminCache (isadminAll ctxs (isadmin ctx b).2).2 !! g = Some emptyEntry /\
      callsFor g (log (isadminAll ctxs (isadmin ctx b).2).2) =
        callsFor g (log (isadmin ctx b).2) /\
      forall i c, ctxs !! i = Some c -> chatOf c = Some g -> selfAction c = false ->
                  (isadminAll ctxs (isadmin ctx b).2).1 !! i = Some false) /\
  (forall b', _adminCache b' !! g = Some emptyEntry ->
      forall c, chatOf c = Some g -> selfAction c = false -> isadmin c b' = (false, b')) /\
  (forall b', _adminCache (invalidateAdminCacheForChat g b') !! g = None) /\
  (forall b' action ps, action ∈ structuralActions ->
      _adminCache (gpHandler {| upd_id := Some g; upd_participants := ps;
                                upd_action := action |} b') !! g = None).
Proof.
  intros Hk Hme Hg Hgrp Hs Hne Hmiss Hfetch Hmarks.
  assert (Hrun : (isadmin ctx b).1 = false /\
                 _adminCache (isadmin ctx b).2 !! g = Some emptyEntry).
  { rewrite (isadmin_guarded ctx k g s b) by done. rewrite Hmiss.
    destruct (fetchGroupMetadataDeduped g b) as [[md'|] b1]; simpl in Hfetch; [|done].
    injection Hfetch as ->. rewrite (build_noMarks _ Hmarks). simpl.
    split; [apply anyAdminMatches_empty|]. by rewrite lookup_insert_eq. }
  destruct Hrun as [Hans Hentry].
  split; [done|]. split; [done|]. split; [|split; [|split]].
  - intros ctxs. by apply isadminAll_keeps.
  - intros b' He c Hc Hself.
    pose proof (isadmin_cached_empty g c b' He Hc Hself) as H1.
    assert (H2 : (isadmin c b').2 = b').
    { destruct (isadmin_cases c b') as [->|(g' & Hg' & _ & Hm & _)]; [done|].
      congruence. }
    destruct (isadmin c b'); simpl in *; congruence.
  - intros b'. unfold invalidateAdminCacheForChat.
    rewrite (endsWith_nonempty g "@g.us") by done. simpl. apply lookup_delete_eq.
  - intros b' action ps Hact. by apply gpHandler_structural.
Qed.

Lemma isadmin_fetch_failure_witness :
  (isadmin demoContext offlineBot).1 = false /\
  _adminCache (isadmin demoContext offlineBot).2 !! "g@g.us" = None /\
  _adminCache (isadmin demoContext offlineBot).2 = _adminCache offlineBot.
Proof.
  apply (isadmin_fetch_failure offlineBot demoContext demoKey "g@g.us");
    reflexivity.
Defined.

Lemma empty_admin_set_cached_witness :
  (isadmin demoContext leaderlessBot).1 = false /\
  _adminCache (isadmin demoContext leaderlessBot).2 !! "g@g.us" = Some emptyEntry /\
  (forall ctxs,
      _adminCache (isadminAll ctxs (isadmin demoContext leaderlessBot).2).2 !! "g@g.us"
        = Some emptyEntry /\
      callsFor "g@g.us" (log (isadminAll ctxs (isadmin demoContext leaderlessBot).2).2) =
        callsFor "g@g.us" (log (isadmin demoContext leaderlessBot).2) /\
      forall i c, ctxs !! i = Some c -> chatOf c = Some "g@g.us" ->
                  selfAction c = false ->
                  (isadminAll ctxs (isadmin demoContext leaderlessBot).2).1 !! i
                    = Some false) /\
  (forall b', _adminCache b' !! "g@g.us" = Some emptyEntry ->
      forall c, chatOf c = Some "g@g.us" -> selfAction c = false ->
                isadmin c b' = (false, b')) /\
  (forall b', _adminCache (invalidateAdminCacheForChat "g@g.us" b') !! "g@g.us" = None) /\
  (forall b' action ps, action ∈ structuralActions ->
      _adminCache (gpHandler {| upd_id := Some "g@g.us"; upd_participants := ps;
                                upd_action := action |} b') !! "g@g.us" = None).
Proof.
  apply (empty_admin_set_cached leaderlessBot demoContext demoKey "g@g.us"
           "u@s.whatsapp.net" membersOnly);
    solve [reflexivity | discriminate].
Defined.

Section RoleChanges.

Lemma foldl_add (ids : list string) (s : gset string) :
  foldl (fun acc pid => {[ pid ]} ∪ acc) s ids = list_to_set ids ∪ s.
Proof.
  revert s; induction ids as [|i ids IH]; intros s; simpl.
  - set_solver.
  - rewrite IH. set_solver.
Qed.

Lemma foldl_remove (ids : list string) (s : gset string) :
  foldl (fun acc pid => acc ∖ {[ pid ]}) s ids = s ∖ list_to_set ids.
Proof.
  revert s; induction ids as [|i ids IH]; intros s; simpl.
  - set_solver.
  - rewrite IH. set_solver.
Qed.

Lemma gpHandler_promote g u e b :
  g <> "" -> _adminCache b !! g = Some e ->
  cachedAdmins g (gpHandler (roleChange g u "promote") b) =
    Some (list_to_set (normalizedIds [u]) ∪ admins e).
Proof.
  intros Hg He. unfold gpHandler, cachedAdmins. simpl.
  apply String.eqb_neq in Hg. rewrite Hg, He. simpl.
  rewrite lookup_insert_eq. simpl. by rewrite foldl_add.
Qed.

Lemma gpHandler_demote g u e b :
  g <> "" -> _adminCache b !! g = Some e ->
  cachedAdmins g (gpHandler (roleChange g u "demote") b) =
    Some (admins e ∖ list_to_set (normalizedIds [u])).
Proof.
  intros Hg He. unfold gpHandler, cachedAdmins. simpl.
  apply String.eqb_neq in Hg. rewrite Hg, He. simpl.
  rewrite lookup_insert_eq. simpl. by rewrite foldl_remove.
Qed.

End RoleChanges.

(** C7, as the code has it.  A promote event for [u] followed by a demote
    event for [u] leaves the admin set of an existing entry equal to the set
    before the promote minus [u]: the entry is restored whenever [u] was not
    in the set before the promote, and [u] is never in the set afterwards. *)
Theorem promote_then_demote (b : bot) (g : string) (e : cacheEntry) (u : participant) :
  g <> "" -> _adminCache b !! g = Some e ->
  let b2 := gpHandler (roleChange g u "demote") (gpHandler (roleChange g u "promote") b) in
  cachedAdmins g b2 = Some (admins e ∖ list_to_set (normalizedIds [u])) /\
  ((forall id, id ∈ normalizedIds [u] -> id ∉ admins e) ->
     _adminCache b2 !! g = Some e) /\
  (forall id, id ∈ normalizedIds [u] -> cachedMember g id b2 = false).
Proof.
  intros Hg He b2.
  assert (H1 : cachedAdmins g (gpHandler (roleChange g u "promote") b) =
               Some (list_to_set (normalizedIds [u]) ∪ admins e))
    by by apply gpHandler_promote.
  unfold cachedAdmins in H1.
  destruct (_adminCache (gpHandler (roleChange g u "promote") b) !! g) as [e1|] eqn:E1;
    [|done].
  injection H1 as H1.
  assert (H2 : cachedAdmins g b2 = Some (admins e ∖ list_to_set (normalizedIds [u]))).
  { unfold b2. rewrite (gpHandler_demote g u e1) by done. f_equal. rewrite H1.
    set_solver. }
  split; [done|]. split.
  - intros Hout. unfold cachedAdmins in H2.
    destruct (_adminCache b2 !! g) as [e2|]; [|done].
    injection H2 as H2. f_equal. destruct e2 as [a2], e as [a]. simpl in *.
    f_equal. rewrite H2. set_solver.
  - intros id Hid. unfold cachedMember. rewrite H2.
    apply bool_decide_eq_false. set_solver.
Qed.

(** C7, counterexample.  A user who was an admin before the promote is no
    admin after the demote. *)
Lemma promote_then_demote_drops_admin :
  let u := PString "u@s.whatsapp.net" in
  let b2 := gpHandler (roleChange "g@g.us" u "demote")
              (gpHandler (roleChange "g@g.us" u "promote") demoBot) in
  cachedMember "g@g.us" "u@s.whatsapp.net" demoBot = true /\
  cachedMember "g@g.us" "u@s.whatsapp.net" b2 = false.
Proof. split; vm_compute; reflexivity. Qed.

Lemma promote_then_demote_witness :
  let b2 := gpHandler (roleChange "g@g.us" (PString "v@s.whatsapp.net") "demote")
              (gpHandler (roleChange "g@g.us" (PString "v@s.whatsapp.net") "promote")
                 demoBot) in
  cachedAdmins "g@g.us" b2 =
    Some (admins demoEntry ∖ list_to_set (normalizedIds [PString "v@s.whatsapp.net"])) /\
  ((forall id, id ∈ normalizedIds [PString "v@s.whatsapp.net"] -> id ∉ admins demoEntry) ->
     _adminCache b2 !! "g@g.us" = Some demoEntry) /\
  (forall id, id ∈ normalizedIds [PString "v@s.whatsapp.net"] ->
     cachedMember "g@g.us" id b2 = false).
Proof.
  apply (promote_then_demote demoBot "g@g.us" demoEntry (PString "v@s.whatsapp.net"));
    [discriminate|reflexivity].
Defined.

(** * More about the admin check *)

Section NormalForm.

Lemma trimStart_app_stop l c r :
  isWhiteSpace c = false -> trimStart (l +:+ String c r) = trimStart l +:+ String c r.
Proof.
  intros Hc. induction l as [|d l IH]; simpl.
  - by rewrite Hc.
  - destruct (isWhiteSpace d); [apply IH|done].
Qed.

Lemma trimEnd_app_stop a c r :
  isWhiteSpace c = false -> trimEnd (a +:+ String c r) = a +:+ String c (trimEnd r).
Proof.
  intros Hc. induction a as [|d a IH]; simpl.
  - destruct (trimEnd r); [by rewrite Hc|done].
  - rewrite IH. by destruct a.
Qed.

Lemma allChars_lower P s :
  (forall c, P (toLowerChar c) = P c) -> allChars P (toLowerCase s) = allChars P s.
Proof.
  intros HP. induction s as [|c s IH]; simpl; [done|]. by rewrite HP, IH.
Qed.

Lemma allChars_trimStart P s : allChars P s = true -> allChars P (trimStart s) = true.
Proof.
  induction s as [|c s IH]; simpl; [done|].
  intros [H1 H2]%andb_prop. destruct (isWhiteSpace c); [by apply IH|].
  simpl. by rewrite H1, H2.
Qed.

Lemma allChars_app P a b : allChars P (a +:+ b) = allChars P a && allChars P b.
Proof. induction a as [|c a IH]; simpl; [done|]. by rewrite IH, andb_assoc. Qed.

Lemma allChars_weaken (P Q : ascii -> bool) s :
  (forall c, P c = true -> Q c = true) -> allChars P s = true -> allChars Q s = true.
Proof.
  intros HPQ. induction s as [|c s IH]; simpl; [done|].
  intros [H1 H2]%andb_prop. by rewrite (HPQ _ H1), IH.
Qed.

Lemma splitHead_app_sep l c r :
  allChars (fun d => negb (isResourceSep d)) l = true -> isResourceSep c = true ->
  splitHead (l +:+ String c r) = l.
Proof.
  intros Hl Hc. induction l as [|d l IH]; simpl in *.
  - by rewrite Hc.
  - apply andb_prop in Hl as [H1 H2]. apply negb_true_iff in H1.
    by rewrite H1, IH.
Qed.

Lemma isUserChar_lower c : isUserChar (toLowerChar c) = isUserChar c.
Proof. unfold isUserChar. by rewrite eqb_at_lower, isResourceSep_lower. Qed.

Lemma isNotAt_lower c : isNotAt (toLowerChar c) = isNotAt c.
Proof. unfold isNotAt. by rewrite eqb_at_lower. Qed.

Lemma append_assoc a b c : (a +:+ b) +:+ c = a +:+ (b +:+ c).
Proof. induction a as [|x a IH]; [done|]. by rewrite !append_cons, IH. Qed.

Lemma append_empty_r a : a +:+ "" = a.
Proof. induction a as [|x a IH]; [done|]. by rewrite append_cons, IH. Qed.

(** The normal form of [user ++ rest ++ "@" ++ dom] when [rest] is empty or
    starts a device part. *)
Lemma normalizeJidString_full l rest dom :
  allChars isUserChar l = true -> allChars isNotAt rest = true ->
  (rest = "" \/ exists c r, rest = String c r /\ isResourceSep c = true) ->
  normalizeJidString (l +:+ rest +:+ String "@" dom) =
    toLowerCase (trimStart l) +:+ String "@" (toLowerCase (trimEnd dom)).
Proof.
  intros Hl Hrest Hshape. unfold normalizeJidString.
  set (u := toLowerCase (trimStart l)). set (v := toLowerCase rest).
  assert (Htrim : toLowerCase (trim (l +:+ rest +:+ String "@" dom)) =
                  (u +:+ v) +:+ String "@" (toLowerCase (trimEnd dom))).
  { unfold trim. rewrite <- append_assoc.
    rewrite trimStart_app_stop by done.
    assert (Hr : trimStart (l +:+ rest) +:+ String "@" dom =
                 (trimStart l +:+ rest) +:+ String "@" dom).
    { destruct Hshape as [->|(c & r & -> & Hc)].
      - by rewrite !append_empty_r.
      - rewrite trimStart_app_stop; [done|].
        destruct c as [[] [] [] [] [] [] [] []]; try done. }
    rewrite Hr, trimEnd_app_stop by done.
    by rewrite !toLowerCase_append. }
  rewrite Htrim.
  assert (Hu : allChars isUserChar u = true).
  { unfold u. rewrite allChars_lower by apply isUserChar_lower.
    by apply allChars_trimStart. }
  assert (Hv : allChars isNotAt v = true).
  { unfold v. by rewrite allChars_lower by apply isNotAt_lower. }
  assert (Huv : allChars (fun d => negb (Ascii.eqb d "@")) (u +:+ v) = true).
  { rewrite allChars_app. apply andb_true_intro. split; [|done].
    revert Hu. apply allChars_weaken. intros c. unfold isUserChar.
    by intros [H _]%andb_prop. }
  rewrite (indexOf_append "@" (u +:+ v) _ Huv).
  rewrite sliceTo_append, sliceFrom_append. f_equal.
  assert (Hsep : allChars (fun d => negb (isResourceSep d)) u = true).
  { revert Hu. apply allChars_weaken. intros c. unfold isUserChar.
    by intros [_ H]%andb_prop. }
  destruct Hshape as [->|(c & r & -> & Hc)].
  - unfold v. simpl. rewrite append_empty_r. by apply splitHead_fixed.
  - unfold v. simpl. apply splitHead_app_sep; [done|].
    by rewrite isResourceSep_lower.
Qed.

End NormalForm.

(** X2.  What normalisation keeps of a full JID.  For a user part
    without [@], [:] or [/], any device part [dev] introduced by [:] or [/]
    and any domain, [normalizeJid] gives the lower-cased user part without
    its leading white space, [@], and the lower-cased domain without its
    trailing white space: the device part is dropped.  So [jidEquals] holds
    between a JID with a device part and the same JID without one. *)
Theorem jid_normal_form (l dev dom : string) (sep : ascii) :
  allChars isUserChar l = true -> allChars isNotAt dev = true ->
  isResourceSep sep = true ->
  let nf := toLowerCase (trimStart l) +:+ String "@" (toLowerCase (trimEnd dom)) in
  normalizeJidString (l +:+ String sep dev +:+ String "@" dom) = nf /\
  normalizeJidString (l +:+ String "@" dom) = nf /\
  jidEquals (l +:+ String sep dev +:+ String "@" dom) (l +:+ String "@" dom) = true.
Proof.
  intros Hl Hdev Hsep nf.
  assert (Hsepat : isNotAt sep = true).
  { destruct sep as [[] [] [] [] [] [] [] []]; try done. }
  assert (H1 : normalizeJidString (l +:+ String sep dev +:+ String "@" dom) = nf).
  { apply (normalizeJidString_full l (String sep dev) dom); [done| |].
    - simpl. by rewrite Hsepat, Hdev.
    - right. by exists sep, dev. }
  assert (H2 : normalizeJidString (l +:+ String "@" dom) = nf).
  { exact (normalizeJidString_full l "" dom Hl eq_refl (or_introl eq_refl)). }
  split; [done|]. split; [done|]. unfold jidEquals.
  assert (Hne : forall a b, String.eqb (a +:+ String "@" b) "" = false).
  { intros a b. by destruct a. }
  rewrite <- (append_assoc l (String sep dev)), !Hne. simpl.
  rewrite append_assoc, H1, H2. apply String.eqb_refl.
Qed.

Lemma jid_normal_form_witness :
  let nf := toLowerCase (trimStart " 4915551234") +:+
            String "@" (toLowerCase (trimEnd "S.WhatsApp.net ")) in
  normalizeJidString (" 4915551234" +:+ String ":" "17" +:+ String "@" "S.WhatsApp.net ") = nf /\
  normalizeJidString (" 4915551234" +:+ String "@" "S.WhatsApp.net ") = nf /\
  jidEquals (" 4915551234" +:+ String ":" "17" +:+ String "@" "S.WhatsApp.net ")
            (" 4915551234" +:+ String "@" "S.WhatsApp.net ") = true.
Proof.
  apply (jid_normal_form " 4915551234" "17" "S.WhatsApp.net " ":"); reflexivity.
Defined.

Section Recognition.

Lemma eqb_empty s : String.eqb s "" = false <-> s <> "".
Proof. by rewrite String.eqb_neq. Qed.

Lemma anyAdminMatches_iff S s :
  anyAdminMatches S (normalizeJidString s) = true <-> recognises S s.
Proof.
  unfold anyAdminMatches, recognises. rewrite existsb_exists. split.
  - intros (a & Hin & Ha). apply andb_prop in Ha as [Hne Heq].
    apply negb_true_iff in Hne. unfold jidEquals in Heq. rewrite Hne in Heq.
    simpl in Heq.
    destruct (String.eqb (normalizeJidString s) "") eqn:Hs; [done|].
    apply String.eqb_eq in Heq. rewrite normalizeJidString_twice in Heq.
    split; [by apply eqb_empty|]. exists a.
    split; [by apply elem_of_elements, list_elem_of_In|].
    split; [by apply eqb_empty|done].
  - intros (Hs & a & Hin & Hne & Heq). exists a.
    split; [by apply list_elem_of_In, elem_of_elements|].
    apply eqb_empty in Hne, Hs. unfold jidEquals. rewrite Hne, Hs. simpl.
    apply String.eqb_eq. by rewrite normalizeJidString_twice.
Qed.

Lemma addIfAdmin_spec acc p id :
  id ∈ addIfAdmin acc p <->
  id ∈ acc \/ exists o, p = PObject o /\ contributes o id.
Proof.
  unfold contributes. destruct p as [|s|o].
  - simpl. split; [intros ?; by left|]. by intros [H|(o & H & _)].
  - simpl. split; [intros ?; by left|]. by intros [H|(o & H & _)].
  - change (addIfAdmin acc (PObject o)) with
      (match normalizeParticipantId (PObject o) with
       | Some i => if String.eqb i "" then acc
                   else if isAdminFlag o then {[ i ]} ∪ acc else acc
       | None => acc
       end).
    destruct (normalizeParticipantId (PObject o)) as [i|] eqn:Hn.
    + destruct (String.eqb i "") eqn:Hi.
      * split; [intros ?; by left|]. intros [H|(o' & [= <-] & _ & H1 & H2)]; [done|].
        rewrite Hn in H1. injection H1 as ->. by apply String.eqb_eq in Hi.
      * destruct (isAdminFlag o) eqn:Hf.
        -- rewrite elem_of_union, elem_of_singleton. split.
           ++ intros [->|H]; [right|by left]. exists o.
              split; [done|]. split; [done|]. split; [by rewrite Hn|].
              by apply eqb_empty.
           ++ intros [H|(o' & [= <-] & _ & H1 & _)]; [by right|left].
              rewrite Hn in H1. by injection H1.
        -- split; [intros ?; by left|]. intros [H|(o' & [= <-] & H1 & _)]; [done|].
           by rewrite Hf in H1.
    + split; [intros ?; by left|]. intros [H|(o' & [= <-] & _ & H1 & _)]; [done|].
      by rewrite Hn in H1.
Qed.

Lemma foldl_addIfAdmin acc ps id :
  id ∈ foldl addIfAdmin acc ps <->
  id ∈ acc \/ exists o, PObject o ∈ ps /\ contributes o id.
Proof.
  revert acc; induction ps as [|p ps IH]; intros acc; simpl.
  - split; [intros ?; by left|]. intros [H|(o & H & _)]; [done|]. by apply elem_of_nil in H.
  - rewrite IH, addIfAdmin_spec. split.
    + intros [[H|(o & -> & Hc)]|(o & Hin & Hc)].
      * by left.
      * right. exists o. split; [apply elem_of_cons; by left|done].
      * right. exists o. split; [apply elem_of_cons; by right|done].
    + intros [H|(o & Hin & Hc)]; [by left; left|].
      apply elem_of_cons in Hin as [<-|Hin].
      * left. right. by exists o.
      * right. by exists o.
Qed.

Lemma build_spec ps id :
  id ∈ buildAdminSetFromParticipants ps <->
  exists o, PObject o ∈ ps /\ contributes o id.
Proof.
  unfold buildAdminSetFromParticipants. rewrite foldl_addIfAdmin. split.
  - intros [H|H]; [|done]. by apply elem_of_empty in H.
  - by right.
Qed.

Lemma foldl_addIfAdmin_union acc ps :
  foldl addIfAdmin acc ps = acc ∪ buildAdminSetFromParticipants ps.
Proof.
  apply set_eq. intros id. rewrite elem_of_union, foldl_addIfAdmin, build_spec.
  done.
Qed.

End Recognition.

(** X3.  Who is in the admin set built from a participants array:
    exactly the normalised, non-empty identities ([id], else [jid], else
    [participant]) of the entries that are objects carrying an admin flag
    or an admin role.  Entries that are bare strings or falsy never count,
    the order of the array does not matter, and the set of a concatenation
    is the union of the sets. *)
Theorem admin_set_membership (ps qs : list participant) (id : string) :
  (id ∈ buildAdminSetFromParticipants ps <->
     exists o, PObject o ∈ ps /\ isAdminFlag o = true /\
               normalizeParticipantId (PObject o) = Some id /\ id <> "") /\
  buildAdminSetFromParticipants (ps ++ qs) =
    buildAdminSetFromParticipants ps ∪ buildAdminSetFromParticipants qs /\
  (ps ≡ₚ qs -> buildAdminSetFromParticipants ps = buildAdminSetFromParticipants qs).
Proof.
  split; [apply build_spec|]. split.
  - unfold buildAdminSetFromParticipants at 1. rewrite foldl_app.
    fold (buildAdminSetFromParticipants ps). apply foldl_addIfAdmin_union.
  - intros Hperm. apply set_eq. intros x. rewrite !build_spec.
    by setoid_rewrite Hperm.
Qed.

(** X4.  A cached admin set is authoritative.  When the group of a
    message (not the bot's own) has an entry in [_adminCache], [isadmin]
    answers from it and leaves the bot as it is: no metadata call is made,
    nothing is logged, nothing is stored, whatever the metadata functions
    would say.  The answer is yes exactly if the normalised sender is not
    empty and some non-empty cached identity has its normal form. *)
Theorem cache_is_authoritative (b : bot) (ctx : context) (k : messageKey)
    (g s : string) (e : cacheEntry) :
  key ctx = Some k -> fromMe k = false ->
  remoteJid k ||| ctx_remoteJid ctx = Some g ->
  endsWith g "@g.us" = true ->
  key_participant k ||| ctx_participant ctx ||| ctx_sender ctx ||| key_from k = Some s ->
  s <> "" ->
  _adminCache b !! g = Some e ->
  (isadmin ctx b).2 = b /\
  ((isadmin ctx b).1 = true <-> recognises (admins e) s).
Proof.
  intros Hk Hme Hg Hgroup Hs Hne Hc.
  rewrite (isadmin_guarded ctx k g s b Hk Hme Hg Hgroup Hs Hne), Hc. simpl.
  split; [done|]. apply anyAdminMatches_iff.
Qed.

Lemma cache_is_authoritative_witness :
  (isadmin demoContext demoBot).2 = demoBot /\
  ((isadmin demoContext demoBot).1 = true <->
     recognises (admins demoEntry) "u@s.whatsapp.net").
Proof.
  apply (cache_is_authoritative demoBot demoContext demoKey "g@g.us"
           "u@s.whatsapp.net" demoEntry); try reflexivity.
  discriminate.
Defined.

(** X5.  What [isadmin] learns on a cache miss.  When the fetch
    delivers a metadata object, the group gets the admin set built from its
    participants as its cache entry; the sender is reported as admin exactly
    if its normal form is not empty and is that of the identity of some
    participant object carrying an admin mark; and asking the same again is
    answered the same from the cache, without any further change to the
    bot. *)
Theorem isadmin_learns_group (b : bot) (ctx : context) (k : messageKey)
    (g s : string) (md : metadata) :
  key ctx = Some k -> fromMe k = false ->
  remoteJid k ||| ctx_remoteJid ctx = Some g ->
  endsWith g "@g.us" = true ->
  key_participant k ||| ctx_participant ctx ||| ctx_sender ctx ||| key_from k = Some s ->
  s <> "" ->
  _adminCache b !! g = None ->
  (fetchGroupMetadataDeduped g b).1 = Some md ->
  let ps := default [] (participants md) in
  let r := isadmin ctx b in
  cachedAdmins g r.2 = Some (buildAdminSetFromParticipants ps) /\
  (r.1 = true <->
     normalizeJidString s <> "" /\
     exists o id, PObject o ∈ ps /\ isAdminFlag o = true /\
       normalizeParticipantId (PObject o) = Some id /\ id <> "" /\
       normalizeJidString id = trimEnd (normalizeJidString s)) /\
  isadmin ctx r.2 = (r.1, r.2).
Proof.
  intros Hk Hme Hg Hgroup Hs Hne Hmiss Hfetch ps r.
  unfold r. rewrite (isadmin_guarded ctx k g s b Hk Hme Hg Hgroup Hs Hne), Hmiss.
  destruct (fetchGroupMetadataDeduped g b) as [o b1] eqn:Hf. simpl in Hfetch.
  subst o. cbv zeta. cbn [fst snd]. fold ps.
  set (b2 := setCache _ b1).
  assert (Hc : _adminCache b2 !! g = Some {| admins := buildAdminSetFromParticipants ps |}).
  { unfold b2. simpl. by rewrite lookup_insert_eq. }
  split; [unfold cachedAdmins; by rewrite Hc|]. split.
  - rewrite anyAdminMatches_iff. unfold recognises. split.
    + intros (H1 & a & Hin & Ha & Heq). split; [done|].
      apply build_spec in Hin as (o & Hin & Hflag & Hid & _).
      by exists o, a.
    + intros (H1 & o & id & Hin & Hflag & Hid & Hne' & Heq). split; [done|].
      exists id. split; [|done]. apply build_spec. by exists o.
  - rewrite (isadmin_guarded ctx k g s b2 Hk Hme Hg Hgroup Hs Hne), Hc. done.
Qed.

Lemma isadmin_learns_group_witness :
  let ps := default [] (participants ledGroup) in
  let r := isadmin demoContext ledBot in
  cachedAdmins "g@g.us" r.2 = Some (buildAdminSetFromParticipants ps) /\
  (r.1 = true <->
     normalizeJidString "u@s.whatsapp.net" <> "" /\
     exists o id, PObject o ∈ ps /\ isAdminFlag o = true /\
       normalizeParticipantId (PObject o) = Some id /\ id <> "" /\
       normalizeJidString id = trimEnd (normalizeJidString "u@s.whatsapp.net")) /\
  isadmin demoContext r.2 = (r.1, r.2).
Proof.
  apply (isadmin_learns_group ledBot demoContext demoKey "g@g.us"
           "u@s.whatsapp.net" ledGroup); try reflexivity.
  discriminate.
Defined.

(** The run of the witness: the admin is listed as [U@...], the sender is
    [u@...]; the answer is yes. *)
Example isadmin_led_group :
  (isadmin demoContext ledBot).1 = true /\
  log (isadmin demoContext ledBot).2 = [EvCall BotGroupMetadata "g@g.us"].
Proof. by vm_compute. Qed.

Section CacheShape.

Lemma normalizedIds_spec ps id :
  id ∈ normalizedIds ps -> id <> "" /\ exists raw, id = normalizeJidString raw.
Proof.
  unfold normalizedIds. rewrite list_elem_of_omap. intros (p & _ & Hp).
  destruct (normalizeParticipantId p) as [i|] eqn:Hn; [|done].
  destruct (String.eqb i "") eqn:Hi; [done|]. injection Hp as ->.
  split; [by apply String.eqb_neq|].
  destruct p as [|s|o]; simpl in Hn; [done| |].
  - destruct (String.eqb s ""); [done|]. injection Hn as <-. by exists s.
  - destruct (truthy _); [|done].
    destruct (p_id o ??? p_jid o ??? p_participant o) as [raw|]; [|done].
    injection Hn as <-. by exists raw.
Qed.

Lemma build_normalForms ps : normalForms (buildAdminSetFromParticipants ps).
Proof.
  intros a (o & _ & _ & Hid & Hne)%build_spec. split; [done|].
  simpl in Hid. destruct (truthy _); [|done].
  destruct (p_id o ??? p_jid o ??? p_participant o) as [raw|]; [|done].
  injection Hid as <-. by exists raw.
Qed.

Lemma normalForms_promote S ids :
  normalForms S -> normalForms (foldl (fun acc pid => {[ pid ]} ∪ acc) S (normalizedIds ids)).
Proof.
  intros HS a. rewrite foldl_add, elem_of_union, elem_of_list_to_set.
  intros [H|H]; [by eapply normalizedIds_spec|by apply HS].
Qed.

Lemma normalForms_demote S ids :
  normalForms S -> normalForms (foldl (fun acc pid => acc ∖ {[ pid ]}) S ids).
Proof.
  intros HS a. rewrite foldl_remove, elem_of_difference. intros [H _]. by apply HS.
Qed.

Lemma cacheWF_insert g S b b0 :
  cacheWF b0 -> _adminCache b = _adminCache b0 ->
  endsWith g "@g.us" = true -> normalForms S ->
  cacheWF (setCache (<[g := {| admins := S |}]> (_adminCache b)) b).
Proof.
  intros Hwf Heq Hg HS g' e. simpl. rewrite Heq.
  destruct (decide (g' = g)) as [->|Hne].
  - rewrite lookup_insert_eq. by intros [= <-].
  - rewrite lookup_insert_ne by done. apply Hwf.
Qed.

Lemma cacheWF_delete g b : cacheWF b -> cacheWF (setCache (delete g (_adminCache b)) b).
Proof.
  intros Hwf g' e. simpl. destruct (decide (g' = g)) as [->|Hne].
  - by rewrite lookup_delete_eq.
  - rewrite lookup_delete_ne by done. apply Hwf.
Qed.

Lemma gpHandler_wf u b : cacheWF b -> cacheWF (gpHandler u b).
Proof.
  intros Hwf. unfold gpHandler. destruct (upd_id u) as [g|]; [|done].
  destruct (String.eqb g ""); [done|].
  destruct (_adminCache b !! g) as [e|] eqn:He; [|done].
  destruct (Hwf g e He) as [Hg Hn].
  destruct (String.eqb (upd_action u) "promote").
  { apply (cacheWF_insert g _ b b); [done|done|done|]. by apply normalForms_promote. }
  destruct (String.eqb (upd_action u) "demote").
  { apply (cacheWF_insert g _ b b); [done|done|done|]. by apply normalForms_demote. }
  destruct (bool_decide _); [by apply cacheWF_delete|done].
Qed.

Lemma upsertOne_wf b m : cacheWF b -> cacheWF (upsertOne b m).
Proof.
  intros Hwf. unfold upsertOne. destruct (stub_chat m) as [g|]; [|done].
  destruct (stub_type m) as [stub|]; [|done].
  destruct (String.eqb g "" || (stub =? 0)); [done|].
  destruct (_adminCache b !! g) as [e|] eqn:He; [|done].
  destruct (Hwf g e He) as [Hg Hn]. cbv zeta.
  destruct ((stub =? 29) && _).
  { apply (cacheWF_insert g _ b b); [done|done|done|]. by apply normalForms_promote. }
  destruct ((stub =? 30) && _).
  { apply (cacheWF_insert g _ b b); [done|done|done|]. by apply normalForms_demote. }
  destruct (bool_decide _); [by apply cacheWF_delete|done].
Qed.

Lemma upsertHandler_wf ms b : cacheWF b -> cacheWF (upsertHandler ms b).
Proof.
  unfold upsertHandler. revert b. induction ms as [|m ms IH]; intros b Hwf; [done|].
  simpl. by apply IH, upsertOne_wf.
Qed.

Lemma isadmin_wf ctx b : cacheWF b -> cacheWF (isadmin ctx b).2.
Proof.
  intros Hwf. unfold isadmin. destruct (key ctx) as [k|]; [|done].
  destruct (fromMe k); [done|].
  destruct (remoteJid k ||| ctx_remoteJid ctx) as [g|]; [|done].
  destruct (String.eqb g "" || negb (endsWith g "@g.us")) eqn:Hg; [done|].
  apply orb_false_iff in Hg as [_ Hg]. apply negb_false_iff in Hg.
  destruct (key_participant k ||| ctx_participant ctx ||| ctx_sender ctx ||| key_from k)
    as [s|]; [|done].
  destruct (String.eqb s ""); [done|]. cbv zeta.
  destruct (_adminCache b !! g) as [e|]; [done|].
  pose proof (fetch_cache g b) as Hc.
  destruct (fetchGroupMetadataDeduped g b) as [[md|] b1]; simpl in *.
  - apply (cacheWF_insert g _ b1 b); [done|done|done|]. apply build_normalForms.
  - intros g' e'. rewrite Hc. apply Hwf.
Qed.

Lemma perform_wf b c : cacheWF b -> cacheWF (perform b c).
Proof.
  intros Hwf. destruct c as [ctx|u|ms|g| |]; simpl.
  - by apply isadmin_wf.
  - by apply gpHandler_wf.
  - by apply upsertHandler_wf.
  - unfold invalidateAdminCacheForChat. destruct (String.eqb g ""); [done|].
    by apply cacheWF_delete.
  - intros g e. simpl. by rewrite lookup_empty.
  - intros g e. simpl. by rewrite lookup_empty.
Qed.

Lemma performAll_wf cs b : cacheWF b -> cacheWF (performAll cs b).
Proof.
  unfold performAll. revert b. induction cs as [|c cs IH]; intros b Hwf; [done|].
  simpl. by apply IH, perform_wf.
Qed.

End CacheShape.

(** X6.  What the admin cache can hold.  Starting from an empty
    cache, after any sequence of [isadmin] calls, participants updates,
    message upserts, invalidations, clears and teardowns, every key of
    [_adminCache] is a group JID (it ends in [@g.us]) and every identity in
    every cached admin set is a non-empty result of [normalizeJid]. *)
Theorem cache_holds_groups_and_normal_forms (cs : list call) (b : bot)
    (g : string) (e : cacheEntry) (a : string) :
  _adminCache b = ∅ ->
  _adminCache (performAll cs b) !! g = Some e -> a ∈ admins e ->
  endsWith g "@g.us" = true /\ a <> "" /\ exists raw, a = normalizeJidString raw.
Proof.
  intros Hempty He Ha.
  assert (H0 : cacheWF b).
  { intros g' e'. by rewrite Hempty, lookup_empty. }
  destruct (performAll_wf cs b H0 g e He) as [Hg Hn].
  split; [done|]. by apply Hn.
Qed.

Lemma cache_holds_groups_and_normal_forms_witness :
  endsWith "g@g.us" "@g.us" = true /\ "u@s.whatsapp.net" <> "" /\
  exists raw, "u@s.whatsapp.net" = normalizeJidString raw.
Proof.
  apply (cache_holds_groups_and_normal_forms [CallIsAdmin demoContext] ledBot
           "g@g.us" {| admins := {[ "u@s.whatsapp.net" ]} |} "u@s.whatsapp.net").
  - reflexivity.
  - vm_compute. reflexivity.
  - simpl. set_solver.
Defined.

Section Handlers.

Lemma cacheOnly_refl b : cacheOnly b b.
Proof. by split. Qed.

Lemma cacheOnly_setCache c b : cacheOnly b (setCache c b).
Proof. by split. Qed.

Lemma cacheOnly_trans b1 b2 b3 : cacheOnly b1 b2 -> cacheOnly b2 b3 -> cacheOnly b1 b3.
Proof.
  intros [A1 A2 A3 A4] [B1 B2 B3 B4].
  split; first [congruence | intros m; by rewrite B2].
Qed.

(** What a handler does to the cache: nothing, or it replaces or deletes the
    entry of one chat that had one. *)
Lemma gpHandler_cases u b :
  gpHandler u b = b \/
  exists g e, upd_id u = Some g /\ _adminCache b !! g = Some e /\
    (gpHandler u b = setCache (delete g (_adminCache b)) b \/
     exists S, gpHandler u b = setCache (<[g := {| admins := S |}]> (_adminCache b)) b).
Proof.
  unfold gpHandler. destruct (upd_id u) as [g|]; [|by left].
  destruct (String.eqb g ""); [by left|].
  destruct (_adminCache b !! g) as [e|] eqn:He; [|by left].
  right. exists g, e. split; [done|]. split; [done|]. cbv zeta.
  destruct (String.eqb (upd_action u) "promote"); [right; by eexists|].
  destruct (String.eqb (upd_action u) "demote"); [right; by eexists|].
  destruct (bool_decide _); [by left|].
  right. exists (admins e). destruct b, e. unfold setCache. simpl in *.
  f_equal. by rewrite insert_id.
Qed.

Lemma upsertOne_cases b m :
  upsertOne b m = b \/
  exists g e, stub_chat m = Some g /\ _adminCache b !! g = Some e /\
    (upsertOne b m = setCache (delete g (_adminCache b)) b \/
     exists S, upsertOne b m = setCache (<[g := {| admins := S |}]> (_adminCache b)) b).
Proof.
  unfold upsertOne. destruct (stub_chat m) as [g|]; [|by left].
  destruct (stub_type m) as [stub|]; [|by left].
  destruct (String.eqb g "" || (stub =? 0)); [by left|].
  destruct (_adminCache b !! g) as [e|] eqn:He; [|by left].
  right. exists g, e. split; [done|]. split; [done|]. cbv zeta.
  destruct ((stub =? 29) && _); [right; by eexists|].
  destruct ((stub =? 30) && _); [right; by eexists|].
  destruct (bool_decide _); [by left|].
  right. exists (admins e). destruct b, e. unfold setCache. simpl in *.
  f_equal. by rewrite insert_id.
Qed.

Lemma tame_of_cases chat b b' :
  (b' = b \/
   exists g e, chat = Some g /\ _adminCache b !! g = Some e /\
     (b' = setCache (delete g (_adminCache b)) b \/
      exists S, b' = setCache (<[g := {| admins := S |}]> (_adminCache b)) b)) ->
  tame chat b b'.
Proof.
  intros [->|(g & e & Hchat & He & [->|(S & ->)])].
  - split; [apply cacheOnly_refl|]. by split.
  - split; [apply cacheOnly_setCache|]. simpl. split.
    + intros g' Hn. destruct (decide (g' = g)) as [->|Hne].
      * by rewrite lookup_delete_eq.
      * by rewrite lookup_delete_ne.
    + intros g' Hn. rewrite lookup_delete_ne; [done|]. congruence.
  - split; [apply cacheOnly_setCache|]. simpl. split.
    + intros g' Hn. rewrite lookup_insert_ne; [done|]. congruence.
    + intros g' Hn. rewrite lookup_insert_ne; [done|]. congruence.
Qed.

Lemma upsertHandler_tame ms b :
  cacheOnly b (upsertHandler ms b) /\
  (forall g, _adminCache b !! g = None -> _adminCache (upsertHandler ms b) !! g = None) /\
  (forall g, (forall m, m ∈ ms -> stub_chat m <> Some g) ->
             _adminCache (upsertHandler ms b) !! g = _adminCache b !! g).
Proof.
  unfold upsertHandler. revert b. induction ms as [|m ms IH]; intros b; simpl.
  - split; [apply cacheOnly_refl|]. by split.
  - destruct (tame_of_cases (stub_chat m) b (upsertOne b m) (upsertOne_cases b m))
      as (H1 & H2 & H3).
    destruct (IH (upsertOne b m)) as (I1 & I2 & I3).
    split; [by eapply cacheOnly_trans|]. split.
    + intros g Hg. by apply I2, H2.
    + intros g Hg. rewrite I3, H3; [done| |].
      * apply Hg, elem_of_cons. by left.
      * intros m' Hm'. apply Hg, elem_of_cons. by right.
Qed.

End Handlers.

(** X7.  The event handlers only ever trim the cache.  Neither a
    participants update nor a batch of upserted messages creates a cache
    entry for a chat that had none, touches the entry of a chat the event
    does not name, calls a metadata function or logs anything: they replace
    or delete entries that exist, and the cache is filled by [isadmin]
    alone. *)
Theorem events_never_populate (b : bot) (u : participantsUpdate)
    (ms : list stubMessage) (g : string) :
  cacheOnly b (gpHandler u b) /\ cacheOnly b (upsertHandler ms b) /\
  (_adminCache b !! g = None ->
     _adminCache (gpHandler u b) !! g = None /\
     _adminCache (upsertHandler ms b) !! g = None) /\
  (upd_id u <> Some g -> _adminCache (gpHandler u b) !! g = _adminCache b !! g) /\
  ((forall m, m ∈ ms -> stub_chat m <> Some g) ->
     _adminCache (upsertHandler ms b) !! g = _adminCache b !! g).
Proof.
  destruct (tame_of_cases (upd_id u) b (gpHandler u b) (gpHandler_cases u b))
    as (H1 & H2 & H3).
  destruct (upsertHandler_tame ms b) as (I1 & I2 & I3).
  split; [done|]. split; [done|]. split; [|split].
  - intros Hg. split; [by apply H2|by apply I2].
  - apply H3.
  - apply I3.
Qed.

Section Notices.

Lemma setCache_same g e b :
  _adminCache b !! g = Some e ->
  setCache (<[g := {| admins := admins e |}]> (_adminCache b)) b = b.
Proof.
  intros He. destruct b, e. unfold setCache. simpl in *. f_equal.
  by rewrite insert_id.
Qed.

Lemma structural_not_role action :
  action ∈ structuralActions ->
  String.eqb action "promote" = false /\ String.eqb action "demote" = false.
Proof.
  unfold structuralActions. intros H. apply list_elem_of_In in H. simpl in H.
  destruct H as [<-|[<-|[<-|[<-|[<-|[]]]]]]; by split.
Qed.

Lemma structural_stub stub :
  stub ∈ structuralStubs ->
  (stub =? 0) = false /\ (stub =? 29) = false /\ (stub =? 30) = false.
Proof.
  unfold structuralStubs. intros H. apply list_elem_of_In in H. simpl in H.
  destruct H as [<-|[<-|[<-|[<-|[]]]]]; by repeat split.
Qed.

Lemma upsertOne_role b m stub action :
  stub_type m = Some stub ->
  (stub = 29 /\ action = "promote") \/ (stub = 30 /\ action = "demote") ->
  upsertOne b m = gpHandler (noticeAsUpdate m action) b.
Proof.
  intros Hs Hcase. unfold upsertOne, gpHandler, noticeAsUpdate. simpl. rewrite Hs.
  destruct (stub_chat m) as [g|]; [|done].
  assert (H0 : (stub =? 0) = false) by (destruct Hcase as [[-> _]|[-> _]]; done).
  rewrite H0, orb_false_r. destruct (String.eqb g ""); [done|].
  destruct (_adminCache b !! g) as [e|] eqn:He; [|done]. cbv zeta.
  destruct (normalizedIds (default [] (stub_params m))) as [|i ids] eqn:Hids.
  - simpl. rewrite !andb_false_r. symmetry.
    destruct Hcase as [[-> ->]|[-> ->]]; simpl; by apply setCache_same.
  - simpl. rewrite !andb_true_r.
    destruct Hcase as [[-> ->]|[-> ->]]; by simpl.
Qed.

Lemma upsertOne_structural b m stub action :
  stub_type m = Some stub -> stub ∈ structuralStubs -> action ∈ structuralActions ->
  upsertOne b m = gpHandler (noticeAsUpdate m action) b.
Proof.
  intros Hs Hstub Hact. unfold upsertOne, gpHandler, noticeAsUpdate. simpl.
  rewrite Hs. destruct (stub_chat m) as [g|]; [|done].
  destruct (structural_stub stub Hstub) as (H0 & H29 & H30).
  destruct (structural_not_role action Hact) as [Hp Hd].
  rewrite H0, orb_false_r, H29, H30, Hp, Hd. simpl.
  destruct (String.eqb g ""); [done|].
  destruct (_adminCache b !! g) as [e|]; [|done].
  by rewrite !bool_decide_eq_true_2.
Qed.

End Notices.

(** X8.  The two event paths agree.  A system notice in message
    history has the same effect on the bot as the participants update that
    reports the same change for the same chat and the same participants:
    stub type 29 acts as [promote], 30 as [demote], and 24 to 27 as any of
    the structural actions, also when the chat has no entry or the
    participants list is empty. *)
Theorem notice_acts_as_update (b : bot) (m : stubMessage) (stub : Z) (action : string) :
  stub_type m = Some stub ->
  (stub = 29 /\ action = "promote") \/ (stub = 30 /\ action = "demote") \/
  (stub ∈ structuralStubs /\ action ∈ structuralActions) ->
  upsertHandler [m] b = gpHandler (noticeAsUpdate m action) b.
Proof.
  intros Hs [H|[H|[H1 H2]]]; unfold upsertHandler; simpl.
  - apply (upsertOne_role b m stub action Hs). by left.
  - apply (upsertOne_role b m stub action Hs). by right.
  - by apply (upsertOne_structural b m stub action Hs).
Qed.

Lemma notice_acts_as_update_witness :
  upsertHandler [{| stub_chat := Some "g@g.us"; stub_type := Some 30;
                    stub_params := Some [PString "U@s.whatsapp.net"] |}] demoBot =
  gpHandler (noticeAsUpdate {| stub_chat := Some "g@g.us"; stub_type := Some 30;
                               stub_params := Some [PString "U@s.whatsapp.net"] |}
                            "demote") demoBot.
Proof.
  apply (notice_acts_as_update demoBot _ 30 "demote").
  - reflexivity.
  - right. left. by split.
Defined.

Section RoleEffect.

Lemma indexOf_at_trimEnd a : indexOf "@" (trimEnd a) = None <-> indexOf "@" a = None.
Proof.
  rewrite !indexOf_None. rewrite allChars_trimEnd_ws; [done|].
  intros [[] [] [] [] [] [] [] []]; done.
Qed.

Lemma normalizeJidString_keeps_at s :
  indexOf "@" (normalizeJidString s) = None <-> indexOf "@" s = None.
Proof.
  rewrite normalizeJidString_split.
  set (x := toLowerCase (trim s)).
  assert (Hx : indexOf "@" x = None <-> indexOf "@" s = None).
  { unfold x. rewrite indexOf_at_lower. apply indexOf_at_trim. }
  rewrite <- Hx. unfold splitJid. destruct (indexOf "@" x) as [n|] eqn:Hn.
  - assert (Hl : allChars (fun c => negb (Ascii.eqb c "@"))
                   (splitHead (sliceTo n x)) = true).
    { apply allChars_splitHead. by apply indexOf_sliceTo. }
    change (?l +:+ "@" +:+ ?d) with (l +:+ String "@" d).
    by rewrite (indexOf_append _ _ _ Hl).
  - split; [done|]. intros _. apply indexOf_None, allChars_splitHead.
    by apply indexOf_None.
Qed.

(** Two normal forms that agree once their trailing white space is removed
    are equal, if one of them is that of a JID with a domain. *)
Lemma normal_forms_agree x r :
  indexOf "@" r <> None ->
  trimEnd (normalizeJidString x) = normalizeJidString r ->
  normalizeJidString x = normalizeJidString r.
Proof.
  intros Hr Heq. destruct (indexOf "@" x) as [n|] eqn:Hx.
  - rewrite normalizeJidString_at in Heq; [done|]. by rewrite Hx.
  - exfalso. apply Hr. apply normalizeJidString_keeps_at.
    rewrite <- Heq. apply indexOf_at_trimEnd. by apply normalizeJidString_keeps_at.
Qed.

Lemma normalizedIds_string r :
  normalizeJidString r <> "" -> normalizedIds [PString r] = [normalizeJidString r].
Proof.
  intros Hn. unfold normalizedIds. simpl.
  assert (Hr : String.eqb r "" = false).
  { apply String.eqb_neq. by intros ->. }
  rewrite Hr. by apply String.eqb_neq in Hn as ->.
Qed.

Lemma messageFrom_guarded g r b :
  endsWith g "@g.us" = true -> r <> "" ->
  isadmin (messageFrom g r) b =
    match _adminCache b !! g with
    | Some cached => (anyAdminMatches (admins cached) (normalizeJidString r), b)
    | None =>
        match fetchGroupMetadataDeduped g b with
        | (None, b1) => (false, b1)
        | (Some md, b1) =>
            let a := buildAdminSetFromParticipants (default [] (participants md)) in
            (anyAdminMatches a (normalizeJidString r),
             setCache (<[g := {| admins := a |}]> (_adminCache b1)) b1)
        end
    end.
Proof.
  intros Hg Hr.
  assert (Hgne : String.eqb g "" = false).
  { by apply (endsWith_nonempty g "@g.us"); [discriminate|]. }
  assert (Hrne : String.eqb r "" = false) by by apply String.eqb_neq.
  apply (isadmin_guarded (messageFrom g r) _ g r b eq_refl eq_refl); try done.
  - cbn [messageFrom remoteJid ctx_remoteJid]. unfold or_else, truthy.
    by rewrite Hgne.
  - cbn [messageFrom key_participant ctx_participant ctx_sender key_from].
    unfold or_else, truthy. rewrite Hrne. cbn [negb]. rewrite Hrne. cbn [negb]. by rewrite Hrne.
Qed.

End RoleEffect.

(** X9.  A role change takes effect at once, without a fetch.  For a
    group that has a cache entry: after a [promote] update for the user with
    raw identity [r], [isadmin] answers yes for a message of [r] in that
    group; after a [demote] update it answers no, provided [r] has a domain
    part and the cached identities are normal forms (which they always are,
    see the invariant of the cache).  In both cases [isadmin] makes no
    metadata call and leaves the bot as the event left it. *)
Theorem role_change_takes_effect (b : bot) (g r : string) (e : cacheEntry) :
  endsWith g "@g.us" = true -> _adminCache b !! g = Some e ->
  normalizeJidString r <> "" ->
  let promoted := gpHandler (roleChange g (PString r) "promote") b in
  let demoted := gpHandler (roleChange g (PString r) "demote") b in
  isadmin (messageFrom g r) promoted = (true, promoted) /\
  (indexOf "@" r <> None -> normalForms (admins e) ->
     isadmin (messageFrom g r) demoted = (false, demoted)).
Proof.
  intros Hg He Hn promoted demoted.
  assert (Hr : r <> "") by by intros ->.
  assert (Hgne : g <> "").
  { apply String.eqb_neq. by apply (endsWith_nonempty g "@g.us"); [discriminate|]. }
  pose proof (gpHandler_promote g (PString r) e b Hgne He) as Hp.
  pose proof (gpHandler_demote g (PString r) e b Hgne He) as Hd.
  rewrite (normalizedIds_string r Hn) in Hp, Hd. fold promoted in Hp. fold demoted in Hd.
  unfold cachedAdmins in Hp, Hd. split.
  - rewrite (messageFrom_guarded g r promoted Hg Hr).
    destruct (_adminCache promoted !! g) as [e1|]; [|done].
    simpl in Hp. injection Hp as Hp. f_equal.
    apply anyAdminMatches_iff. split; [done|].
    exists (normalizeJidString r). rewrite Hp.
    split; [set_solver|]. split; [done|]. apply normalizeJidString_twice.
  - intros Hat Hnf. rewrite (messageFrom_guarded g r demoted Hg Hr).
    destruct (_adminCache demoted !! g) as [e1|]; [|done].
    simpl in Hd. injection Hd as Hd. f_equal.
    apply not_true_is_false. rewrite anyAdminMatches_iff.
    intros (_ & a & Hin & Hane & Heq). rewrite Hd in Hin.
    apply elem_of_difference in Hin as [Hin Hnot].
    destruct (Hnf a Hin) as [_ (x & ->)].
    rewrite normalizeJidString_twice, (normalizeJidString_at r Hat) in Heq.
    apply (normal_forms_agree x r Hat) in Heq. set_solver.
Qed.

Lemma role_change_takes_effect_witness :
  let promoted := gpHandler (roleChange "g@g.us" (PString "V@s.whatsapp.net") "promote") demoBot in
  let demoted := gpHandler (roleChange "g@g.us" (PString "V@s.whatsapp.net") "demote") demoBot in
  isadmin (messageFrom "g@g.us" "V@s.whatsapp.net") promoted = (true, promoted) /\
  (indexOf "@" "V@s.whatsapp.net" <> None -> normalForms (admins demoEntry) ->
     isadmin (messageFrom "g@g.us" "V@s.whatsapp.net") demoted = (false, demoted)).
Proof.
  apply (role_change_takes_effect demoBot "g@g.us" "V@s.whatsapp.net" demoEntry).
  - reflexivity.
  - reflexivity.
  - discriminate.
Defined.

Section Fallback.

Lemma firstTruthy_throws f ms g b :
  groupMetadata b = Some f -> f (calls b) g = Throws ->
  firstTruthy (BotGroupMetadata :: ms) g b =
    (Throws, tick (emit (EvCall BotGroupMetadata g) b)).
Proof. intros Hf Ht. simpl. unfold tryMethod. simpl. by rewrite Hf, Ht. Qed.

End Fallback.

(** X10.  The chain of metadata functions covers empty answers, not
    failures.  If [bot.groupMetadata] resolves to nothing, the fetch goes on
    to [bot.sock.groupMetadata] within the same attempt and returns what
    that delivers, without a warning or a pause.  If [bot.groupMetadata]
    rejects, the attempt ends there: when it rejects every time, the fetch
    gives up after three calls of it alone, and [bot.sock.groupMetadata] is
    never asked, whatever it would have delivered. *)
Theorem fallback_covers_empty_answers_only (b : bot) (g : string)
    (f h : metadataFn) (md : metadata) :
  g <> "" -> _adminCacheFetches b !! g = None ->
  groupMetadata b = Some f -> sock_groupMetadata b = Some h ->
  (forall n, h n g = Returns (Some md)) ->
  (f (calls b) g = Returns None ->
     (fetchGroupMetadataDeduped g b).1 = Some md /\
     log (fetchGroupMetadataDeduped g b).2 =
       log b ++ [EvCall BotGroupMetadata g; EvCall SockGroupMetadata g]) /\
  ((forall n, f n g = Throws) ->
     (fetchGroupMetadataDeduped g b).1 = None /\
     log (fetchGroupMetadataDeduped g b).2 =
       log b ++ [EvCall BotGroupMetadata g; EvWarn 1 true; EvSleep 300;
                 EvCall BotGroupMetadata g; EvWarn 2 true; EvSleep 600;
                 EvCall BotGroupMetadata g; EvWarn 3 true; EvError]).
Proof.
  intros Hg Hfree Hf Hh Hmd.
  rewrite (fetch_fresh g b Hg Hfree). cbn [fst snd]. split.
  - intros Hnone. unfold retryLoop, candidates, firstTruthy, tryMethod.
    cbn [methodOf]. rewrite Hf, Hnone. cbn [methodOf tick emit sock_groupMetadata].
    rewrite Hh, Hmd. cbn [fst snd log setFetches tick emit].
    split; [done|]. by rewrite <- app_assoc.
  - intros Hthrow.
    assert (Hstep : forall r i b0, groupMetadata b0 = Some f ->
              retryLoop (S r) i g b0 =
                retryLoop r (S i) g
                  (let b2 := emit (EvWarn (i + 1) true)
                               (tick (emit (EvCall BotGroupMetadata g) b0)) in
                   if (i <? 2)%nat then emit (EvSleep (300 * (Z.of_nat i + 1))) b2
                   else b2)).
    { intros r i b0 Hf0. cbn [retryLoop]. unfold candidates.
      by rewrite (firstTruthy_throws f _ g b0 Hf0 (Hthrow _)). }
    rewrite (Hstep 2%nat 0%nat b Hf). cbv zeta. cbn [Nat.ltb Nat.leb].
    rewrite Hstep by done. cbv zeta. cbn [Nat.ltb Nat.leb].
    rewrite Hstep by done. cbv zeta. cbn [Nat.ltb Nat.leb retryLoop fst snd].
    split; [done|]. cbn [log setFetches emit tick]. simpl.
    by rewrite <- !app_assoc.
Qed.

Lemma fallback_covers_empty_answers_only_witness :
  ((fun (_ : nat) (_ : string) => Returns None) (calls silentFront) "g@g.us" = Returns None ->
     (fetchGroupMetadataDeduped "g@g.us" silentFront).1 = Some ledGroup /\
     log (fetchGroupMetadataDeduped "g@g.us" silentFront).2 =
       log silentFront ++ [EvCall BotGroupMetadata "g@g.us";
                           EvCall SockGroupMetadata "g@g.us"]) /\
  ((forall n, (fun (_ : nat) (_ : string) => Returns None) n "g@g.us" = Throws) ->
     (fetchGroupMetadataDeduped "g@g.us" silentFront).1 = None /\
     log (fetchGroupMetadataDeduped "g@g.us" silentFront).2 =
       log silentFront ++
         [EvCall BotGroupMetadata "g@g.us"; EvWarn 1 true; EvSleep 300;
          EvCall BotGroupMetadata "g@g.us"; EvWarn 2 true; EvSleep 600;
          EvCall BotGroupMetadata "g@g.us"; EvWarn 3 true; EvError]).
Proof.
  apply (fallback_covers_empty_answers_only silentFront "g@g.us"
           (fun _ _ => Returns None) (fun _ _ => Returns (Some ledGroup)) ledGroup);
    try reflexivity.
  discriminate.
Defined.

(** The two bots of the definitions: with a [groupMetadata] that rejects the
    answer of the socket is never fetched; with one that resolves to nothing
    it is. *)
Example broken_and_silent_front :
  (fetchGroupMetadataDeduped "g@g.us" brokenFront).1 = None /\
  (fetchGroupMetadataDeduped "g@g.us" silentFront).1 = Some ledGroup.
Proof. by vm_compute. Qed.

End IsAdminFacts.

(* ===================================================================== *)
(** * Facts about carl/antilink.js                                         *)
(* ===================================================================== *)

Module AntilinkFacts.
Import Js Antilink.

Section Projections.

Lemma enqueuedFor_app g l1 l2 :
  enqueuedFor g (l1 ++ l2) = enqueuedFor g l1 ++ enqueuedFor g l2.
Proof. apply omap_app. Qed.

Lemma attemptsFor_app g l1 l2 :
  attemptsFor g (l1 ++ l2) = attemptsFor g l1 ++ attemptsFor g l2.
Proof. apply omap_app. Qed.

Lemma pcsOf_app g l1 l2 : pcsOf g (l1 ++ l2) = pcsOf g l1 ++ pcsOf g l2.
Proof. apply omap_app. Qed.

Lemma inChat_true g c : chatIdOf c = Some g -> inChat g c = true.
Proof. intros H. by apply bool_decide_eq_true. Qed.

Lemma inChat_other g g0 c : chatIdOf c = Some g0 -> g <> g0 -> inChat g c = false.
Proof. intros H Hne. apply bool_decide_eq_false. congruence. Qed.

Lemma blocks_app d1 d2 : blocks (d1 ++ d2) = blocks d1 ++ blocks d2.
Proof. apply flat_map_app. Qed.

Lemma attemptsOf_S c i : attemptsOf (c, S i) = attemptsOf (c, i) ++ [(c, S i)].
Proof. unfold attemptsOf. simpl fst. simpl snd. rewrite seq_S, map_app. done. Qed.

Lemma blocks_retry done c i :
  blocks (done ++ [(c, S i)]) = blocks (done ++ [(c, i)]) ++ [(c, S i)].
Proof.
  rewrite !blocks_app. unfold blocks. cbn [flat_map]. rewrite !app_nil_r.
  by rewrite attemptsOf_S, app_assoc.
Qed.

Lemma blocks_first done c : blocks (done ++ [(c, 1%nat)]) = blocks done ++ [(c, 1%nat)].
Proof. rewrite blocks_app. done. Qed.

Lemma trace_record e s : trace (record e s) = trace s ++ [e].
Proof. reflexivity. Qed.

Lemma attemptsFor_attempt g tr c i :
  attemptsFor g (tr ++ [DeleteAttempt c i]) =
    attemptsFor g tr ++ (if inChat g c then [(c, i)] else []).
Proof. rewrite attemptsFor_app. simpl. by destruct (inChat g c). Qed.

Lemma attemptsFor_other g tr e :
  match e with DeleteAttempt _ _ => False | _ => True end ->
  attemptsFor g (tr ++ [e]) = attemptsFor g tr.
Proof. intros He. rewrite attemptsFor_app. destruct e; simpl; by rewrite ?app_nil_r. Qed.

Lemma enqueuedFor_enqueued g tr c :
  enqueuedFor g (tr ++ [Enqueued c]) =
    enqueuedFor g tr ++ (if inChat g c then [c] else []).
Proof. rewrite enqueuedFor_app. simpl. by destruct (inChat g c). Qed.

Lemma enqueuedFor_other g tr e :
  match e with Enqueued _ => False | _ => True end ->
  enqueuedFor g (tr ++ [e]) = enqueuedFor g tr.
Proof. intros He. rewrite enqueuedFor_app. destruct e; simpl; by rewrite ?app_nil_r. Qed.

Lemma sameView_refl g s : sameView g s s.
Proof. by split. Qed.

Lemma sameView_trans g s1 s2 s3 : sameView g s1 s2 -> sameView g s2 s3 -> sameView g s1 s3.
Proof. intros [] []; split; congruence. Qed.

Lemma drainInv_ext g s s' p :
  queueOf g s' = queueOf g s ->
  enqueuedFor g (trace s') = enqueuedFor g (trace s) ->
  attemptsFor g (trace s') = attemptsFor g (trace s) ->
  drainInv g s p -> drainInv g s' p.
Proof.
  intros Hq He Ha [H1 H2 (done & Hd & Henq & Hatt)].
  split; [by rewrite Hq|done|]. exists done. by rewrite Hq, He, Ha.
Qed.

Lemma drainInv_view g s s' p : sameView g s s' -> drainInv g s p -> drainInv g s' p.
Proof. intros [Hq _ He Ha]. by apply drainInv_ext. Qed.

End Projections.

Section Operations.
Variable cfg : config.

Lemma touches_refl g s : touches g s s.
Proof. split; [intros; apply sameView_refl|done|done]. Qed.

Lemma touches_trans g s1 s2 s3 : touches g s1 s2 -> touches g s2 s3 -> touches g s1 s3.
Proof.
  intros [] []; split; try congruence.
  intros g' Hg'. eapply sameView_trans; eauto.
Qed.

Lemma ofChat_truthy g c : ofChat g c -> truthy (chatIdOf c) = true.
Proof.
  intros [-> Hne]. simpl. apply negb_true_iff. by apply String.eqb_neq.
Qed.

Lemma touches_attempt g c i s :
  ofChat g c -> touches g s (record (DeleteAttempt c i) s).
Proof.
  intros [Hc _]. split; [|done|done]. intros g' Hne. split; [done|done| |].
  - rewrite trace_record. by apply enqueuedFor_other.
  - rewrite trace_record, attemptsFor_attempt, (inChat_other g' g c Hc Hne).
    by rewrite app_nil_r.
Qed.

Lemma touches_silent g e s :
  match e with Enqueued _ | DeleteAttempt _ _ => False | _ => True end ->
  touches g s (record e s).
Proof.
  intros He. split; [|done|done]. intros g' _.
  split; [done|done| |]; rewrite trace_record.
  - apply enqueuedFor_other. by destruct e.
  - apply attemptsFor_other. by destruct e.
Qed.

Lemma sameView_silent g e s :
  match e with Enqueued _ | DeleteAttempt _ _ => False | _ => True end ->
  sameView g s (record e s).
Proof.
  intros He.
  split; [done|done| |]; rewrite trace_record.
  - apply enqueuedFor_other. by destruct e.
  - apply attemptsFor_other. by destruct e.
Qed.

(** The next action of the batch gets its first deletion attempt. *)
Lemma continueBatch_inv g batch s :
  drainInv g s (Some (AwaitWarning batch)) ->
  drainInv g (continueBatch g batch s).1 (Some (continueBatch g batch s).2) /\
  touches g s (continueBatch g batch s).1.
Proof.
  intros [Hq Hh (done & Hd & Henq & Hatt)]. simpl in *.
  destruct batch as [|c rest]; simpl.
  - rewrite app_nil_r in Hd, Hatt.
    destruct (nonEmpty (queueOf g s)); simpl;
      (split; [|apply touches_refl]); split; try done; exists done;
      simpl; by rewrite ?app_nil_r.
  - apply Forall_cons in Hh as [Hc Hrest].
    unfold startDelete. rewrite (ofChat_truthy g c Hc). simpl.
    split; [|by apply touches_attempt].
    split; simpl; [done|by constructor|].
    exists done. rewrite app_nil_r in Hd, Hatt. split; [|split].
    + apply Forall_app. split; [done|]. apply Forall_singleton. simpl. lia.
    + rewrite enqueuedFor_other by done. exact Henq.
    + rewrite attemptsFor_attempt, (inChat_true g c) by apply Hc.
      by rewrite blocks_first, Hatt.
Qed.

Lemma drainInv_pc g s p p' :
  current p' = current p -> waiting p' = waiting p ->
  drainInv g s p -> drainInv g s p'.
Proof.
  intros Hc Hw [H1 H2 (done & H3)].
  split; [done|by rewrite Hc, Hw|]. exists done. by rewrite Hc, Hw.
Qed.

(** The action being deleted is over: it joins the finished ones. *)
Lemma drainInv_finished g s c i rest p :
  current (Some p) = [(c, i)] -> waiting (Some p) = rest ->
  drainInv g s (Some p) -> drainInv g s (Some (AwaitWarning rest)).
Proof.
  intros Hc Hw [H1 H2 (done & Hd & Henq & Hatt)]. rewrite Hc, Hw in *.
  split; simpl in *; [done|by apply Forall_cons in H2 as [_ ?]|].
  exists (done ++ [(c, i)]). rewrite app_nil_r.
  split; [done|]. split; [|done].
  rewrite Henq, map_app. simpl. by rewrite <- !app_assoc.
Qed.

Lemma queueOf_insert g q s :
  queueOf g (setQueue (<[g := q]> (perChatQueue s)) s) = q.
Proof. unfold queueOf. simpl. by rewrite lookup_insert_eq. Qed.

Lemma queueOf_insert_ne g g' q s :
  g' <> g -> queueOf g' (setQueue (<[g := q]> (perChatQueue s)) s) = queueOf g' s.
Proof. intros Hne. unfold queueOf. simpl. by rewrite lookup_insert_ne. Qed.

Lemma touches_setQueue g q s : touches g s (setQueue (<[g := q]> (perChatQueue s)) s).
Proof.
  split; [|done|done]. intros g' Hne. split; try done. by apply queueOf_insert_ne.
Qed.

(** A batch is spliced off the front of the queue. *)
Lemma processChatQueue_inv g s :
  drainInv g s None ->
  drainInv g (processChatQueue cfg g s).1 (Some (processChatQueue cfg g s).2) /\
  touches g s (processChatQueue cfg g s).1.
Proof.
  intros Hinv. unfold processChatQueue.
  destruct (nonEmpty (queueOf g s) && negb (shuttingDown s)).
  - set (n := Z.to_nat (orOne (BATCH_SIZE cfg))). set (q := queueOf g s).
    set (s1 := setQueue (<[g := drop n q]> (perChatQueue s)) s).
    assert (H1 : drainInv g s1 (Some (AwaitWarning (take n q)))).
    { destruct Hinv as [Hq _ (done & Hd & Henq & Hatt)]. simpl in *.
      split; simpl; unfold s1; rewrite ?queueOf_insert.
      - by apply Forall_drop.
      - by apply Forall_take.
      - exists done. rewrite app_nil_r in *. split; [done|]. split; [|done].
        fold q in Henq. by rewrite take_drop. }
    destruct (continueBatch_inv g (take n q) s1 H1) as [H2 H3].
    split; [done|]. eapply touches_trans; [apply touches_setQueue|exact H3].
  - simpl. split; [|apply touches_refl]. by eapply drainInv_pc; [| |exact Hinv].
Qed.

Lemma sameView_setWarnings g w s : sameView g s (setWarnings w s).
Proof. by split. Qed.

Lemma touches_sendWarning g c n s : touches g s (sendWarning cfg c n s).
Proof.
  unfold sendWarning. destruct (SEND_WARNING cfg); [|apply touches_refl].
  by apply touches_silent.
Qed.

Lemma touches_forward g c s : touches g s (forwardDeletedLink cfg c s).
Proof.
  unfold forwardDeletedLink. destruct (LOG_DELETED_LINKS cfg); [|apply touches_refl].
  by apply touches_silent.
Qed.

Lemma sameView_sendWarning g c n s : sameView g s (sendWarning cfg c n s).
Proof.
  unfold sendWarning. destruct (SEND_WARNING cfg); [|apply sameView_refl].
  by apply sameView_silent.
Qed.

Lemma sameView_forward g c s : sameView g s (forwardDeletedLink cfg c s).
Proof.
  unfold forwardDeletedLink. destruct (LOG_DELETED_LINKS cfg); [|apply sameView_refl].
  by apply sameView_silent.
Qed.

Lemma touches_setWarnings g w s : touches g s (setWarnings w s).
Proof. split; [|done|done]. intros; by split. Qed.

Lemma processingOf_insert g v a s :
  processingOf g (setProcessing (<[g := v]> (perChatProcessing s)) a s) = v.
Proof. unfold processingOf. simpl. by rewrite lookup_insert_eq. Qed.

Lemma sameView_setProcessing g g' v a s :
  g' <> g -> sameView g' s (setProcessing (<[g := v]> (perChatProcessing s)) a s).
Proof.
  intros Hne. split; try done. unfold processingOf. simpl.
  by rewrite lookup_insert_ne.
Qed.

Lemma sameView_setTimeout g c ms s : sameView g s (setTimeout c ms s).
Proof. by split. Qed.

(** One more stretch of a suspended drain. *)
Lemma resume_inv g p ok s :
  drainInv g s (Some p) ->
  drainInv g (resume cfg g p ok s).1 (resume cfg g p ok s).2 /\
  (forall g', g' <> g -> sameView g' s (resume cfg g p ok s).1) /\
  tasks (resume cfg g p ok s).1 = tasks s /\
  match (resume cfg g p ok s).2 with
  | Some _ => processingOf g (resume cfg g p ok s).1 = processingOf g s
  | None => processingOf g (resume cfg g p ok s).1 = false
  end.
Proof.
  intros Hinv.
  assert (Hcont : forall rest s0,
    drainInv g s0 (Some (AwaitWarning rest)) -> touches g s s0 ->
    let r := continueBatch g rest s0 in
    drainInv g r.1 (Some r.2) /\ (forall g', g' <> g -> sameView g' s r.1) /\
    tasks r.1 = tasks s /\ processingOf g r.1 = processingOf g s).
  { intros rest s0 H0 Ht0. destruct (continueBatch_inv g rest s0 H0) as [H1 H2].
    pose proof (touches_trans _ _ _ _ Ht0 H2) as [Ho Ht Hf]. done. }
  assert (Hstay : forall s0 p0,
    drainInv g s0 (Some p0) -> touches g s s0 ->
    drainInv g s0 (Some p0) /\ (forall g', g' <> g -> sameView g' s s0) /\
    tasks s0 = tasks s /\ processingOf g s0 = processingOf g s).
  { intros s0 p0 H0 [Ho Ht Hf]. done. }
  destruct p as [c i rest|c i rest|rest|c rest|c chat sender n rest|rest| |];
    cbn [resume].
  - (* the deletion settled *)
    pose proof (drainInv_finished g s c i rest (AwaitDelete c i rest)
                  eq_refl eq_refl Hinv) as Hfin.
    destruct ok.
    + cbn [fst snd]. apply Hstay; [|apply touches_forward].
      eapply drainInv_view; [apply sameView_forward|].
      by eapply drainInv_pc; [| |exact Hfin].
    + destruct (Z.of_nat i <? deleteAttempts cfg).
      * cbn [fst snd]. apply Hstay; [|apply touches_refl].
        by eapply drainInv_pc; [| |exact Hinv].
      * specialize (Hcont rest s). destruct (continueBatch g rest s) as [s1 p1].
        apply Hcont; [exact Hfin|apply touches_refl].
  - (* the pause before the next attempt is over *)
    cbn [fst snd]. destruct Hinv as [Hq Hh (done & Hd & Henq & Hatt)].
    cbn [current waiting map fst app] in *.
    assert (Hc : ofChat g c) by by apply Forall_cons in Hh as [? _].
    apply Hstay; [|by apply touches_attempt].
    split; simpl; [done|done|]. exists done. split; [|split].
    + apply Forall_app in Hd as [Hd1 _]. apply Forall_app. split; [done|].
      apply Forall_singleton. simpl. lia.
    + rewrite enqueuedFor_other by done. exact Henq.
    + rewrite attemptsFor_attempt, (inChat_true g c) by apply Hc.
      by rewrite blocks_retry, Hatt.
  - specialize (Hcont rest s). destruct (continueBatch g rest s) as [s1 p1].
    apply Hcont; [|apply touches_refl]. by eapply drainInv_pc; [| |exact Hinv].
  - (* the ledger is updated *)
    destruct (beginWarning cfg c (perUserWarnings s)) as [w1 [r|chat sender n]];
      cbn [fst snd].
    + apply Hstay.
      * eapply drainInv_view; [apply sameView_sendWarning|].
        eapply drainInv_view; [apply (sameView_setWarnings g w1)|].
        by eapply drainInv_pc; [| |exact Hinv].
      * eapply touches_trans; [apply (touches_setWarnings g w1)|apply touches_sendWarning].
    + apply Hstay.
      * eapply drainInv_view; [by apply sameView_silent|].
        eapply drainInv_view; [apply (sameView_setWarnings g w1)|].
        by eapply drainInv_pc; [| |exact Hinv].
      * eapply touches_trans; [apply (touches_setWarnings g w1)|by apply touches_silent].
  - (* the removal settled *)
    destruct (endRemoval chat sender n ok (perUserWarnings s)) as [w2 r].
    destruct (removed r).
    + specialize (Hcont rest (setWarnings w2 s)).
      destruct (continueBatch g rest (setWarnings w2 s)) as [s1 p1].
      apply Hcont; [|apply touches_setWarnings].
      eapply drainInv_view; [apply (sameView_setWarnings g w2)|].
      by eapply drainInv_pc; [| |exact Hinv].
    + cbn [fst snd]. apply Hstay.
      * eapply drainInv_view; [apply sameView_sendWarning|].
        eapply drainInv_view; [apply (sameView_setWarnings g w2)|].
        by eapply drainInv_pc; [| |exact Hinv].
      * eapply touches_trans; [apply (touches_setWarnings g w2)|apply touches_sendWarning].
  - specialize (Hcont rest s). destruct (continueBatch g rest s) as [s1 p1].
    apply Hcont; [|apply touches_refl]. by eapply drainInv_pc; [| |exact Hinv].
  - (* the pause between batches is over *)
    destruct (processChatQueue_inv g s) as [H1 [Ho Ht Hf]].
    { by eapply drainInv_pc; [| |exact Hinv]. }
    destruct (processChatQueue cfg g s) as [s1 p1]. done.
  - (* the finally block *)
    simpl.
    set (s1 := setProcessing (<[g := false]> (perChatProcessing s)) (activeChats s - 1) s).
    assert (Hv : forall g', sameView g' s1
              (if nonEmpty (queueOf g s1) then setTimeout (TryStart g) 0 s1 else s1)).
    { intros g'. destruct (nonEmpty _); [apply sameView_setTimeout|apply sameView_refl]. }
    split; [|split; [|split]].
    + eapply drainInv_view; [apply Hv|].
      apply (drainInv_ext g s s1); [done|done|done|].
      by eapply drainInv_pc; [| |exact Hinv].
    + intros g' Hne. eapply sameView_trans; [|apply Hv].
      by apply sameView_setProcessing.
    + by destruct (nonEmpty _).
    + rewrite (view_flag _ _ _ (Hv g)). apply processingOf_insert.
Qed.

End Operations.

Section Machine.
Variable cfg : config.

Lemma chatInv_transfer g s s' :
  sameView g s s' -> pcsOf g (tasks s') = pcsOf g (tasks s) ->
  chatInv g s -> chatInv g s'.
Proof.
  intros Hv Hp [H1 H2 H3]. split; rewrite Hp; [done| |by eapply drainInv_view].
  intros Hne. rewrite (view_flag _ _ _ Hv). by apply H2.
Qed.

Lemma pcsOf_one g p : pcsOf g [(g, p)] = [p].
Proof. unfold pcsOf. simpl. by rewrite decide_True. Qed.

Lemma pcsOf_one_ne g g' p : g' <> g -> pcsOf g' [(g, p)] = [].
Proof. intros Hne. unfold pcsOf. simpl. by rewrite decide_False. Qed.

Lemma initial_inv t0 : queueInv (initial t0).
Proof.
  intros g. split; simpl.
  - lia.
  - intros H. by elim H.
  - split.
    + unfold queueOf. simpl. rewrite lookup_empty. apply Forall_nil_2.
    + apply Forall_nil_2.
    + exists []. split; [apply Forall_nil_2|]. split; [|done].
      unfold queueOf. simpl. by rewrite lookup_empty.
Qed.

Lemma tryStart_inv g s :
  queueInv s -> queueInv (tryStartProcessingForChat cfg g s).
Proof.
  intros Hinv. unfold tryStartProcessingForChat.
  destruct (processingOf g s || shuttingDown s) eqn:Hbusy; [done|].
  destruct (orOne (GLOBAL_CONCURRENCY cfg) <=? activeChats s).
  { intros g'. by apply (chatInv_transfer g' s). }
  apply orb_false_iff in Hbusy as [Hflag _].
  destruct (Hinv g) as [_ Hf Hd].
  assert (Hnone : pcsOf g (tasks s) = []).
  { destruct (pcsOf g (tasks s)) eqn:E; [done|].
    rewrite Hf in Hflag; done. }
  rewrite Hnone in Hd. simpl in Hd.
  set (s1 := setProcessing (<[g := true]> (perChatProcessing s)) (activeChats s + 1) s).
  assert (Hd1 : drainInv g s1 None) by by apply (drainInv_ext g s s1).
  destruct (processChatQueue_inv cfg g s1 Hd1) as [Hd2 [Ho Ht Hfl]].
  destruct (processChatQueue cfg g s1) as [s2 p]. simpl in *.
  intros g'. destruct (decide (g' = g)) as [->|Hne].
  - split; simpl.
    + rewrite pcsOf_app, Ht, pcsOf_one. simpl. rewrite Hnone. simpl. lia.
    + intros _. change (processingOf g s2 = true). rewrite Hfl.
      apply processingOf_insert.
    + rewrite pcsOf_app, Ht, pcsOf_one. simpl. rewrite Hnone. simpl.
      by apply (drainInv_ext g s2).
  - apply (chatInv_transfer g' s); [| |apply Hinv].
    + eapply sameView_trans; [by apply (sameView_setProcessing g g' true)|].
      eapply sameView_trans; [by apply Ho|]. by split.
    + simpl. rewrite pcsOf_app, Ht, pcsOf_one_ne by done. by rewrite app_nil_r.
Qed.

Lemma enqueueDeletion_inv c s :
  queueInv s -> queueInv (enqueueDeletion cfg c s).
Proof.
  intros Hinv. unfold enqueueDeletion.
  destruct (chatIdOf c) as [g|] eqn:Hc; [|done].
  destruct (String.eqb_spec g "") as [|Hne]; [done|].
  set (s1 := record (Enqueued c)
               (setQueue (<[g := queueOf g s ++ [c]]> (perChatQueue s)) s)).
  assert (H1 : queueInv s1).
  { intros g'. destruct (decide (g' = g)) as [->|Hg'].
    - destruct (Hinv g) as [Ha Hb [Hq Hh (done & Hd & Henq & Hatt)]].
      split; [done|done|]. split.
      + unfold s1. change (queueOf g (record ?e ?s)) with (queueOf g s).
        rewrite queueOf_insert. apply Forall_app. split; [done|].
        by apply Forall_singleton.
      + done.
      + exists done. split; [done|]. unfold s1.
        change (queueOf g (record ?e ?s)) with (queueOf g s).
        rewrite queueOf_insert, trace_record. simpl trace.
        rewrite enqueuedFor_enqueued, (inChat_true g c Hc), Henq.
        rewrite attemptsFor_other by done. split; [|done].
        by rewrite <- !app_assoc.
    - apply (chatInv_transfer g' s); [| done |apply Hinv].
      split; [by apply queueOf_insert_ne|done| |].
      + unfold s1. rewrite trace_record. simpl trace.
        rewrite enqueuedFor_enqueued, (inChat_other g' g c Hc Hg').
        by rewrite app_nil_r.
      + unfold s1. rewrite trace_record. by apply attemptsFor_other. }
  destruct (processingOf g s1); [done|]. by apply tryStart_inv.
Qed.

Lemma acceptViolation_inv c s :
  queueInv s -> queueInv (acceptViolation cfg c s).
Proof.
  intros Hinv. unfold acceptViolation. case_bool_decide; [done|].
  apply enqueueDeletion_inv. intros g. by apply (chatInv_transfer g s).
Qed.

Lemma onMessage_cases env c s :
  onMessage cfg env c s = s \/ onMessage cfg env c s = acceptViolation cfg c s.
Proof.
  unfold onMessage.
  repeat (match goal with
          | |- context [match ?x with _ => _ end] => destruct x
          end; auto).
Qed.

Lemma pcsOf_at g p n (ts : list (string * pc)) :
  ts !! n = Some (g, p) ->
  (forall g', g' <> g -> pcsOf g' (delete n ts) = pcsOf g' ts) /\
  pcsOf g ts = pcsOf g (take n ts) ++ [p] ++ pcsOf g (drop (S n) ts) /\
  pcsOf g (delete n ts) = pcsOf g (take n ts) ++ pcsOf g (drop (S n) ts).
Proof.
  intros Hn. rewrite delete_take_drop.
  pose proof (take_drop_middle ts n (g, p) Hn) as Hmid.
  set (l1 := take n ts) in *. set (l2 := drop (S n) ts) in *.
  clearbody l1 l2. subst ts.
  change ((g, p) :: l2) with ([(g, p)] ++ l2).
  split; [|split].
  - intros g' Hne. by rewrite !pcsOf_app, pcsOf_one_ne.
  - by rewrite !pcsOf_app, pcsOf_one.
  - by rewrite pcsOf_app.
Qed.

Lemma step_inv l s s' : step cfg l s = Some s' -> queueInv s -> queueInv s'.
Proof.
  destruct l as [env c|n|n ok|d]; simpl.
  - intros [= <-] Hinv.
    destruct (onMessage_cases env c s) as [->| ->]; [done|].
    by apply acceptViolation_inv.
  - destruct (timers s !! n) as [t|]; [|done].
    destruct (due t <=? now s); [|done]. intros [= <-] Hinv.
    assert (H0 : queueInv (setTimers (delete n (timers s)) s)).
    { intros g. by apply (chatInv_transfer g s). }
    destruct (cb t) as [k|g]; simpl.
    + intros g. by eapply chatInv_transfer; [| |apply H0].
    + by apply tryStart_inv.
  - destruct (tasks s !! n) as [[g p]|] eqn:Hn; [|done].
    intros Hs Hinv.
    destruct (pcsOf_at g p n (tasks s) Hn) as (Hother & Hall & Hdel).
    destruct (Hinv g) as [Hlen Hflag Hdrain].
    assert (Hnil : pcsOf g (take n (tasks s)) = [] /\ pcsOf g (drop (S n) (tasks s)) = []).
    { rewrite Hall, !length_app in Hlen. simpl in Hlen.
      split; apply length_zero_iff_nil; lia. }
    destruct Hnil as [Hn1 Hn2]. rewrite Hn1, Hn2 in Hall, Hdel. simpl in Hall, Hdel.
    rewrite Hall in Hdrain, Hflag. simpl in Hdrain.
    set (s0 := setTasks (delete n (tasks s)) s) in *.
    assert (Hd0 : drainInv g s0 (Some p)) by by apply (drainInv_ext g s s0).
    destruct (resume_inv cfg g p ok s0 Hd0) as (Hd1 & Ho & Ht & Hf).
    destruct (resume cfg g p ok s0) as [s1 next]. simpl in *.
    injection Hs as <-. intros g'.
    destruct (decide (g' = g)) as [->|Hne].
    + destruct next as [p1|].
      * split; simpl.
        -- rewrite pcsOf_app, Ht, Hdel, pcsOf_one. simpl. lia.
        -- intros _. change (processingOf g s1 = true). rewrite Hf.
           change (processingOf g s = true). by apply Hflag.
        -- rewrite pcsOf_app, Ht, Hdel, pcsOf_one. simpl.
           by apply (drainInv_ext g s1).
      * split; rewrite Ht, Hdel; simpl; [lia|done|done].
    + apply (chatInv_transfer g' s); [| |apply Hinv].
      * eapply (sameView_trans g' s s0); [by split|].
        eapply sameView_trans; [by apply Ho|]. by destruct next.
      * destruct next as [p1|]; simpl.
        -- rewrite pcsOf_app, Ht, pcsOf_one_ne by done. rewrite app_nil_r.
           by apply Hother.
        -- rewrite Ht. by apply Hother.
  - destruct (0 <=? d); [|done]. intros [= <-] Hinv g.
    by apply (chatInv_transfer g s).
Qed.

Lemma run_inv ls s s' : run cfg ls s = Some s' -> queueInv s -> queueInv s'.
Proof.
  revert s; induction ls as [|l ls IH]; intros s; simpl.
  - by intros [= <-].
  - destruct (step cfg l s) as [s1|] eqn:E; [|done].
    intros Hr Hinv. eapply IH; [exact Hr|]. by eapply step_inv.
Qed.

Lemma started_blocks done :
  Forall (fun d : context * nat => (1 <= d.2)%nat) done ->
  map fst (List.filter (fun a : context * nat => Nat.eqb a.2 1) (blocks done)) = map fst done.
Proof.
  induction 1 as [|[c k] done Hk _ IH]; [done|].
  change (blocks ((c, k) :: done)) with (attemptsOf (c, k) ++ blocks done).
  rewrite List.filter_app, map_app, IH. simpl. f_equal.
  destruct k as [|k]; [simpl in Hk; lia|].
  unfold attemptsOf. simpl. f_equal.
  assert (H : forall a n, List.filter (fun a : context * nat => Nat.eqb a.2 1)
                       (map (fun i => (c, i)) (seq (S (S a)) n)) = []).
  { intros a n. revert a. induction n as [|n IHn]; intros a; simpl; [done|]. apply IHn. }
  by rewrite H.
Qed.

End Machine.


Section Counting.






End Counting.



(** The run of the witness: A1 is deleted at the second attempt, then A2 and
    A3, each at the first. *)
Example three_violations_attempts :
  enqueuedFor "g@g.us" (trace afterThreeViolations) = [A1; A2; A3] /\
  attemptsFor "g@g.us" (trace afterThreeViolations) =
    [(A1, 1%nat); (A1, 2%nat); (A2, 1%nat); (A3, 1%nat)].
Proof. split; vm_compute; reflexivity. Qed.

Section Dedup.
Variable cfg : config.

Lemma quiet_refl s : quiet s s.
Proof. by split. Qed.

Lemma quiet_trans s1 s2 s3 : quiet s1 s2 -> quiet s2 s3 -> quiet s1 s3.
Proof. intros [] []; split; congruence. Qed.

Lemma enqueuedLike_snoc c1 tr e :
  enqueuedLike c1 (tr ++ [e]) =
    (enqueuedLike c1 tr +
     match e with
     | Enqueued c => if samePair c1 c then 1 else 0
     | _ => 0
     end)%nat.
Proof.
  unfold enqueuedLike. rewrite List.filter_app, length_app. f_equal.
  destruct e; simpl; try done. by destruct (samePair _ _).
Qed.

Lemma quiet_record e s :
  match e with Enqueued _ => False | _ => True end -> quiet s (record e s).
Proof.
  intros He. split; try done. intros k. rewrite trace_record, enqueuedLike_snoc.
  destruct e; simpl; try done; lia.
Qed.

Lemma forgetTimers_setTimeout c ms s :
  forgetTimers (setTimeout c ms s) =
    forgetTimers s ++
    match c with ForgetMessage k => [(k, now s + ms)] | TryStart _ => [] end.
Proof. unfold forgetTimers. simpl. rewrite omap_app. by destruct c. Qed.

Lemma quiet_tryLater g ms s : quiet s (setTimeout (TryStart g) ms s).
Proof.
  split; try done. rewrite forgetTimers_setTimeout. by rewrite app_nil_r.
Qed.

Lemma quiet_continueBatch g batch s : quiet s (continueBatch g batch s).1.
Proof.
  destruct batch as [|c rest]; simpl.
  - destruct (nonEmpty _); apply quiet_refl.
  - unfold startDelete. destruct (truthy _); simpl; [by apply quiet_record|apply quiet_refl].
Qed.

Lemma quiet_processChatQueue g s : quiet s (processChatQueue cfg g s).1.
Proof.
  unfold processChatQueue. destruct (_ && _); [|apply quiet_refl].
  eapply quiet_trans; [|apply quiet_continueBatch]. by split.
Qed.

Lemma quiet_tryStart g s : quiet s (tryStartProcessingForChat cfg g s).
Proof.
  unfold tryStartProcessingForChat.
  destruct (_ || _); [apply quiet_refl|].
  destruct (_ <=? _); [apply quiet_tryLater|].
  set (s1 := setProcessing _ _ s).
  pose proof (quiet_processChatQueue g s1) as H.
  destruct (processChatQueue cfg g s1) as [s2 p]. simpl in *.
  eapply quiet_trans; [|eapply quiet_trans; [exact H|]]; by split.
Qed.

Lemma quiet_sendWarning c n s : quiet s (sendWarning cfg c n s).
Proof.
  unfold sendWarning. destruct (SEND_WARNING cfg); [by apply quiet_record|apply quiet_refl].
Qed.

Lemma quiet_resume g p ok s : quiet s (resume cfg g p ok s).1.
Proof.
  assert (Hc : forall rest s0, quiet s s0 ->
            quiet s (let '(s1, p1) := continueBatch g rest s0 in (s1, Some p1)).1).
  { intros rest s0 H0. pose proof (quiet_continueBatch g rest s0) as H.
    destruct (continueBatch g rest s0). simpl in *. by eapply quiet_trans. }
  destruct p as [c i rest|c i rest|rest|c rest|c chat sender n rest|rest| |];
    cbn [resume].
  - destruct ok; simpl.
    + unfold forwardDeletedLink. destruct (LOG_DELETED_LINKS cfg);
        [by apply quiet_record|apply quiet_refl].
    + destruct (_ <? _); [apply quiet_refl|]. apply Hc, quiet_refl.
  - by apply quiet_record.
  - apply Hc, quiet_refl.
  - destruct (beginWarning cfg c (perUserWarnings s)) as [w1 [r|chat sender n]]; simpl.
    + eapply quiet_trans; [|apply quiet_sendWarning]. by split.
    + eapply quiet_trans; [|by apply quiet_record]. by split.
  - destruct (endRemoval chat sender n ok (perUserWarnings s)) as [w2 r].
    destruct (removed r).
    + apply Hc. by split.
    + simpl. eapply quiet_trans; [|apply quiet_sendWarning]. by split.
  - apply Hc, quiet_refl.
  - pose proof (quiet_processChatQueue g s) as H.
    by destruct (processChatQueue cfg g s).
  - simpl. destruct (nonEmpty _).
    + eapply quiet_trans; [|apply quiet_tryLater]. by split.
    + by split.
Qed.

(** [enqueueDeletion] only adds to the enqueue log. *)
Lemma enqueueDeletion_dedup c s :
  let s' := enqueueDeletion cfg c s in
  processedMessageIds s' = processedMessageIds s /\
  forgetTimers s' = forgetTimers s /\
  now s' = now s /\ shuttingDown s' = shuttingDown s /\
  forall c1, enqueuedLike c1 (trace s') =
    (enqueuedLike c1 (trace s) +
     if truthy (chatIdOf c) && samePair c1 c then 1 else 0)%nat.
Proof.
  unfold enqueueDeletion. destruct (chatIdOf c) as [g|]; simpl.
  2: { repeat split; first [done | intros; lia]. }
  destruct (String.eqb g ""); simpl.
  { repeat split; first [done | intros; lia]. }
  set (s1 := record (Enqueued c) _).
  assert (H1 : forall c1, enqueuedLike c1 (trace s1) =
    (enqueuedLike c1 (trace s) + if samePair c1 c then 1 else 0)%nat).
  { intros k. unfold s1. by rewrite trace_record, enqueuedLike_snoc. }
  destruct (processingOf g s1); [done|].
  destruct (quiet_tryStart g s1) as [Ha Hb Hc Hd He].
  split; [by rewrite Ha|]. split; [by rewrite Hb|]. split; [by rewrite Hc|].
  split; [by rewrite Hd|]. intros k. by rewrite He, H1.
Qed.

Lemma onMessage_violation env c s :
  shuttingDown s = false ->
  onMessage cfg env c s =
    if isViolation env c then acceptViolation cfg c s else s.
Proof.
  intros Hrun. unfold onMessage, isViolation. rewrite Hrun.
  destruct (chatIdOf c) as [remote|]; [|done].
  destruct (message c); [|done].
  rewrite orb_false_r.
  destruct (String.eqb remote ""); [done|].
  destruct (isKnownCommand c); [done|].
  destruct (endsWith remote "@g.us"); [|done].
  destruct (enabled (setting env)); [|done].
  destruct (fromMeOf c || admin env); [done|].
  destruct (isWhitelisted _ _ _); [done|].
  by destruct (containsLink env).
Qed.

Lemma isViolation_chat env c : isViolation env c = true -> truthy (chatIdOf c) = true.
Proof.
  unfold isViolation. destruct (chatIdOf c) as [remote|]; [|done].
  destruct (message c); [|done]. simpl.
  destruct (String.eqb remote ""); done.
Qed.

Lemma acceptViolation_dup c s :
  getMessageKey c ∈ processedMessageIds s -> acceptViolation cfg c s = s.
Proof. intros H. unfold acceptViolation. by rewrite bool_decide_eq_true_2. Qed.

Lemma acceptViolation_fresh c s :
  getMessageKey c ∉ processedMessageIds s ->
  let s' := acceptViolation cfg c s in
  processedMessageIds s' = {[ getMessageKey c ]} ∪ processedMessageIds s /\
  forgetTimers s' = forgetTimers s ++ [(getMessageKey c, now s + 5000)] /\
  now s' = now s /\ shuttingDown s' = shuttingDown s /\
  forall c1, enqueuedLike c1 (trace s') =
    (enqueuedLike c1 (trace s) +
     if truthy (chatIdOf c) && samePair c1 c then 1 else 0)%nat.
Proof.
  intros H. unfold acceptViolation. rewrite bool_decide_eq_false_2 by done.
  set (s1 := setTimeout _ _ _).
  destruct (enqueueDeletion_dedup c s1) as (Ha & Hb & Hc & Hd & He).
  cbv zeta. rewrite Ha, Hb, Hc, Hd. split; [done|]. split; [|split; [done|split; [done|]]].
  - unfold s1. by rewrite forgetTimers_setTimeout.
  - intros k. by rewrite He.
Qed.

Lemma forgetTimers_setProcessed m s : forgetTimers (setProcessed m s) = forgetTimers s.
Proof. reflexivity. Qed.

Lemma forgetTimers_setTasks t s : forgetTimers (setTasks t s) = forgetTimers s.
Proof. reflexivity. Qed.

Lemma forgetTimers_delete n t s :
  timers s !! n = Some t ->
  match cb t with
  | ForgetMessage k =>
      exists a b, forgetTimers s = a ++ (k, due t) :: b /\
                  forgetTimers (setTimers (delete n (timers s)) s) = a ++ b
  | TryStart _ =>
      forgetTimers (setTimers (delete n (timers s)) s) = forgetTimers s
  end.
Proof.
  intros Hn. unfold forgetTimers. simpl. rewrite delete_take_drop.
  pose proof (take_drop_middle (timers s) n t Hn) as Hmid.
  set (l1 := take n (timers s)) in *. set (l2 := drop (S n) (timers s)) in *.
  clearbody l1 l2. rewrite <- Hmid.
  change (t :: l2) with ([t] ++ l2). rewrite !omap_app. simpl.
  destruct (cb t) as [k|g]; simpl; [|done]. eauto.
Qed.

Lemma step_dedupInv l s s' : step cfg l s = Some s' -> dedupInv s -> dedupInv s'.
Proof.
  intros Hs [Hnd Hlive Hrun]. destruct l as [env c|n|n ok|d]; simpl in Hs.
  - injection Hs as <-. rewrite (onMessage_violation env c s Hrun).
    destruct (isViolation env c); [|done].
    destruct (decide (getMessageKey c ∈ processedMessageIds s)) as [Hin|Hout].
    { by rewrite acceptViolation_dup. }
    destruct (acceptViolation_fresh c s Hout) as (Ha & Hb & _ & Hd & _).
    split; [| |congruence].
    + rewrite Hb, map_app. simpl. apply NoDup_app. split; [done|].
      split; [|apply NoDup_singleton].
      intros k Hk ->%list_elem_of_singleton. by apply Hout, Hlive.
    + intros k. rewrite Ha, Hb, map_app. simpl.
      intros [Hk| ->%list_elem_of_singleton]%elem_of_app; [|set_solver].
      apply elem_of_union_r. by apply Hlive.
  - destruct (timers s !! n) as [t|] eqn:Hn; [|done].
    destruct (due t <=? now s); [|done]. injection Hs as <-.
    pose proof (forgetTimers_delete n t s Hn) as Hdel.
    destruct (cb t) as [k|g]; simpl.
    + destruct Hdel as (a & b & Hft & Hft').
      rewrite Hft in Hnd, Hlive. rewrite map_app in Hnd, Hlive. simpl in Hnd, Hlive.
      apply NoDup_app in Hnd as (Hna & Hnab & Hnb).
      apply NoDup_cons in Hnb as [Hkb Hnb].
      split; rewrite ?forgetTimers_setProcessed; [| |done].
      * rewrite Hft', map_app. apply NoDup_app. split; [done|]. split; [|done].
        intros x Hx Hxb. apply (Hnab x Hx). by right.
      * intros x. rewrite Hft', map_app. intros Hx. simpl.
        apply elem_of_difference. split.
        -- apply Hlive. apply elem_of_app in Hx as [Hx|Hx];
             apply elem_of_app; [by left|right; by right].
        -- intros ->%elem_of_singleton.
           apply elem_of_app in Hx as [Hx|Hx]; [|done].
           apply (Hnab k Hx). by left.
    + destruct (quiet_tryStart g (setTimers (delete n (timers s)) s)) as [Ha Hb _ Hd _].
      split; rewrite ?Ha, ?Hb, ?Hd, ?Hdel; simpl; done.
  - destruct (tasks s !! n) as [[g p]|]; [|done].
    destruct (quiet_resume g p ok (setTasks (delete n (tasks s)) s)) as [Ha Hb _ Hd _].
    destruct (resume cfg g p ok _) as [s1 next]. simpl in *.
    injection Hs as <-.
    assert (Hsame : forall x : state,
              x = s1 \/ (exists t, x = setTasks t s1) ->
              dedupInv x).
    { intros x [->|[t ->]]; split; rewrite ?forgetTimers_setTasks; simpl;
        rewrite ?Ha, ?Hb, ?Hd; simpl; done. }
    destruct next; apply Hsame; eauto.
  - destruct (0 <=? d); [|done]. injection Hs as <-. by split.
Qed.

Lemma initial_dedupInv t0 : dedupInv (initial t0).
Proof. split; simpl; [apply NoDup_nil_2|by intros k ?%elem_of_nil|done]. Qed.

Lemma run_dedupInv ls s s' : run cfg ls s = Some s' -> dedupInv s -> dedupInv s'.
Proof.
  revert s; induction ls as [|l ls IH]; intros s; simpl.
  - by intros [= <-].
  - destruct (step cfg l s) as [s1|] eqn:E; [|done].
    intros Hr Hinv. eapply IH; [exact Hr|]. by eapply step_dedupInv.
Qed.






End Dedup.




Section Whitelist.

Lemma startsWith_app a b t : startsWith (a +:+ b) t = true -> startsWith a t = true.
Proof.
  revert t; induction a as [|c a IH]; intros t; [done|].
  destruct t as [|d t]; simpl; [done|].
  intros [Hc Hr]%andb_prop. rewrite Hc. simpl. by apply IH.
Qed.

Lemma includes_app text a b : includes text (a +:+ b) = true -> includes text a = true.
Proof.
  induction text as [|c text IH]; simpl.
  - rewrite !orb_false_r. apply startsWith_app.
  - intros [H|H]%orb_prop; apply orb_true_iff; [left; by eapply startsWith_app|right; by apply IH].
Qed.

Lemma isWhitelisted_iff wl sender text :
  isWhitelisted wl sender text = true <->
  exists item, item ∈ wl /\
    ((includes item "@" = true /\ item = sender) \/
     (includes item "@" = false /\ includes text item = true)).
Proof.
  unfold isWhitelisted. rewrite List.existsb_exists. unfold whitelistMatch.
  split; intros (item & Hin & H); exists item.
  - split; [by apply list_elem_of_In|].
    destruct (includes item "@"); [left|right]; split; try done.
    by apply String.eqb_eq.
  - split; [by apply list_elem_of_In|].
    destruct H as [[-> ->]|[-> H]]; [apply String.eqb_refl|done].
Qed.

End Whitelist.

(** C8, as the code has it.  For a message of a sender who is neither the
    bot nor an admin, in a group with enforcement on, the message is exempt
    (the handler returns before the link check and enqueues nothing) iff the
    whitelist holds an entry with an at sign that is literally equal to the
    sender's raw identity, or an entry without an at sign that occurs in the
    message text; a message that is not exempt goes on to the link check.  In
    particular, with whitelist ["example.com"] a message containing
    "example.com/page" is not enqueued. *)
Theorem whitelist_exemption (cfg : config) (env : answers) (ctx : context)
    (s : state) (remote : string) (m : messageBody) :
  chatIdOf ctx = Some remote -> endsWith remote "@g.us" = true ->
  message ctx = Some m -> shuttingDown s = false ->
  isKnownCommand ctx = false -> enabled (setting env) = true ->
  fromMeOf ctx = false -> admin env = false ->
  let wl := whitelist (setting env) in
  let sender := default "" (senderJidOf ctx) in
  let body := extractTextFromMessage ctx in
  (isWhitelisted wl sender body = true <->
     exists item, item ∈ wl /\
       ((includes item "@" = true /\ item = sender) \/
        (includes item "@" = false /\ includes body item = true))) /\
  (isWhitelisted wl sender body = true -> onMessage cfg env ctx s = s) /\
  (isWhitelisted wl sender body = false ->
     onMessage cfg env ctx s =
       if containsLink env then acceptViolation cfg ctx s else s) /\
  (wl = ["example.com"] -> includes body "example.com/page" = true ->
     onMessage cfg env ctx s = s).
Proof.
  intros Hchat Hgrp Hmsg Hrun Hcmd Hen Hme Hadm wl sender body.
  assert (Hstep : onMessage cfg env ctx s =
            if isWhitelisted wl sender body then s
            else if containsLink env then acceptViolation cfg ctx s else s).
  { unfold onMessage. rewrite Hchat, Hmsg, Hrun, Hcmd, Hgrp, Hen, Hme, Hadm.
    destruct (String.eqb_spec remote "") as [->|_]; [done|]. done. }
  split; [apply isWhitelisted_iff|]. split; [|split].
  - intros Hw. by rewrite Hstep, Hw.
  - intros Hw. by rewrite Hstep, Hw.
  - intros Hwl Hbody. rewrite Hstep.
    assert (Hw : isWhitelisted wl sender body = true); [|by rewrite Hw].
    rewrite Hwl. unfold isWhitelisted, whitelistMatch. simpl.
    rewrite orb_false_r. by apply (includes_app body "example.com" "/page").
Qed.


(** C8, counterexample.  The whitelist entry and the sender have the same
    normal form ([jidEquals] holds), yet the message is not exempt: it is
    enqueued for deletion. *)
Lemma whitelist_identity_is_literal :
  let ctx := textMessage "g@g.us" "m1" quietSender "see http://x.org" in
  IsAdmin.jidEquals shoutedEntry quietSender = true /\
  isWhitelisted [shoutedEntry] quietSender (extractTextFromMessage ctx) = false /\
  enqueuedFor "g@g.us"
    (trace (onMessage defaultConfig (enforcing [shoutedEntry]) ctx (initial 0))) = [ctx].
Proof. repeat split; vm_compute; reflexivity. Qed.

Section Ledger.

Lemma userKey_nonempty g u : g <> "" -> userKey g u <> "".
Proof. intros Hg. unfold userKey. by destruct g. Qed.

End Ledger.

(** C4.  With [MAX_WARNS = 3] and removal on, for a (group, user) pair
    without a warning record: the first two violations report counts 1 and 2,
    the third (its removal call succeeding) reports [{count: 3, removed:
    true}] and deletes the counter, and a fourth reports [{count: 1, removed:
    false}]. *)
Theorem three_strikes (cfg : config) (ctx : context) (g u : string)
    (w : gmap string Z) (ok1 ok2 ok4 : bool) :
  MAX_WARNS cfg = 3 -> REMOVE_ON_MAX cfg = true ->
  chatIdOf ctx = Some g -> g <> "" ->
  senderJidOf ctx = Some u -> u <> "" ->
  w !! userKey g u = None ->
  let r1 := incrementWarningAndMaybeRemove cfg ok1 ctx w in
  let r2 := incrementWarningAndMaybeRemove cfg ok2 ctx r1.1 in
  let r3 := incrementWarningAndMaybeRemove cfg true ctx r2.1 in
  let r4 := incrementWarningAndMaybeRemove cfg ok4 ctx r3.1 in
  r1.2 = {| count := 1; removed := false |} /\
  r2.2 = {| count := 2; removed := false |} /\
  r3.2 = {| count := 3; removed := true |} /\
  r3.1 !! userKey g u = None /\
  r4.2 = {| count := 1; removed := false |}.
Proof.
  intros Hmax Hrem Hchat Hg Hsender Hu Hfresh.
  assert (Hstep : forall ok w0,
    incrementWarningAndMaybeRemove cfg ok ctx w0 =
      let n := default 0 (w0 !! userKey g u) + 1 in
      if 3 <=? n
      then endRemoval g u n ok (<[userKey g u := n]> w0)
      else (<[userKey g u := n]> w0, {| count := n; removed := false |})).
  { intros ok w0. unfold incrementWarningAndMaybeRemove, beginWarning.
    rewrite Hchat, Hsender, Hmax, Hrem.
    apply String.eqb_neq in Hg, Hu. unfold or_else. simpl. rewrite Hu, Hg. simpl. rewrite Hu.
    by destruct (3 <=? _). }
  intros r1 r2 r3 r4. unfold r4, r3, r2, r1.
  rewrite (Hstep ok1 w), Hfresh. simpl.
  rewrite (Hstep ok2), lookup_insert_eq. simpl.
  rewrite (Hstep true), lookup_insert_eq. simpl.
  rewrite (Hstep ok4). cbv zeta. rewrite !lookup_delete_eq. done.
Qed.

Lemma whitelist_exemption_witness :
  let ctx := textMessage "g@g.us" "m1" "u@s.whatsapp.net" "see example.com/page" in
  let env := enforcing ["example.com"] in
  let wl := whitelist (setting env) in
  let sender := default "" (senderJidOf ctx) in
  let body := extractTextFromMessage ctx in
  (isWhitelisted wl sender body = true <->
     exists item, item ∈ wl /\
       ((includes item "@" = true /\ item = sender) \/
        (includes item "@" = false /\ includes body item = true))) /\
  (isWhitelisted wl sender body = true ->
     onMessage defaultConfig env ctx (initial 0) = initial 0) /\
  (isWhitelisted wl sender body = false ->
     onMessage defaultConfig env ctx (initial 0) =
       if containsLink env then acceptViolation defaultConfig ctx (initial 0)
       else initial 0) /\
  (wl = ["example.com"] -> includes body "example.com/page" = true ->
     onMessage defaultConfig env ctx (initial 0) = initial 0).
Proof.
  apply (whitelist_exemption defaultConfig (enforcing ["example.com"])
           (textMessage "g@g.us" "m1" "u@s.whatsapp.net" "see example.com/page")
           (initial 0) "g@g.us"
           {| conversation := Some "see example.com/page"; extendedText := None;
              imageCaption := None; videoCaption := None |});
    reflexivity.
Defined.

Lemma three_strikes_witness :
  let ctx := textMessage "g@g.us" "m1" "u@s.whatsapp.net" "http://x.org" in
  let r1 := incrementWarningAndMaybeRemove defaultConfig true ctx ∅ in
  let r2 := incrementWarningAndMaybeRemove defaultConfig true ctx r1.1 in
  let r3 := incrementWarningAndMaybeRemove defaultConfig true ctx r2.1 in
  let r4 := incrementWarningAndMaybeRemove defaultConfig true ctx r3.1 in
  r1.2 = {| count := 1; removed := false |} /\
  r2.2 = {| count := 2; removed := false |} /\
  r3.2 = {| count := 3; removed := true |} /\
  r3.1 !! userKey "g@g.us" "u@s.whatsapp.net" = None /\
  r4.2 = {| count := 1; removed := false |}.
Proof.
  apply (three_strikes defaultConfig
           (textMessage "g@g.us" "m1" "u@s.whatsapp.net" "http://x.org")
           "g@g.us" "u@s.whatsapp.net" ∅ true true true);
    solve [reflexivity | discriminate].
Defined.

Section Liveness.
Variable cfg : config.

Lemma calm_refl s : calm s s.
Proof. by split. Qed.

Lemma calm_trans s1 s2 s3 : calm s1 s2 -> calm s2 s3 -> calm s1 s3.
Proof.
  intros H1 H2. destruct H1, H2.
  split; first [congruence | eauto | intros g; etrans; eauto].
Qed.

Lemma calm_record e s :
  match e with Enqueued _ => False | _ => True end -> calm s (record e s).
Proof.
  intros He. split; try done. intros g. rewrite trace_record.
  by apply enqueuedFor_other.
Qed.

Lemma calm_setWarnings w s : calm s (setWarnings w s).
Proof. by split. Qed.

Lemma calm_sendWarning c n s : calm s (sendWarning cfg c n s).
Proof.
  unfold sendWarning.
  destruct (SEND_WARNING cfg); [by apply calm_record|apply calm_refl].
Qed.

Lemma calm_forward c s : calm s (forwardDeletedLink cfg c s).
Proof.
  unfold forwardDeletedLink.
  destruct (LOG_DELETED_LINKS cfg); [by apply calm_record|apply calm_refl].
Qed.

Lemma calm_continueBatch g batch s : calm s (continueBatch g batch s).1.
Proof.
  destruct batch as [|c rest]; simpl.
  - destruct (nonEmpty _); apply calm_refl.
  - unfold startDelete.
    destruct (truthy _); [by apply calm_record|apply calm_refl].
Qed.

Lemma calm_processChatQueue g s : calm s (processChatQueue cfg g s).1.
Proof.
  unfold processChatQueue. destruct (_ && _); [|apply calm_refl].
  eapply calm_trans; [|apply calm_continueBatch].
  split; try done. intros g'. destruct (decide (g' = g)) as [->|Hne].
  - rewrite queueOf_insert. intros Hq Hnil. apply Hq. rewrite Hnil. by rewrite drop_nil.
  - by rewrite queueOf_insert_ne.
Qed.

(** A drain that goes on is calm; the one that ends clears its flag,
    gives back its slot and, if its queue is not empty, sets a timer. *)
Lemma resume_calm g p ok s :
  match (resume cfg g p ok s).2 with
  | Some _ => calm s (resume cfg g p ok s).1
  | None =>
      p = Finishing /\
      (resume cfg g p ok s).1 =
        (let s1 := setProcessing (<[g := false]> (perChatProcessing s))
                                 (activeChats s - 1) s in
         if nonEmpty (queueOf g s1) then setTimeout (TryStart g) 0 s1 else s1)
  end.
Proof.
  assert (Hc : forall rest s0, calm s s0 ->
            match (let '(s1, p1) := continueBatch g rest s0 in (s1, Some p1)).2 with
            | Some _ => calm s (let '(s1, p1) := continueBatch g rest s0 in (s1, Some p1)).1
            | None => False
            end).
  { intros rest s0 H0. pose proof (calm_continueBatch g rest s0) as H.
    destruct (continueBatch g rest s0). simpl in *. by eapply calm_trans. }
  destruct p as [c i rest|c i rest|rest|c rest|c chat sender n rest|rest| |];
    cbn [resume].
  - destruct ok; simpl; [apply calm_forward|].
    destruct (_ <? _); [apply calm_refl|].
    specialize (Hc rest s (calm_refl s)). by destruct (continueBatch g rest s).
  - simpl. by apply calm_record.
  - specialize (Hc rest s (calm_refl s)). by destruct (continueBatch g rest s).
  - destruct (beginWarning cfg c (perUserWarnings s)) as [w1 [r|chat sender n]]; simpl.
    + eapply calm_trans; [apply (calm_setWarnings w1)|apply calm_sendWarning].
    + eapply calm_trans; [apply (calm_setWarnings w1)|by apply calm_record].
  - destruct (endRemoval chat sender n ok (perUserWarnings s)) as [w2 r].
    destruct (removed r).
    + specialize (Hc rest (setWarnings w2 s) (calm_setWarnings w2 s)).
      by destruct (continueBatch g rest (setWarnings w2 s)).
    + simpl. eapply calm_trans; [apply (calm_setWarnings w2)|apply calm_sendWarning].
  - specialize (Hc rest s (calm_refl s)). by destruct (continueBatch g rest s).
  - pose proof (calm_processChatQueue g s) as H.
    by destruct (processChatQueue cfg g s).
  - simpl. done.
Qed.

Lemma startTimers_app s ts :
  startTimers (setTimers (timers s ++ ts) s) =
    startTimers s ++ omap (fun t => match cb t with
                                    | TryStart g => Some g
                                    | ForgetMessage _ => None
                                    end) ts.
Proof. unfold startTimers. simpl. by rewrite omap_app. Qed.

Lemma startTimers_tryLater g ms s :
  startTimers (setTimeout (TryStart g) ms s) = startTimers s ++ [g].
Proof. unfold setTimeout. by rewrite startTimers_app. Qed.

Lemma startTimers_forgetLater k ms s :
  startTimers (setTimeout (ForgetMessage k) ms s) = startTimers s.
Proof. unfold setTimeout. rewrite startTimers_app. simpl. by rewrite app_nil_r. Qed.

(** Taking a timer off the list: the start timers of the other chats
    stay. *)
Lemma startTimers_delete n t s g :
  timers s !! n = Some t -> cb t <> TryStart g ->
  g ∈ startTimers s -> g ∈ startTimers (setTimers (delete n (timers s)) s).
Proof.
  intros Hn Hcb. unfold startTimers. simpl.
  rewrite <- (take_drop_middle (timers s) n t Hn) at 1.
  rewrite delete_take_drop, !omap_app, !elem_of_app. simpl.
  intros [H|H]; [by left|]. right.
  destruct (cb t) as [k|g0]; [done|].
  apply elem_of_cons in H as [->|H]; [done|done].
Qed.

Lemma pcsOf_grows g g0 p ts : pcsOf g ts <> [] -> pcsOf g (ts ++ [(g0, p)]) <> [].
Proof.
  rewrite pcsOf_app. intros H Hnil. by apply app_eq_nil in Hnil as [? _].
Qed.

Lemma pcsOf_own g p ts : pcsOf g (ts ++ [(g, p)]) <> [].
Proof.
  rewrite pcsOf_app, pcsOf_one. intros Hnil. by apply app_eq_nil in Hnil as [_ ?].
Qed.

(** [tryStartProcessingForChat(g)] restores the bookkeeping even if the
    timer that called it was the only thing keeping the queue of [g]
    alive. *)
Lemma tryStart_live g s :
  shuttingDown s = false ->
  activeChats s = Z.of_nat (length (tasks s)) ->
  (forall g', processingOf g' s = true -> pcsOf g' (tasks s) <> []) ->
  (forall g', g' <> g -> queueOf g' s <> [] ->
     pcsOf g' (tasks s) <> [] \/ g' ∈ startTimers s) ->
  liveInv (tryStartProcessingForChat cfg g s).
Proof.
  intros Hdown Hact Hflag Hpend. unfold tryStartProcessingForChat.
  destruct (processingOf g s) eqn:Hbusy; simpl.
  { split; try done. intros g' Hq. destruct (decide (g' = g)) as [->|Hne]; [|by auto].
    left. by apply Hflag. }
  rewrite Hdown.
  destruct (orOne (GLOBAL_CONCURRENCY cfg) <=? activeChats s).
  { split; try done. intros g' Hq. rewrite startTimers_tryLater, elem_of_app.
    destruct (decide (g' = g)) as [->|Hne].
    - right. right. by apply list_elem_of_singleton.
    - destruct (Hpend g' Hne Hq); auto. }
  set (s1 := setProcessing _ _ s).
  pose proof (calm_processChatQueue g s1) as Hc.
  destruct (processChatQueue cfg g s1) as [s2 p]. simpl in Hc.
  destruct Hc as [Hc1 Hc2 Hc3 Hc4 Hc5 Hc6 _].
  split; simpl.
  - by rewrite Hc1.
  - rewrite Hc3, Hc5, length_app. simpl. lia.
  - intros g'. unfold processingOf. simpl. rewrite Hc2, Hc5. unfold s1. simpl.
    destruct (decide (g' = g)) as [->|Hne]; [intros _; apply pcsOf_own|].
    rewrite lookup_insert_ne by done. intros H. by apply pcsOf_grows, Hflag.
  - intros g' Hq. rewrite Hc5. simpl.
    destruct (decide (g' = g)) as [->|Hne]; [left; apply pcsOf_own|].
    destruct (Hpend g' Hne (Hc6 g' Hq)) as [H|H].
    + left. by apply pcsOf_grows.
    + right. unfold startTimers in *. simpl. by rewrite Hc4.
Qed.

Lemma enqueueDeletion_live c s : liveInv s -> liveInv (enqueueDeletion cfg c s).
Proof.
  intros Hl. unfold enqueueDeletion.
  destruct (chatIdOf c) as [g|]; [|done].
  destruct (String.eqb g ""); [done|].
  destruct Hl as [H1 H2 H3 H4].
  set (s1 := record _ _).
  assert (Hq : forall g', g' <> g -> queueOf g' s1 = queueOf g' s).
  { intros g' Hne. unfold s1. by apply queueOf_insert_ne. }
  destruct (processingOf g s1) eqn:Hbusy.
  - split; try done. intros g' Hne.
    destruct (decide (g' = g)) as [->|Hg]; [left; by apply H3|].
    apply H4. by rewrite <- Hq.
  - apply tryStart_live; try done.
    intros g' Hg Hne. apply H4. by rewrite <- Hq.
Qed.

Lemma acceptViolation_live c s : liveInv s -> liveInv (acceptViolation cfg c s).
Proof.
  intros Hl. unfold acceptViolation. destruct (bool_decide _); [done|].
  apply enqueueDeletion_live. destruct Hl as [H1 H2 H3 H4]. split; try done.
  intros g Hq. rewrite startTimers_forgetLater. by apply H4.
Qed.

Lemma initial_live t0 : liveInv (initial t0).
Proof. by split. Qed.

Lemma length_delete_at {A} (l : list A) n x :
  l !! n = Some x -> length l = S (length (delete n l)).
Proof.
  intros Hn. rewrite <- (take_drop_middle l n x Hn) at 1.
  rewrite delete_take_drop, !length_app. simpl. lia.
Qed.

Lemma delete_last {A} (l : list A) x : delete (length l) (l ++ [x]) = l.
Proof. induction l as [|y l IH]; simpl; [done|]. by rewrite IH. Qed.

Lemma step_live l s s' :
  step cfg l s = Some s' -> queueInv s -> liveInv s -> liveInv s'.
Proof.
  destruct l as [env c|n|n ok|d]; simpl.
  - intros [= <-] _ Hl.
    destruct (onMessage_cases cfg env c s) as [->| ->]; [done|].
    by apply acceptViolation_live.
  - destruct (timers s !! n) as [t|] eqn:Hn; [|done].
    destruct (due t <=? now s); [|done]. intros [= <-] _ [H1 H2 H3 H4].
    destruct (cb t) as [k|g] eqn:Hcb; simpl.
    + split; try done. intros g Hq. destruct (H4 g Hq) as [H|H]; [by left|right].
      change (g ∈ startTimers (setTimers (delete n (timers s)) s)).
      apply (startTimers_delete n t); [done|by rewrite Hcb|done].
    + apply tryStart_live; try done. intros g' Hne Hq.
      destruct (H4 g' Hq) as [H|H]; [by left|right].
      apply (startTimers_delete n t); [done|rewrite Hcb; congruence|done].
  - destruct (tasks s !! n) as [[g p]|] eqn:Hn; [|done].
    intros Hs Hinv [H1 H2 H3 H4].
    destruct (pcsOf_at g p n (tasks s) Hn) as (Hother & _ & _).
    pose proof (length_delete_at _ _ _ Hn) as Hlen.
    set (s0 := setTasks (delete n (tasks s)) s) in *.
    pose proof (resume_calm g p ok s0) as Hr.
    destruct (resume cfg g p ok s0) as [s1 next]. simpl in Hr.
    injection Hs as <-. destruct next as [p1|].
    + destruct Hr as [Hc1 Hc2 Hc3 Hc4 Hc5 Hc6 _]. split; simpl.
      * by rewrite Hc1.
      * rewrite Hc3, Hc5, length_app. simpl. lia.
      * intros g'. unfold processingOf. simpl. rewrite Hc2, Hc5. simpl.
        destruct (decide (g' = g)) as [->|Hne]; [intros _; apply pcsOf_own|].
        intros H. apply pcsOf_grows. rewrite Hother by done. by apply H3.
      * intros g' Hq. rewrite Hc5. simpl.
        destruct (decide (g' = g)) as [->|Hne]; [left; apply pcsOf_own|].
        destruct (H4 g' (Hc6 g' Hq)) as [H|H].
        -- left. apply pcsOf_grows. by rewrite Hother.
        -- right. unfold startTimers in *. simpl. by rewrite Hc4.
    + destruct Hr as [-> ->]. cbv zeta.
      set (s2 := setProcessing _ _ s0).
      assert (Hflag : forall g', processingOf g' s2 = true ->
                        pcsOf g' (delete n (tasks s)) <> []).
      { intros g'. unfold processingOf, s2. simpl.
        destruct (decide (g' = g)) as [->|Hne].
        - by rewrite lookup_insert_eq.
        - rewrite lookup_insert_ne by done. rewrite Hother by done. apply H3. }
      assert (Hrest : forall g', g' <> g -> queueOf g' s <> [] ->
                        pcsOf g' (delete n (tasks s)) <> [] \/ g' ∈ startTimers s).
      { intros g' Hne Hq. rewrite Hother by done. by apply H4. }
      destruct (nonEmpty (queueOf g s2)) eqn:Hq2.
      * split; simpl; [done|lia|done|].
        intros g' Hq. rewrite startTimers_tryLater, elem_of_app.
        destruct (decide (g' = g)) as [->|Hne].
        -- right. right. by apply list_elem_of_singleton.
        -- destruct (Hrest g' Hne Hq); auto.
      * split; simpl; [done|lia|done|].
        intros g' Hq. destruct (decide (g' = g)) as [->|Hne]; [|by apply Hrest].
        change (queueOf g s2) with (queueOf g s) in Hq2.
        change (queueOf g s2) with (queueOf g s) in Hq. by destruct (queueOf g s).
  - destruct (0 <=? d); [|done]. intros [= <-] _ Hl. by destruct Hl.
Qed.

Lemma run_live ls s s' :
  run cfg ls s = Some s' -> queueInv s -> liveInv s -> queueInv s' /\ liveInv s'.
Proof.
  revert s; induction ls as [|l ls IH]; intros s; simpl.
  - by intros [= <-].
  - destruct (step cfg l s) as [s1|] eqn:E; [|done].
    intros Hr Hinv Hl. eapply IH; [exact Hr| |].
    + by eapply step_inv.
    + by eapply step_live.
Qed.

(** ** Progress: every awaited call that resolves brings a drain closer
    to its end *)

Hypothesis batch_positive : 1 <= orOne (BATCH_SIZE cfg).
Hypothesis budget_positive : 1 <= orOne (GLOBAL_CONCURRENCY cfg).

Lemma continueBatch_distance g batch s :
  let r := continueBatch g batch s in
  (distance g r.2 r.1 <=
     10 * length (queueOf g s) +
     match batch with [] => 4 | _ :: rest => 10 * length rest + 8 end)%nat /\
  settled g r.2 r.1.
Proof.
  destruct batch as [|c rest]; simpl.
  - destruct (queueOf g s) eqn:Hq; simpl; unfold distance, settled; simpl;
      rewrite ?Hq; simpl; split; try done; lia.
  - unfold startDelete. destruct (truthy _); unfold distance, settled; simpl;
      split; try done; lia.
Qed.

Lemma continueBatch_closer g batch s :
  let r := continueBatch g batch s in
  (distance g r.2 r.1 <= 10 * length (queueOf g s) + 10 * length batch + 4)%nat /\
  settled g r.2 r.1.
Proof.
  destruct (continueBatch_distance g batch s) as [H1 H2]. split; [|done].
  etrans; [exact H1|]. destruct batch; simpl; lia.
Qed.

Lemma processChatQueue_distance g s :
  shuttingDown s = false ->
  let r := processChatQueue cfg g s in
  (distance g r.2 r.1 < 10 * length (queueOf g s) + 4)%nat /\ settled g r.2 r.1.
Proof.
  intros Hdown. unfold processChatQueue. rewrite Hdown.
  destruct (queueOf g s) as [|c q] eqn:Hq; simpl.
  { unfold distance, settled. simpl. rewrite Hq. simpl. split; [lia|done]. }
  set (n := Z.to_nat (orOne (BATCH_SIZE cfg))).
  assert (Hn : exists m, n = S m).
  { exists (Nat.pred n). unfold n. lia. }
  destruct Hn as [m ->]. simpl.
  set (s1 := setQueue _ s).
  destruct (continueBatch_distance g (c :: take m q) s1) as [H1 H2].
  split; [|done]. eapply Nat.le_lt_trans; [exact H1|].
  unfold s1. rewrite queueOf_insert.
  pose proof (take_drop m q) as Htd. apply (f_equal length) in Htd.
  rewrite length_app in Htd. lia.
Qed.

Lemma resume_progress g p s :
  shuttingDown s = false ->
  match (resume cfg g p true s).2 with
  | Some p1 =>
      (distance g p1 (resume cfg g p true s).1 < distance g p s)%nat /\
      settled g p1 (resume cfg g p true s).1
  | None => True
  end.
Proof.
  intros Hdown.
  assert (Hc : forall rest s0 k,
            queueOf g s0 = queueOf g s ->
            (10 * length (queueOf g s) + 10 * length rest + 4 < k)%nat ->
            match (let '(s1, p1) := continueBatch g rest s0 in (s1, Some p1)).2 with
            | Some p1 =>
                (distance g p1
                   (let '(s1, p1) := continueBatch g rest s0 in (s1, Some p1)).1 < k)%nat /\
                settled g p1 (let '(s1, p1) := continueBatch g rest s0 in (s1, Some p1)).1
            | None => True
            end).
  { intros rest s0 k Hq Hk. destruct (continueBatch_closer g rest s0) as [H1 H2].
    destruct (continueBatch g rest s0). simpl in *. split; [|done].
    rewrite Hq in H1. lia. }
  destruct p as [c i rest|c i rest|rest|c rest|c chat sender n rest|rest| |];
    cbn [resume]; unfold distance at 2; cbn [weight].
  - simpl. unfold distance, settled, queueOf. split; [|done].
    unfold forwardDeletedLink. destruct (LOG_DELETED_LINKS cfg); simpl; lia.
  - simpl. unfold distance, settled, queueOf. simpl. split; [lia|done].
  - apply Hc; [done|lia].
  - destruct (beginWarning cfg c (perUserWarnings s)) as [w1 [r|chat sender n]]; simpl.
    + unfold distance, settled, sendWarning, queueOf. split; [|done].
      destruct (SEND_WARNING cfg); simpl; lia.
    + unfold distance, settled, queueOf. simpl. split; [lia|done].
  - destruct (endRemoval chat sender n true (perUserWarnings s)) as [w2 r] eqn:Hr.
    unfold endRemoval in Hr. injection Hr as <- <-. simpl.
    apply Hc; [done|lia].
  - apply Hc; [done|lia].
  - destruct (processChatQueue_distance g s Hdown) as [H1 H2].
    destruct (processChatQueue cfg g s). simpl in *. split; [lia|done].
  - done.
Qed.

Lemma run_app ls1 ls2 s s1 s2 :
  run cfg ls1 s = Some s1 -> run cfg ls2 s1 = Some s2 ->
  run cfg (ls1 ++ ls2) s = Some s2.
Proof.
  revert s; induction ls1 as [|l ls1 IH]; intros s; simpl.
  - by intros [= ->].
  - destruct (step cfg l s); [|done]. apply IH.
Qed.

Lemma reaches_nil s : reaches cfg [] s s.
Proof. by split. Qed.

Lemma reaches_app ls1 ls2 s s1 s2 :
  reaches cfg ls1 s s1 -> reaches cfg ls2 s1 s2 -> reaches cfg (ls1 ++ ls2) s s2.
Proof.
  intros (H1 & H2 & H3) (H4 & H5 & H6). split; [|split].
  - rewrite forallb_app. by rewrite H1, H4.
  - by eapply run_app.
  - intros g. by rewrite H6.
Qed.

(** One drain runs to its end when its awaited calls resolve; the other
    drains and the timers are left as they are, unless the drain was
    about to end over a queue that is not empty. *)
Lemma finish_task k : forall g p s i,
  (distance g p s <= k)%nat -> tasks s !! i = Some (g, p) ->
  shuttingDown s = false ->
  exists ls s',
    reaches cfg ls s s' /\ tasks s' = delete i (tasks s) /\
    (settled g p s -> startTimers s' = startTimers s).
Proof.
  induction k as [k IH] using lt_wf_ind. intros g p s i Hk Hi Hdown.
  set (s0 := setTasks (delete i (tasks s)) s).
  pose proof (resume_progress g p s0 Hdown) as Hp.
  pose proof (resume_calm g p true s0) as Hc.
  assert (Hstep : step cfg (Resume i true) s =
            Some (match (resume cfg g p true s0).2 with
                  | Some p1 => setTasks (tasks (resume cfg g p true s0).1 ++ [(g, p1)])
                                        (resume cfg g p true s0).1
                  | None => (resume cfg g p true s0).1
                  end)).
  { simpl. rewrite Hi. fold s0. by destruct (resume cfg g p true s0). }
  destruct (resume cfg g p true s0) as [s1 [p1|]]; cbn [fst snd] in *.
  - destruct Hp as [Hlt Hset]. destruct Hc as [Hc1 Hc2 Hc3 Hc4 Hc5 Hc6 Hc7].
    set (s2 := setTasks (tasks s1 ++ [(g, p1)]) s1) in *.
    destruct (IH (distance g p1 s2)) with (g := g) (p := p1) (s := s2)
      (i := length (delete i (tasks s))) as (ls & s' & Hr & Ht & Hs).
    + change (distance g p1 s2) with (distance g p1 s1).
      change (distance g p s0) with (distance g p s) in Hlt. lia.
    + done.
    + unfold s2. simpl. rewrite Hc5. simpl.
      by rewrite lookup_app_r, Nat.sub_diag.
    + unfold s2. simpl. by rewrite Hc1.
    + exists (Resume i true :: ls), s'. split; [|split].
      * destruct Hr as (H1 & H2 & H3). split; [done|]. split.
        -- cbn [run]. by rewrite Hstep.
        -- intros g'. rewrite H3. apply Hc7.
      * rewrite Ht. unfold s2. simpl. rewrite Hc5. simpl.
        apply delete_last.
      * intros _. rewrite Hs by done. unfold startTimers, s2. simpl. by rewrite Hc4.
  - destruct Hc as [-> Hs1]. cbv zeta in Hs1.
    change (queueOf g (setProcessing _ _ s0)) with (queueOf g s) in Hs1.
    exists [Resume i true], s1. split; [split; [done|split]|split].
    + cbn [run]. by rewrite Hstep.
    + intros g'. rewrite Hs1. by destruct (nonEmpty (queueOf g s)).
    + rewrite Hs1. by destruct (nonEmpty (queueOf g s)).
    + intros Hq. rewrite Hs1, Hq by done. done.
Qed.

(** Every drain in flight can be run to its end. *)
Lemma finish_all n : forall s,
  length (tasks s) = n -> queueInv s -> liveInv s ->
  exists ls s', reaches cfg ls s s' /\ tasks s' = [].
Proof.
  induction n as [|n IH]; intros s Hn Hinv Hl.
  - exists [], s. split; [apply reaches_nil|]. by apply length_zero_iff_nil.
  - destruct (tasks s) as [|[g p] ts] eqn:Hts; [done|].
    destruct (finish_task _ g p s 0%nat (Nat.le_refl _)) as (ls & s1 & Hr & Ht & _).
    { by rewrite Hts. }
    { by destruct Hl. }
    rewrite Hts in Ht. simpl in Ht.
    destruct (run_live ls s s1) as [Hinv1 Hl1]; [apply Hr|done|done|].
    destruct (IH s1) as (ls2 & s2 & Hr2 & Ht2); [|done|done|].
    { rewrite Ht. simpl in Hn. lia. }
    exists (ls ++ ls2), s2. split; [by eapply reaches_app|done].
Qed.

(** The first pending start timer. *)
Lemma first_start_timer ts g rest :
  omap (fun t => match cb t with
                 | TryStart g => Some g
                 | ForgetMessage _ => None
                 end) ts = g :: rest ->
  exists n t, ts !! n = Some t /\ cb t = TryStart g /\
    omap (fun t => match cb t with
                   | TryStart g => Some g
                   | ForgetMessage _ => None
                   end) (delete n ts) = rest.
Proof.
  induction ts as [|t ts IH]; simpl; [done|].
  destruct (cb t) as [k|g0] eqn:Hcb.
  - intros H. destruct (IH H) as (n & t' & H1 & H2 & H3).
    exists (S n), t'. simpl. by rewrite Hcb.
  - intros [= -> <-]. by exists 0%nat, t.
Qed.

(** With no drain in flight, the pending start timers can be fired one
    after the other, each drain run to its end before the next timer. *)
Lemma start_all k : forall s,
  length (startTimers s) = k -> tasks s = [] -> queueInv s -> liveInv s ->
  exists ls s', reaches cfg ls s s' /\ tasks s' = [] /\ startTimers s' = [].
Proof.
  induction k as [|k IH]; intros s Hk Ht Hinv Hl.
  - exists [], s. split; [apply reaches_nil|]. split; [done|].
    by apply length_zero_iff_nil.
  - destruct (startTimers s) as [|g rest] eqn:Hst; [done|].
    destruct (first_start_timer _ _ _ Hst) as (n & t & Hn & Hcb & Hrest).
    set (d := Z.max 0 (due t - now s)).
    set (sa := setNow (now s + d) s).
    set (sb := setTimers (delete n (timers s)) sa).
    assert (Hd : (0 <=? d) = true) by (apply Z.leb_le; unfold d; lia).
    assert (Hdue : (due t <=? now s + d) = true).
    { apply Z.leb_le. unfold d. lia. }
    destruct Hl as [H1 H2 H3 H4].
    assert (Hfree : processingOf g sb = false).
    { destruct (processingOf g sb) eqn:E; [|done].
      apply H3 in E. by rewrite Ht in E. }
    assert (Hact : (orOne (GLOBAL_CONCURRENCY cfg) <=? activeChats sb) = false).
    { apply Z.leb_gt. change (activeChats sb) with (activeChats s).
      rewrite H2, Ht. simpl. lia. }
    set (s1 := setProcessing (<[g := true]> (perChatProcessing sb))
                             (activeChats sb + 1) sb).
    pose proof (calm_processChatQueue g s1) as Hc.
    destruct (processChatQueue_distance g s1 H1) as [_ Hset].
    destruct (processChatQueue cfg g s1) as [s2 p] eqn:Hp. simpl in Hc, Hset.
    set (sc := setTasks (tasks s2 ++ [(g, p)]) s2).
    assert (Hfire : step cfg (Fire n) sa = Some sc).
    { cbn [step]. change (timers sa) with (timers s). rewrite Hn.
      change (now sa) with (now s + d). rewrite Hdue, Hcb. cbn [fire].
      change (setTimers _ sa) with sb. unfold tryStartProcessingForChat.
      rewrite Hfree. change (shuttingDown sb) with (shuttingDown s).
      rewrite H1. cbn [orb]. rewrite Hact. cbv zeta. fold s1. by rewrite Hp. }
    assert (Hrun : run cfg [Tick d; Fire n] s = Some sc).
    { cbn [run].
      change (step cfg (Tick d) s) with (if 0 <=? d then Some sa else None).
      by rewrite Hd, Hfire. }
    destruct Hc as [Hc1 Hc2 Hc3 Hc4 Hc5 Hc6 Hc7].
    assert (Htc : tasks sc = [(g, p)]).
    { unfold sc. simpl. rewrite Hc5. simpl. by rewrite Ht. }
    destruct (finish_task _ g p sc 0%nat (Nat.le_refl _)) as (ls & sd & Hr & Htd & Hsd).
    { by rewrite Htc. }
    { unfold sc. simpl. by rewrite Hc1. }
    rewrite Htc in Htd. simpl in Htd.
    assert (Hreach : reaches cfg ([Tick d; Fire n] ++ ls) s sd).
    { eapply reaches_app; [|exact Hr]. split; [done|]. split; [done|].
      intros g'. unfold sc. simpl. by rewrite Hc7. }
    destruct (run_live ([Tick d; Fire n] ++ ls) s sd) as [Hinv1 Hl1];
      [apply Hreach|done|by split|].
    destruct (IH sd) as (ls2 & s' & Hr2 & Ht2 & Hs2); [|done|done|done|].
    { rewrite Hsd by done. unfold startTimers, sc. simpl. rewrite Hc4. simpl.
      rewrite Hrest. simpl in Hk. lia. }
    exists (([Tick d; Fire n] ++ ls) ++ ls2), s'. split; [|done].
    by eapply reaches_app.
Qed.

(** Once no drain runs and no start timer is pending, every queue is
    empty and every enqueued action has had its deletion started. *)
Lemma idle_all_started s g :
  queueInv s -> liveInv s -> tasks s = [] -> startTimers s = [] ->
  queueOf g s = [] /\ startedFor g (trace s) = enqueuedFor g (trace s).
Proof.
  intros Hinv [_ _ _ H4] Ht Hs.
  assert (Hq : queueOf g s = []).
  { destruct (queueOf g s) eqn:Hq; [done|].
    destruct (H4 g) as [H|H].
    - by rewrite Hq.
    - by rewrite Ht in H.
    - rewrite Hs in H. by apply elem_of_nil in H. }
  split; [done|].
  destruct (Hinv g) as [_ _ [_ _ (done & Hd & Henq & Hatt)]].
  rewrite Ht in Hd, Henq, Hatt. simpl in Hd, Henq, Hatt.
  rewrite Hq, !app_nil_r in Henq. rewrite app_nil_r in Hd, Hatt.
  unfold startedFor. rewrite Hatt, Henq. by apply started_blocks.
Qed.

End Liveness.

(** X1.  No enqueued action is left behind: from every state the queue can
    reach, if no further violation arrives and the awaited calls resolve,
    the timers and the suspended drains can run until no drain is in flight
    and every queue is empty, and by then a deletion has been started for
    every action that was enqueued, in the order of the enqueueing.  The
    batch size and the concurrency budget are taken to be at least one. *)
Theorem every_action_gets_its_turn (cfg : config) (t0 : Z) (ls0 : list label)
    (s : state) :
  1 <= orOne (BATCH_SIZE cfg) ->
  1 <= orOne (GLOBAL_CONCURRENCY cfg) ->
  run cfg ls0 (initial t0) = Some s ->
  exists (ls : list label) (s' : state),
    forallb silent ls = true /\
    run cfg ls s = Some s' /\
    tasks s' = [] /\
    forall g, queueOf g s' = [] /\
              enqueuedFor g (trace s') = enqueuedFor g (trace s) /\
              startedFor g (trace s') = enqueuedFor g (trace s).
Proof.
  intros Hb Hc Hrun.
  destruct (run_live cfg ls0 (initial t0) s Hrun (initial_inv t0) (initial_live t0))
    as [Hinv Hl].
  destruct (finish_all cfg Hb _ s eq_refl Hinv Hl) as (ls1 & s1 & Hr1 & Ht1).
  destruct (run_live cfg ls1 s s1) as [Hinv1 Hl1]; [apply Hr1|done|done|].
  destruct (start_all cfg Hb Hc _ s1 eq_refl Ht1 Hinv1 Hl1)
    as (ls2 & s2 & Hr2 & Ht2 & Hs2).
  destruct (run_live cfg ls2 s1 s2) as [Hinv2 Hl2]; [apply Hr2|done|done|].
  destruct (reaches_app cfg _ _ _ _ _ Hr1 Hr2) as (Hsil & Hrun2 & Henq).
  exists (ls1 ++ ls2), s2. split; [done|]. split; [done|]. split; [done|].
  intros g. destruct (idle_all_started s2 g Hinv2 Hl2 Ht2 Hs2) as [Hq Hst].
  split; [done|]. split; [done|]. by rewrite Hst.
Qed.

Lemma every_action_gets_its_turn_witness :
  exists (ls : list label) (s' : state),
    forallb silent ls = true /\
    run oneAtATime ls midDrain = Some s' /\
    tasks s' = [] /\
    forall g, queueOf g s' = [] /\
              enqueuedFor g (trace s') = enqueuedFor g (trace midDrain) /\
              startedFor g (trace s') = enqueuedFor g (trace midDrain).
Proof.
  apply (every_action_gets_its_turn oneAtATime 0 threeArrivals midDrain).
  - vm_compute. discriminate.
  - vm_compute. discriminate.
  - vm_compute. reflexivity.
Defined.

(** * More about the antilink module *)

(** The string facts of the admin check serve here too. *)
Import IsAdminFacts.

Section Budget.
Variable cfg : config.






End Budget.



Section Retries.
Variable cfg : config.

Lemma deleteAttempts_positive : 1 <= deleteAttempts cfg.
Proof. unfold deleteAttempts. lia. Qed.

Lemma attemptOK_snoc tr e :
  Forall (attemptOK cfg) tr -> attemptOK cfg e -> Forall (attemptOK cfg) (tr ++ [e]).
Proof. intros H1 H2. apply Forall_app. split; [done|]. by apply Forall_singleton. Qed.

Lemma continueBatch_retry g batch s :
  Forall (attemptOK cfg) (trace s) ->
  Forall (attemptOK cfg) (trace (continueBatch g batch s).1) /\
  pcOK cfg (continueBatch g batch s).2.
Proof.
  intros Ht. destruct batch as [|c rest]; simpl.
  - by destruct (nonEmpty _).
  - unfold startDelete. destruct (truthy _); simpl; [|done].
    pose proof deleteAttempts_positive. split; [|lia].
    apply attemptOK_snoc; [done|]. simpl. lia.
Qed.

Lemma processChatQueue_retry g s :
  Forall (attemptOK cfg) (trace s) ->
  Forall (attemptOK cfg) (trace (processChatQueue cfg g s).1) /\
  pcOK cfg (processChatQueue cfg g s).2.
Proof.
  intros Ht. unfold processChatQueue. destruct (_ && _); [|done].
  by apply continueBatch_retry.
Qed.

Lemma tryStart_retry g s : retryInv cfg s -> retryInv cfg (tryStartProcessingForChat cfg g s).
Proof.
  intros [Ht Hp]. unfold tryStartProcessingForChat.
  destruct (processingOf g s || shuttingDown s); [done|].
  destruct (orOne (GLOBAL_CONCURRENCY cfg) <=? activeChats s); [done|].
  set (s1 := setProcessing _ _ s).
  pose proof (calm_processChatQueue cfg g s1) as Hc.
  destruct (processChatQueue_retry g s1 Ht) as [H1 H2].
  destruct (processChatQueue cfg g s1) as [s2 p]. simpl in *.
  split; simpl; [done|]. rewrite (c_tasks _ _ Hc).
  apply Forall_app. split; [done|]. by apply Forall_singleton.
Qed.

Lemma onMessage_retry env c s : retryInv cfg s -> retryInv cfg (onMessage cfg env c s).
Proof.
  intros Hinv. destruct (onMessage_cases cfg env c s) as [->| ->]; [done|].
  unfold acceptViolation. destruct (bool_decide _); [done|].
  unfold enqueueDeletion. destruct (chatIdOf c) as [g|]; [|by destruct Hinv].
  destruct (String.eqb g ""); [by destruct Hinv|].
  set (s1 := record _ _).
  assert (H1 : retryInv cfg s1).
  { destruct Hinv as [Ht Hp]. split; [|done]. by apply attemptOK_snoc. }
  destruct (processingOf g s1); [done|]. by apply tryStart_retry.
Qed.

Lemma sendWarning_retry c n s :
  Forall (attemptOK cfg) (trace s) ->
  Forall (attemptOK cfg) (trace (sendWarning cfg c n s)).
Proof.
  intros Ht. unfold sendWarning. destruct (SEND_WARNING cfg); [|done].
  by apply attemptOK_snoc.
Qed.

(** One resumption: the attempt counter of [deleteWithRetry] stays within
    its bound. *)
Lemma resume_retry g p ok s :
  Forall (attemptOK cfg) (trace s) -> pcOK cfg p ->
  Forall (attemptOK cfg) (trace (resume cfg g p ok s).1) /\
  match (resume cfg g p ok s).2 with
  | Some p1 => pcOK cfg p1
  | None => True
  end.
Proof.
  intros Ht Hp.
  assert (Hc : forall rest s0, Forall (attemptOK cfg) (trace s0) ->
            Forall (attemptOK cfg)
              (trace (let '(s1, p1) := continueBatch g rest s0 in (s1, Some p1)).1) /\
            match (let '(s1, p1) := continueBatch g rest s0 in (s1, Some p1)).2 with
            | Some p1 => pcOK cfg p1
            | None => True
            end).
  { intros rest s0 H0. pose proof (continueBatch_retry g rest s0 H0) as H.
    by destruct (continueBatch g rest s0). }
  destruct p as [c i rest|c i rest|rest|c rest|c chat sender n rest|rest| |];
    cbn [resume].
  - destruct ok; simpl.
    + split; [|done]. unfold forwardDeletedLink.
      destruct (LOG_DELETED_LINKS cfg); [|done]. by apply attemptOK_snoc.
    + destruct (Z.of_nat i <? deleteAttempts cfg) eqn:Hi; [|by apply Hc].
      simpl in *. split; [done|]. apply Z.ltb_lt in Hi. lia.
  - simpl in *. split; [|lia]. apply attemptOK_snoc; [done|]. simpl. lia.
  - by apply Hc.
  - destruct (beginWarning cfg c (perUserWarnings s)) as [w1 [r|chat sender n]]; simpl.
    + split; [|done]. by apply sendWarning_retry.
    + split; [|done]. by apply attemptOK_snoc.
  - destruct (endRemoval chat sender n ok (perUserWarnings s)) as [w2 r].
    destruct (removed r); [by apply Hc|].
    simpl. split; [|done]. by apply sendWarning_retry.
  - by apply Hc.
  - pose proof (processChatQueue_retry g s Ht) as H.
    by destruct (processChatQueue cfg g s).
  - simpl. split; [|done]. by destruct (nonEmpty _).
Qed.

Lemma step_retry l s s' : step cfg l s = Some s' -> retryInv cfg s -> retryInv cfg s'.
Proof.
  destruct l as [env c|n|n ok|d]; simpl.
  - intros [= <-]. apply onMessage_retry.
  - destruct (timers s !! n) as [t|]; [|done].
    destruct (due t <=? now s); [|done]. intros [= <-] Hinv.
    destruct (cb t) as [k|g]; simpl; [by destruct Hinv|].
    apply tryStart_retry. by destruct Hinv.
  - destruct (tasks s !! n) as [[g p]|] eqn:Hn; [|done].
    intros Hs [Ht Hp].
    assert (Hpc : pcOK cfg p).
    { by apply (Forall_lookup_1 _ _ _ _ Hp Hn). }
    set (s0 := setTasks (delete n (tasks s)) s) in *.
    pose proof (resume_retry g p ok s0 Ht Hpc) as [H1 H2].
    pose proof (resume_calm cfg g p ok s0) as Hr.
    assert (Hdel : Forall (fun t => pcOK cfg t.2) (delete n (tasks s))).
    { by apply Forall_delete. }
    destruct (resume cfg g p ok s0) as [s1 [p1|]]; simpl in *; injection Hs as <-.
    + split; simpl; [done|]. rewrite (c_tasks _ _ Hr). simpl.
      apply Forall_app. split; [done|]. by apply Forall_singleton.
    + split; [done|]. destruct Hr as [_ ->]. cbv zeta.
      by destruct (nonEmpty _).
  - destruct (0 <=? d); [|done]. intros [= <-] Hinv. by destruct Hinv.
Qed.

Lemma run_retry ls s s' : run cfg ls s = Some s' -> retryInv cfg s -> retryInv cfg s'.
Proof.
  revert s; induction ls as [|l ls IH]; intros s; simpl.
  - by intros [= <-].
  - destruct (step cfg l s) as [s1|] eqn:E; [|done].
    intros Hr Hinv. eapply IH; [exact Hr|]. by eapply step_retry.
Qed.

End Retries.

(** X12.  [deleteWithRetry] never tries a message more often than
    [Math.max(1, DELETE_RETRY_COUNT || 1)] times: in every state the queue
    can reach, every deletion attempt that was made carries a number between
    1 and that bound, whatever failed and however the drains interleave. *)
Theorem attempts_within_retry_count (cfg : config) (t0 : Z) (ls : list label)
    (s : state) (c : context) (i : nat) :
  run cfg ls (initial t0) = Some s ->
  DeleteAttempt c i ∈ trace s ->
  (1 <= i)%nat /\ Z.of_nat i <= Z.max 1 (orOne (DELETE_RETRY_COUNT cfg)).
Proof.
  intros Hrun Hin.
  assert (H0 : retryInv cfg (initial t0)) by (split; apply Forall_nil_2).
  destruct (run_retry cfg ls (initial t0) s Hrun H0) as [Ht _].
  rewrite Forall_forall in Ht. apply (Ht _ Hin).
Qed.

Lemma attempts_within_retry_count_witness :
  (1 <= 2)%nat /\ Z.of_nat 2 <= Z.max 1 (orOne (DELETE_RETRY_COUNT oneAtATime)).
Proof.
  apply (attempts_within_retry_count oneAtATime 0 threeViolations
           afterThreeViolations A1 2).
  - vm_compute. reflexivity.
  - vm_compute. apply list_elem_of_In. simpl. tauto.
Defined.

Section NegativeBatch.
Variable cfg : config.
Hypothesis negative : BATCH_SIZE cfg < 0.

Lemma empty_batch : Z.to_nat (orOne (BATCH_SIZE cfg)) = 0%nat.
Proof.
  unfold orOne. destruct (BATCH_SIZE cfg =? 0) eqn:E; [apply Z.eqb_eq in E; lia|lia].
Qed.

Lemma processChatQueue_idle g s :
  trace (processChatQueue cfg g s).1 = trace s /\
  tasks (processChatQueue cfg g s).1 = tasks s /\
  emptyHanded (processChatQueue cfg g s).2 = true.
Proof.
  unfold processChatQueue. destruct (_ && _); [|done].
  rewrite empty_batch. simpl. by destruct (nonEmpty _).
Qed.

Lemma tryStart_idle g s : idleInv s -> idleInv (tryStartProcessingForChat cfg g s).
Proof.
  intros [Ht Hp]. unfold tryStartProcessingForChat.
  destruct (processingOf g s || shuttingDown s); [done|].
  destruct (orOne (GLOBAL_CONCURRENCY cfg) <=? activeChats s); [done|].
  set (s1 := setProcessing _ _ s).
  destruct (processChatQueue_idle g s1) as (H1 & H2 & H3).
  destruct (processChatQueue cfg g s1) as [s2 p]. simpl in *.
  split; simpl; [by rewrite H1|]. rewrite H2, forallb_app. simpl.
  by rewrite Hp, H3.
Qed.

Lemma onMessage_idle env c s : idleInv s -> idleInv (onMessage cfg env c s).
Proof.
  intros Hinv. destruct (onMessage_cases cfg env c s) as [->| ->]; [done|].
  unfold acceptViolation. destruct (bool_decide _); [done|].
  unfold enqueueDeletion. destruct (chatIdOf c) as [g|]; [|by destruct Hinv].
  destruct (String.eqb g ""); [by destruct Hinv|].
  set (s1 := record _ _).
  assert (H1 : idleInv s1).
  { destruct Hinv as [Ht Hp]. split; [|done]. simpl. rewrite forallb_app.
    by rewrite Ht. }
  destruct (processingOf g s1); [done|]. by apply tryStart_idle.
Qed.

Lemma step_idle l s s' : step cfg l s = Some s' -> idleInv s -> idleInv s'.
Proof.
  destruct l as [env c|n|n ok|d]; simpl.
  - intros [= <-]. apply onMessage_idle.
  - destruct (timers s !! n) as [t|]; [|done].
    destruct (due t <=? now s); [|done]. intros [= <-] Hinv.
    destruct (cb t) as [k|g]; simpl; [by destruct Hinv|].
    apply tryStart_idle. by destruct Hinv.
  - destruct (tasks s !! n) as [[g p]|] eqn:Hn; [|done].
    intros Hs [Ht Hp].
    assert (Hpc : emptyHanded p = true).
    { rewrite forallb_forall in Hp.
      apply (Hp (g, p)), list_elem_of_In, (list_elem_of_lookup_2 _ n), Hn. }
    assert (Hdel : forallb (fun t => emptyHanded t.2) (delete n (tasks s)) = true).
    { rewrite forallb_forall in *. intros t Hin. apply Hp.
      apply list_elem_of_In. apply list_elem_of_In in Hin.
      revert Hin. apply list_subseteq_delete. }
    set (s0 := setTasks (delete n (tasks s)) s) in *.
    destruct p; try done; cbn [resume] in Hs.
    + destruct (processChatQueue_idle g s0) as (H1 & H2 & H3).
      destruct (processChatQueue cfg g s0) as [s1 p1]. simpl in *.
      injection Hs as <-. split; simpl; [by rewrite H1|].
      rewrite H2, forallb_app. simpl. by rewrite Hdel, H3.
    + injection Hs as <-. split; by destruct (nonEmpty _).
  - destruct (0 <=? d); [|done]. intros [= <-] Hinv. by destruct Hinv.
Qed.

Lemma run_idle ls s s' : run cfg ls s = Some s' -> idleInv s -> idleInv s'.
Proof.
  revert s; induction ls as [|l ls IH]; intros s; simpl.
  - by intros [= <-].
  - destruct (step cfg l s) as [s1|] eqn:E; [|done].
    intros Hr Hinv. eapply IH; [exact Hr|]. by eapply step_idle.
Qed.

Lemma attemptsFor_idle g tr : forallb isEnqueued tr = true -> attemptsFor g tr = [].
Proof.
  induction tr as [|e tr IH]; simpl; [done|].
  destruct e; simpl; first [done | apply IH].
Qed.

End NegativeBatch.

(** X13.  A negative [BATCH_SIZE] switches enforcement off without a
    word: [splice(0, BATCH_SIZE || 1)] then takes nothing off the queue, so
    in every state the queue can reach nothing but enqueueing has happened
    (no deletion attempt, no forward, no warning, no removal) and every
    queue still holds every violation ever enqueued for its chat. *)
Theorem negative_batch_size_deletes_nothing (cfg : config) (t0 : Z)
    (ls : list label) (s : state) :
  BATCH_SIZE cfg < 0 ->
  run cfg ls (initial t0) = Some s ->
  forallb isEnqueued (trace s) = true /\
  forall g, attemptsFor g (trace s) = [] /\
            queueOf g s = enqueuedFor g (trace s).
Proof.
  intros Hneg Hrun.
  assert (H0 : idleInv (initial t0)) by by split.
  destruct (run_idle cfg Hneg ls (initial t0) s Hrun H0) as [Ht Hp].
  split; [done|]. intros g.
  pose proof (attemptsFor_idle g _ Ht) as Hatt. split; [done|].
  destruct (run_inv cfg ls (initial t0) s Hrun (initial_inv t0) g)
    as [_ _ [_ _ (done & Hd & Henq & Hblocks)]].
  rewrite Hatt in Hblocks.
  assert (Hnil : done ++ current (head (pcsOf g (tasks s))) = []).
  { destruct (done ++ current (head (pcsOf g (tasks s)))) as [|[c k] l]; [done|].
    apply Forall_cons in Hd as [Hk _]. simpl in Hk.
    destruct k as [|k]; [lia|]. done. }
  apply app_eq_nil in Hnil as [-> Hcur]. rewrite Hcur in Henq. simpl in Henq.
  assert (Hw : waiting (head (pcsOf g (tasks s))) = []).
  { destruct (head (pcsOf g (tasks s))) as [p|] eqn:Hh; [|done].
    assert (Hin : (g, p) ∈ tasks s).
    { apply head_Some_elem_of in Hh. unfold pcsOf in Hh.
      apply list_elem_of_omap in Hh as ([g' p'] & Hin & Heq). simpl in Heq.
      destruct (decide (g' = g)) as [->|]; [|done]. by injection Heq as ->. }
    rewrite forallb_forall in Hp. apply list_elem_of_In, Hp in Hin.
    by destruct p. }
  by rewrite Hw in Henq.
Qed.

Lemma negative_batch_size_deletes_nothing_witness :
  forallb isEnqueued (trace stalled) = true /\
  forall g, attemptsFor g (trace stalled) = [] /\
            queueOf g stalled = enqueuedFor g (trace stalled).
Proof.
  apply (negative_batch_size_deletes_nothing takeNothing 0
           (threeArrivals ++ [Resume 0 true; Resume 0 true]) stalled).
  - vm_compute. reflexivity.
  - vm_compute. reflexivity.
Defined.

Section Provenance.
Variable cfg : config.

Lemma vetted_snoc tr e : Forall vetted tr -> vetted e -> Forall vetted (tr ++ [e]).
Proof. intros H1 H2. apply Forall_app. split; [done|]. by apply Forall_singleton. Qed.

Lemma continueBatch_prov g batch s :
  Forall vetted (trace s) -> Forall wasViolation batch ->
  Forall vetted (trace (continueBatch g batch s).1) /\
  pcVetted (continueBatch g batch s).2 /\
  perChatQueue (continueBatch g batch s).1 = perChatQueue s.
Proof.
  intros Ht Hb. destruct batch as [|c rest]; simpl.
  - destruct (nonEmpty _); by repeat split.
  - apply Forall_cons in Hb as [Hc Hrest]. unfold startDelete.
    destruct (truthy _); simpl.
    + split; [by apply vetted_snoc|]. split; [|done]. split; [|done].
      by apply Forall_cons.
    + by repeat split.
Qed.

Lemma processChatQueue_prov g s :
  Forall vetted (trace s) -> (forall g' c, c ∈ queueOf g' s -> wasViolation c) ->
  Forall vetted (trace (processChatQueue cfg g s).1) /\
  pcVetted (processChatQueue cfg g s).2 /\
  (forall g' c, c ∈ queueOf g' (processChatQueue cfg g s).1 -> wasViolation c).
Proof.
  intros Ht Hq. unfold processChatQueue.
  destruct (_ && _); [|by repeat split].
  set (n := Z.to_nat _). set (s1 := setQueue _ s).
  destruct (continueBatch_prov g (take n (queueOf g s)) s1) as (H1 & H2 & H3).
  { done. }
  { apply Forall_forall. intros c Hc. apply (Hq g).
    by apply (subseteq_take n (queueOf g s)). }
  split; [done|]. split; [done|].
  intros g' c. unfold queueOf at 1. rewrite H3.
  change (c ∈ queueOf g' s1 -> wasViolation c). unfold s1.
  destruct (decide (g' = g)) as [->|Hne].
  - rewrite queueOf_insert. intros Hc. apply (Hq g).
    by apply (subseteq_drop n (queueOf g s)).
  - rewrite queueOf_insert_ne by done. apply Hq.
Qed.

Lemma tryStart_prov g s : provInv s -> provInv (tryStartProcessingForChat cfg g s).
Proof.
  intros [Ht Hq Hp]. unfold tryStartProcessingForChat.
  destruct (processingOf g s || shuttingDown s); [done|].
  destruct (orOne (GLOBAL_CONCURRENCY cfg) <=? activeChats s); [done|].
  set (s1 := setProcessing _ _ s).
  pose proof (calm_processChatQueue cfg g s1) as Hc.
  destruct (processChatQueue_prov g s1 Ht Hq) as (H1 & H2 & H3).
  destruct (processChatQueue cfg g s1) as [s2 p]. simpl in *.
  split; simpl; [done|done|]. rewrite (c_tasks _ _ Hc).
  apply Forall_app. split; [done|]. by apply Forall_singleton.
Qed.

(** A message changes the state only if it is a violation. *)
Lemma onMessage_accepts env c s :
  onMessage cfg env c s = s \/
  (isViolation env c = true /\ onMessage cfg env c s = acceptViolation cfg c s).
Proof.
  destruct (shuttingDown s) eqn:Hdown.
  - left. unfold onMessage. rewrite Hdown.
    destruct (chatIdOf c); [|done]. destruct (message c); [|done].
    by rewrite orb_true_r.
  - rewrite (onMessage_violation cfg env c s Hdown).
    destruct (isViolation env c); [by right|by left].
Qed.

Lemma onMessage_prov env c s : provInv s -> provInv (onMessage cfg env c s).
Proof.
  intros Hinv. destruct (onMessage_accepts env c s) as [->|[Hv ->]]; [done|].
  unfold acceptViolation. destruct (bool_decide _); [done|].
  unfold enqueueDeletion. destruct (chatIdOf c) as [g|]; [|by destruct Hinv].
  destruct (String.eqb g ""); [by destruct Hinv|].
  set (s0 := setTimeout _ _ _). set (s1 := record _ _).
  assert (Hc : wasViolation c) by by exists env.
  assert (H1 : provInv s1).
  { destruct Hinv as [Ht Hq Hp]. split; [by apply vetted_snoc| |done].
    intros g' c'. unfold s1. change (queueOf g' (record ?e ?x)) with (queueOf g' x).
    destruct (decide (g' = g)) as [->|Hne].
    - rewrite queueOf_insert. intros [H| ->%list_elem_of_singleton]%elem_of_app;
        [by apply (Hq g)|done].
    - rewrite queueOf_insert_ne by done. apply Hq. }
  destruct (processingOf g s1); [done|]. by apply tryStart_prov.
Qed.

Lemma sendWarning_prov c n s :
  Forall vetted (trace s) -> wasViolation c ->
  Forall vetted (trace (sendWarning cfg c n s)).
Proof.
  intros Ht Hc. unfold sendWarning. destruct (SEND_WARNING cfg); [|done].
  by apply vetted_snoc.
Qed.

Lemma beginWarning_author c w w1 chat sender n :
  beginWarning cfg c w = (w1, LedgerRemoving chat sender n) -> authorOf c chat sender.
Proof.
  unfold beginWarning, authorOf.
  destruct (chatIdOf c) as [g|]; [|done].
  destruct (senderJidOf c ||| Some "") as [u|]; [|done].
  destruct (String.eqb g "" || String.eqb u ""); [done|].
  destruct (REMOVE_ON_MAX cfg && _); [|done]. by intros [= _ -> -> _].
Qed.

Lemma resume_prov g p ok s :
  Forall vetted (trace s) -> (forall g' c, c ∈ queueOf g' s -> wasViolation c) ->
  pcVetted p ->
  Forall vetted (trace (resume cfg g p ok s).1) /\
  (forall g' c, c ∈ queueOf g' (resume cfg g p ok s).1 -> wasViolation c) /\
  match (resume cfg g p ok s).2 with
  | Some p1 => pcVetted p1
  | None => True
  end.
Proof.
  intros Ht Hq [Hheld Hauth].
  assert (Hc : forall rest s0,
            Forall vetted (trace s0) -> perChatQueue s0 = perChatQueue s ->
            Forall wasViolation rest ->
            let r := (let '(s1, p1) := continueBatch g rest s0 in (s1, Some p1)) in
            Forall vetted (trace r.1) /\
            (forall g' c, c ∈ queueOf g' r.1 -> wasViolation c) /\
            match r.2 with Some p1 => pcVetted p1 | None => True end).
  { intros rest s0 H0 Hsame Hrest.
    destruct (continueBatch_prov g rest s0 H0 Hrest) as (H1 & H2 & H3).
    destruct (continueBatch g rest s0) as [s1 p1]. simpl in *.
    split; [done|]. split; [|done].
    intros g' c. unfold queueOf. rewrite H3, Hsame. apply Hq. }
  destruct p as [c i rest|c i rest|rest|c rest|c chat sender n rest|rest| |];
    cbn [resume]; simpl in Hheld;
    try (apply Forall_cons in Hheld as [Hcv Hrest]).
  - destruct ok; simpl.
    + split; [|split; [|split; [by apply Forall_cons|done]]].
      * unfold forwardDeletedLink. destruct (LOG_DELETED_LINKS cfg); [|done].
        by apply vetted_snoc.
      * unfold forwardDeletedLink. by destruct (LOG_DELETED_LINKS cfg).
    + destruct (Z.of_nat i <? deleteAttempts cfg); [|by apply Hc].
      simpl. split; [done|]. split; [done|]. split; [by apply Forall_cons|done].
    - simpl. split; [by apply vetted_snoc|]. split; [done|].
      split; [by apply Forall_cons|done].
    - by apply Hc.
    - destruct (beginWarning cfg c (perUserWarnings s)) as [w1 [r|chat sender n]] eqn:Hb;
        simpl.
      + split; [by apply sendWarning_prov|]. split; [|by split].
        unfold sendWarning. by destruct (SEND_WARNING cfg).
      + pose proof (beginWarning_author _ _ _ _ _ _ Hb) as Ha.
        split; [|split; [done|split; [by apply Forall_cons|done]]].
        apply vetted_snoc; [done|]. by exists c.
    - destruct (endRemoval chat sender n ok (perUserWarnings s)) as [w2 r].
      destruct (removed r); [by apply Hc|].
      simpl. split; [by apply sendWarning_prov|]. split; [|by split].
      unfold sendWarning. by destruct (SEND_WARNING cfg).
    - by apply Hc.
    - destruct (processChatQueue_prov g s Ht Hq) as (H1 & H2 & H3).
      by destruct (processChatQueue cfg g s).
    - simpl. split; [by destruct (nonEmpty _)|]. split; [|done].
      by destruct (nonEmpty _).
Qed.

Lemma step_prov l s s' : step cfg l s = Some s' -> provInv s -> provInv s'.
Proof.
  destruct l as [env c|n|n ok|d]; simpl.
  - intros [= <-]. apply onMessage_prov.
  - destruct (timers s !! n) as [t|]; [|done].
    destruct (due t <=? now s); [|done]. intros [= <-] Hinv.
    destruct (cb t) as [k|g]; simpl; [by destruct Hinv|].
    apply tryStart_prov. by destruct Hinv.
  - destruct (tasks s !! n) as [[g p]|] eqn:Hn; [|done].
    intros Hs [Ht Hq Hp].
    assert (Hpc : pcVetted p) by apply (Forall_lookup_1 _ _ _ _ Hp Hn).
    set (s0 := setTasks (delete n (tasks s)) s) in *.
    pose proof (resume_prov g p ok s0 Ht Hq Hpc) as (H1 & H2 & H3).
    pose proof (resume_calm cfg g p ok s0) as Hr.
    assert (Hdel : Forall (fun t => pcVetted t.2) (delete n (tasks s))).
    { by apply Forall_delete. }
    destruct (resume cfg g p ok s0) as [s1 [p1|]]; simpl in *; injection Hs as <-.
    + split; simpl; [done|done|]. rewrite (c_tasks _ _ Hr). simpl.
      apply Forall_app. split; [done|]. by apply Forall_singleton.
    + split; [done|done|]. destruct Hr as [_ ->]. cbv zeta.
      by destruct (nonEmpty _).
  - destruct (0 <=? d); [|done]. intros [= <-] Hinv. by destruct Hinv.
Qed.

Lemma run_prov ls s s' : run cfg ls s = Some s' -> provInv s -> provInv s'.
Proof.
  revert s; induction ls as [|l ls IH]; intros s; simpl.
  - by intros [= <-].
  - destruct (step cfg l s) as [s1|] eqn:E; [|done].
    intros Hr Hinv. eapply IH; [exact Hr|]. by eapply step_prov.
Qed.

Lemma initial_prov t0 : provInv (initial t0).
Proof.
  split; [apply Forall_nil_2| |apply Forall_nil_2].
  intros g c. unfold queueOf. simpl. rewrite lookup_empty. simpl.
  intros H. by apply elem_of_nil in H.
Qed.

(** What it takes to be a violation. *)
Lemma wasViolation_facts c :
  wasViolation c ->
  exists g, chatIdOf c = Some g /\ endsWith g "@g.us" = true /\
            fromMeOf c = false /\ isKnownCommand c = false /\ message c <> None.
Proof.
  intros [env Hv]. unfold isViolation in Hv.
  destruct (chatIdOf c) as [g|]; [|done]. destruct (message c); [|done].
  repeat (apply andb_prop in Hv as [Hv ?]).
  exists g. repeat split; try done.
  all: try by destruct (isKnownCommand c).
  all: by destruct (fromMeOf c).
Qed.

End Provenance.

(** X14.  The queue acts on violations only.  In every state it can
    reach, each message it has enqueued, tried to delete, forwarded or
    warned about is a message of a group chat ([remoteJid] ends in [@g.us])
    with a body, not sent by the bot itself and not an antilink command, and
    each removal it has requested is that of the author of such a message,
    from the chat the message was posted in. *)
Theorem only_violations_are_acted_on (cfg : config) (t0 : Z) (ls : list label)
    (s : state) (e : effect) :
  run cfg ls (initial t0) = Some s ->
  e ∈ trace s ->
  exists c g,
    chatIdOf c = Some g /\ endsWith g "@g.us" = true /\ fromMeOf c = false /\
    isKnownCommand c = false /\ message c <> None /\
    match e with
    | Enqueued c' | DeleteAttempt c' _ | Forwarded c' | Warned c' _ => c' = c
    | RemoveRequested chat sender =>
        chat = g /\ (senderJidOf c ||| Some "") = Some sender
    end.
Proof.
  intros Hrun Hin.
  destruct (run_prov cfg ls (initial t0) s Hrun (initial_prov t0)) as [Ht _ _].
  rewrite Forall_forall in Ht. specialize (Ht e Hin).
  destruct e as [c|c i|c|chat sender|c n]; simpl in Ht.
  1,2,3,5: destruct (wasViolation_facts c Ht) as (g & H1 & H2 & H3 & H4 & H5);
           by exists c, g.
  destruct Ht as (c & Hv & Hchat & Hsender).
  destruct (wasViolation_facts c Hv) as (g & H1 & H2 & H3 & H4 & H5).
  exists c, g. repeat split; try done. congruence.
Qed.

Lemma only_violations_are_acted_on_witness :
  exists c g,
    chatIdOf c = Some g /\ endsWith g "@g.us" = true /\ fromMeOf c = false /\
    isKnownCommand c = false /\ message c <> None /\
    "g@g.us" = g /\ (senderJidOf c ||| Some "") = Some "u@s.whatsapp.net".
Proof.
  apply (only_violations_are_acted_on oneAtATime 0 threeViolations
           afterThreeViolations (RemoveRequested "g@g.us" "u@s.whatsapp.net")).
  - vm_compute. reflexivity.
  - vm_compute. apply list_elem_of_In. simpl. tauto.
Defined.

Section Shutdown.
Variable cfg : config.

Lemma onMessage_down env c s : shuttingDown s = true -> onMessage cfg env c s = s.
Proof.
  intros Hdown. unfold onMessage. rewrite Hdown.
  destruct (chatIdOf c); [|done]. destruct (message c); [|done].
  by rewrite orb_true_r.
Qed.

Lemma tryStart_down g s :
  shuttingDown s = true -> tryStartProcessingForChat cfg g s = s.
Proof.
  intros Hdown. unfold tryStartProcessingForChat. by rewrite Hdown, orb_true_r.
Qed.

Lemma queueOf_cleared g s : perChatQueue s = ∅ -> queueOf g s = [].
Proof. intros H. unfold queueOf. by rewrite H, lookup_empty. Qed.

Section Wound.
Variables (held : list context) (n0 : nat) (tr0 : list effect).

Lemma wound_more s s' e :
  shuttingDown s' = shuttingDown s -> perChatQueue s' = perChatQueue s ->
  processedMessageIds s' = processedMessageIds s ->
  activeChats s' = activeChats s -> tasks s' = tasks s ->
  trace s' = trace s ++ e -> Forall (aftermath held) e ->
  wound held n0 tr0 s -> wound held n0 tr0 s'.
Proof.
  intros H1 H2 H3 H4 H5 H6 H7 [W1 W2 W3 W4 Wn W5 (more & W6 & W7)].
  split; try congruence.
  exists (more ++ e). split; [by rewrite H6, W6, app_assoc|].
  apply Forall_app. by split.
Qed.

Lemma adds_nothing s : adds s s [].
Proof. repeat split; try done. by rewrite app_nil_r. Qed.

Lemma adds_record e s : adds s (record e s) [e].
Proof. by repeat split. Qed.

Lemma continueBatch_down g batch s :
  perChatQueue s = ∅ ->
  exists e, adds s (continueBatch g batch s).1 e /\
    Forall (aftermath batch) e /\
    heldBy (continueBatch g batch s).2 ⊆ batch.
Proof.
  intros Hq. destruct batch as [|c rest]; simpl.
  - rewrite (queueOf_cleared g s Hq). simpl.
    exists []. split; [apply adds_nothing|]. by split.
  - unfold startDelete. destruct (truthy _); simpl.
    + exists [DeleteAttempt c 1]. split; [apply adds_record|].
      split; [|done]. apply Forall_singleton. simpl. set_solver.
    + exists []. split; [apply adds_nothing|]. split; [done|]. set_solver.
Qed.

Lemma aftermath_mono h1 h2 e :
  h1 ⊆ h2 -> Forall (aftermath h1) e -> Forall (aftermath h2) e.
Proof.
  intros Hsub H. eapply Forall_impl; [exact H|].
  intros [] Hx; simpl in *; try done; by apply Hsub.
Qed.

(** A drain resumed after the shutdown goes on with the batch it holds and
    takes no other. *)
Lemma resume_down g p ok s :
  shuttingDown s = true -> perChatQueue s = ∅ ->
  match (resume cfg g p ok s).2 with
  | Some p1 =>
      exists e, adds s (resume cfg g p ok s).1 e /\
        Forall (aftermath (heldBy p)) e /\ heldBy p1 ⊆ heldBy p
  | None =>
      (resume cfg g p ok s).1 =
        setProcessing (<[g := false]> (perChatProcessing s)) (activeChats s - 1) s
  end.
Proof.
  intros Hdown Hq.
  assert (Hc : forall rest s0 e0,
            adds s s0 e0 -> Forall (aftermath (heldBy p)) e0 -> rest ⊆ heldBy p ->
            let r := (let '(s1, p1) := continueBatch g rest s0 in (s1, Some p1)) in
            match r.2 with
            | Some p1 => exists e, adds s r.1 e /\
                           Forall (aftermath (heldBy p)) e /\ heldBy p1 ⊆ heldBy p
            | None =>
                r.1 = setProcessing (<[g := false]> (perChatProcessing s))
                                    (activeChats s - 1) s
            end).
  { intros rest s0 e0 H0 He0 Hsub.
    assert (Hq0 : perChatQueue s0 = ∅).
    { destruct H0 as (_ & -> & _). done. }
    destruct (continueBatch_down g rest s0 Hq0) as (e & Ha & He & Hh).
    destruct (continueBatch g rest s0) as [s1 p1]. simpl in *.
    exists (e0 ++ e). split; [|split].
    - destruct H0 as (A1 & A2 & A3 & A4 & A5 & A6 & A7).
      destruct Ha as (B1 & B2 & B3 & B4 & B5 & B6 & B7).
      repeat split; try congruence. by rewrite B7, A7, app_assoc.
    - apply Forall_app. split; [done|]. by eapply aftermath_mono.
    - by etrans. }
  destruct p as [c i rest|c i rest|rest|c rest|c chat sender n rest|rest| |];
    cbn [resume].
  - destruct ok; simpl.
    + unfold forwardDeletedLink. destruct (LOG_DELETED_LINKS cfg).
      * exists [Forwarded c]. split; [apply adds_record|]. split; [|done].
        apply Forall_singleton. simpl. set_solver.
      * exists []. split; [apply adds_nothing|]. by split.
    + destruct (Z.of_nat i <? deleteAttempts cfg).
      * simpl. exists []. split; [apply adds_nothing|]. by split.
      * apply (Hc rest s []); [apply adds_nothing|done|simpl; set_solver].
  - simpl. exists [DeleteAttempt c (S i)]. split; [apply adds_record|].
    split; [|done]. apply Forall_singleton. simpl. set_solver.
  - apply (Hc rest s []); [apply adds_nothing|done|done].
  - destruct (beginWarning cfg c (perUserWarnings s)) as [w1 [r|chat sender n]]; simpl.
    + unfold sendWarning. destruct (SEND_WARNING cfg).
      * exists [Warned c (count r)]. split; [by repeat split|]. split.
        -- apply Forall_singleton. simpl. set_solver.
        -- set_solver.
      * exists []. split; [repeat split; try done; by rewrite app_nil_r|].
        split; [done|set_solver].
    + exists [RemoveRequested chat sender]. split; [by repeat split|].
      split; [|done]. by apply Forall_singleton.
  - destruct (endRemoval chat sender n ok (perUserWarnings s)) as [w2 r].
    destruct (removed r).
    + apply (Hc rest (setWarnings w2 s) []); [|done|simpl; set_solver].
      repeat split; try done. by rewrite app_nil_r.
    + simpl. unfold sendWarning. destruct (SEND_WARNING cfg).
      * exists [Warned c (count r)]. split; [by repeat split|]. split.
        -- apply Forall_singleton. simpl. set_solver.
        -- set_solver.
      * exists []. split; [repeat split; try done; by rewrite app_nil_r|].
        split; [done|set_solver].
  - apply (Hc rest s []); [apply adds_nothing|done|done].
  - unfold processChatQueue. rewrite Hdown, andb_false_r. simpl.
    exists []. split; [apply adds_nothing|]. by split.
  - cbv zeta. cbn [fst snd].
    change (queueOf g (setProcessing _ _ s)) with (queueOf g s).
    by rewrite (queueOf_cleared g _ Hq).
Qed.

Lemma step_wound l s s' :
  step cfg l s = Some s' -> wound held n0 tr0 s -> wound held n0 tr0 s'.
Proof.
  intros Hs Hw. pose proof Hw as [W1 W2 W3 W4 Wn W5 W6].
  destruct l as [env c|n|n ok|d]; simpl in Hs.
  - injection Hs as <-. by rewrite onMessage_down.
  - destruct (timers s !! n) as [t|]; [|done].
    destruct (due t <=? now s); [|done]. injection Hs as <-.
    destruct (cb t) as [k|g]; simpl.
    + split; simpl; try done. rewrite W3. set_solver.
    + rewrite tryStart_down by done. by split.
  - destruct (tasks s !! n) as [[g p]|] eqn:Hn; [|done].
    pose proof (length_delete_at _ _ _ Hn) as Hlen.
    assert (Hp : heldBy p ⊆ held) by apply (Forall_lookup_1 _ _ _ _ W5 Hn).
    assert (Hdel : Forall (fun t => heldBy t.2 ⊆ held) (delete n (tasks s))).
    { by apply Forall_delete. }
    set (s0 := setTasks (delete n (tasks s)) s) in *.
    pose proof (resume_down g p ok s0 W1 W2) as Hr.
    destruct (resume cfg g p ok s0) as [s1 [p1|]]; simpl in Hr; injection Hs as <-.
    + destruct Hr as (e & (A1 & A2 & A3 & A4 & A5 & A6 & A7) & He & Hh).
      destruct W6 as (more & W6 & W7).
      split; simpl.
      * by rewrite A1.
      * by rewrite A2.
      * by rewrite A3.
      * rewrite A4, A5, length_app. simpl. lia.
      * rewrite A5, length_app. simpl. lia.
      * rewrite A5. apply Forall_app. split; [done|].
        apply Forall_singleton. simpl. by etrans.
      * exists (more ++ e). split; [rewrite A7; simpl; by rewrite W6, app_assoc|].
        apply Forall_app. split; [done|]. by eapply aftermath_mono.
    + rewrite Hr. split; simpl; try done; lia.
  - destruct (0 <=? d); [|done]. injection Hs as <-. by split.
Qed.

Lemma run_wound ls s s' :
  run cfg ls s = Some s' -> wound held n0 tr0 s -> wound held n0 tr0 s'.
Proof.
  revert s; induction ls as [|l ls IH]; intros s; simpl.
  - by intros [= <-].
  - destruct (step cfg l s) as [s1|] eqn:E; [|done].
    intros Hr Hinv. eapply IH; [exact Hr|]. by eapply step_wound.
Qed.

End Wound.

Lemma cleanup_wound s :
  wound (heldAll (tasks s)) (length (tasks s)) (trace s) (cleanup s).
Proof.
  split; simpl; try done.
  - lia.
  - apply Forall_forall. intros t Ht c Hc. unfold heldAll.
    apply list_elem_of_In, in_flat_map. exists t.
    split; by apply list_elem_of_In.
  - exists []. by rewrite app_nil_r.
Qed.


End Shutdown.



(** X16.  [cleanup] resets [activeChats] to 0 while drains are still
    in flight, and each of them decrements it when it ends: in every state
    reached after [cleanup], the counter is minus the number of drains that
    were in flight then and have ended since.  It is negative as soon as
    one has ended, and stays so: nothing raises it before the next
    [initialize]. *)
Theorem cleanup_leaves_counter_negative (cfg : config) (s s' : state)
    (ls : list label) :
  run cfg ls (cleanup s) = Some s' ->
  activeChats s' = Z.of_nat (length (tasks s')) - Z.of_nat (length (tasks s)) /\
  activeChats s' <= 0 /\
  (tasks s' = [] -> activeChats s' = - Z.of_nat (length (tasks s))).
Proof.
  intros Hrun.
  destruct (run_wound cfg _ _ _ ls (cleanup s) s' Hrun (cleanup_wound s))
    as [_ _ _ W4 Wn _ _].
  split; [done|]. split; [lia|]. intros Hnil. rewrite W4, Hnil. simpl. lia.
Qed.

Lemma cleanup_leaves_counter_negative_witness :
  activeChats afterCleanup =
    Z.of_nat (length (tasks afterCleanup)) - Z.of_nat (length (tasks midDrain)) /\
  activeChats afterCleanup <= 0 /\
  (tasks afterCleanup = [] -> activeChats afterCleanup = - Z.of_nat (length (tasks midDrain))).
Proof.
  apply (cleanup_leaves_counter_negative oneAtATime midDrain afterCleanup
           (repeat (Resume 0 true) 4)).
  vm_compute. reflexivity.
Defined.

(** The run of the two witnesses: the drain in flight finishes the action
    it holds after the shutdown (it is forwarded and warned about) and
    leaves the counter at -1; the two actions still queued are dropped. *)
Example cleanup_mid_drain :
  trace afterCleanup =
    trace midDrain ++ [Forwarded A1; Warned A1 1] /\
  tasks afterCleanup = [] /\ activeChats afterCleanup = -1.
Proof. vm_compute. by repeat split. Qed.

Section Expiry.
Variable cfg : config.

Lemma samePair_refl c : samePair c c = true.
Proof. unfold samePair. by apply bool_decide_eq_true. Qed.

Lemma fire_forgets n t k s s1 :
  timers s !! n = Some t -> cb t = ForgetMessage k ->
  step cfg (Fire n) s = Some s1 ->
  (k ∉ processedMessageIds s1) /\ shuttingDown s1 = shuttingDown s /\
  trace s1 = trace s /\ due t <= now s.
Proof.
  intros Hn Hcb. simpl. rewrite Hn.
  destruct (due t <=? now s) eqn:Hdue; [|done]. rewrite Hcb. simpl.
  intros [= <-]. simpl. split; [set_solver|]. split; [done|]. split; [done|].
  by apply Z.leb_le.
Qed.

End Expiry.

(** X17.  Suppression of a duplicate is temporary.  When the timer
    that [onMessage] set for a message key fires (it can fire only once it
    is due, 5000 ms after the message was accepted), the key is forgotten:
    if the same violating message is handled again after that, it is
    enqueued again and suppressed anew. *)
Theorem suppression_expires (cfg : config) (t0 : Z) (ls0 : list label)
    (s s1 : state) (n : nat) (t : timer) (env : answers) (c : context) :
  run cfg ls0 (initial t0) = Some s ->
  timers s !! n = Some t -> cb t = ForgetMessage (getMessageKey c) ->
  step cfg (Fire n) s = Some s1 ->
  isViolation env c = true ->
  due t <= now s /\
  (getMessageKey c ∉ processedMessageIds s1) /\
  enqueuedLike c (trace (onMessage cfg env c s1)) = S (enqueuedLike c (trace s)) /\
  getMessageKey c ∈ processedMessageIds (onMessage cfg env c s1).
Proof.
  intros Hrun Hn Hcb Hfire Hv.
  destruct (fire_forgets cfg n t _ s s1 Hn Hcb Hfire) as (Hk & Hdown & Htr & Hdue).
  pose proof (run_dedupInv cfg ls0 (initial t0) s Hrun (initial_dedupInv t0)) as Hd.
  assert (Hup : shuttingDown s1 = false) by (rewrite Hdown; by destruct Hd).
  rewrite (onMessage_violation cfg env c s1 Hup), Hv.
  destruct (acceptViolation_fresh cfg c s1 Hk) as (Hp & _ & _ & _ & Henq).
  split; [done|]. split; [done|]. split.
  - rewrite Henq, (isViolation_chat env c Hv), samePair_refl, Htr. simpl. lia.
  - rewrite Hp. set_solver.
Qed.

Lemma suppression_expires_witness :
  due {| due := 5000; cb := ForgetMessage (getMessageKey A1) |}
    <= now fiveSecondsLater /\
  (getMessageKey A1 ∉ processedMessageIds forgotten) /\
  enqueuedLike A1 (trace (onMessage defaultConfig (enforcing []) A1 forgotten)) =
    S (enqueuedLike A1 (trace fiveSecondsLater)) /\
  getMessageKey A1 ∈ processedMessageIds (onMessage defaultConfig (enforcing []) A1 forgotten).
Proof.
  apply (suppression_expires defaultConfig 0 [Message (enforcing []) A1; Tick 5000]
           fiveSecondsLater forgotten 0 _ (enforcing []) A1).
  - vm_compute. reflexivity.
  - vm_compute. reflexivity.
  - reflexivity.
  - vm_compute. reflexivity.
  - vm_compute. reflexivity.
Defined.

Section CommandWord.

Lemma trimEnd_after_word w y :
  w <> "" -> endsNonWs w = true -> trimEnd (w +:+ y) = w +:+ trimEnd y.
Proof.
  induction w as [|c w IH]; [intros H; by contradict H|]. intros _ Hend.
  rewrite !append_cons. destruct w as [|d w].
  - simpl in Hend. simpl. rewrite !append_empty. destruct (trimEnd y); [|done].
    by apply negb_true_iff in Hend as ->.
  - cbn [trimEnd]. rewrite IH; [|done|done]. by rewrite append_cons.
Qed.

Lemma firstWord_word w t :
  allChars isNotWhiteSpace w = true ->
  (t = "" \/ exists c r, t = String c r /\ isWhiteSpace c = true) ->
  firstWord (w +:+ t) = w.
Proof.
  intros Hw Ht. induction w as [|c w IH]; simpl in *.
  - destruct Ht as [->|(d & r & -> & Hd)]; [done|]. simpl. by rewrite Hd.
  - apply andb_prop in Hw as [Hc Hw]. apply negb_true_iff in Hc.
    by rewrite Hc, IH.
Qed.

Lemma endsNonWs_all w : allChars isNotWhiteSpace w = true -> endsNonWs w = true.
Proof.
  induction w as [|c w IH]; simpl; [done|].
  intros [Hc Hw]%andb_prop. destruct w; [done|]. by apply IH.
Qed.

Lemma trimEnd_ws_head c r :
  isWhiteSpace c = true ->
  trimEnd (String c r) = "" \/ exists r', trimEnd (String c r) = String c r'.
Proof.
  intros Hc. simpl. destruct (trimEnd r); [left; by rewrite Hc|right; by eexists].
Qed.

(** The command word of a text that starts, after white space, with [word]
    followed by white space or nothing. *)
Lemma command_word pad word rest :
  allChars isWhiteSpace pad = true ->
  word <> "" -> allChars isNotWhiteSpace word = true ->
  (rest = "" \/ exists c r, rest = String c r /\ isWhiteSpace c = true) ->
  trim (pad +:+ word +:+ rest) <> "" /\
  firstWord (trim (pad +:+ word +:+ rest)) = word.
Proof.
  intros Hpad Hne Hw Hrest. unfold trim.
  assert (Hstart : trimStart (pad +:+ word +:+ rest) = word +:+ rest).
  { destruct word as [|c w]; [done|]. simpl in Hw.
    apply andb_prop in Hw as [Hc _]. apply negb_true_iff in Hc.
    rewrite append_cons, trimStart_app_stop by done.
    assert (Hp : trimStart pad = "").
    { clear -Hpad. induction pad as [|d p IH]; simpl in *; [done|].
      apply andb_prop in Hpad as [Hd Hp]. rewrite Hd. by apply IH. }
    by rewrite Hp. }
  rewrite Hstart, trimEnd_after_word; [|done|by apply endsNonWs_all].
  split.
  - destruct word; [done|]. by rewrite append_cons.
  - apply firstWord_word; [done|].
    destruct Hrest as [->|(c & r & -> & Hc)]; [by left|].
    destruct (trimEnd_ws_head c r Hc) as [->|[r' ->]]; [by left|right].
    by exists c, r'.
Qed.

End CommandWord.

(** X18.  A message taken for an antilink command is never acted
    upon.  If the framework marks a message as a command and its text
    starts, after optional white space, with a word that lower-cased and
    with its first slash removed is [antilink] or [antilinkwl], followed by
    white space or nothing, then [onMessage] enqueues nothing for it:
    whoever sent it, whatever else it contains, and whatever the group's
    setting, the admin check and the link check answer. *)
Theorem command_is_never_enforced (cfg : config) (env : answers) (ctx : context)
    (s : state) (pad word rest : string) :
  isCommand ctx = true ->
  (text ctx ||| Some (extractTextFromMessage ctx)) = Some (pad +:+ word +:+ rest) ->
  allChars isWhiteSpace pad = true ->
  word <> "" -> allChars isNotWhiteSpace word = true ->
  dropFirstSlash (toLowerCase word) ∈ commands ->
  (rest = "" \/ exists c r, rest = String c r /\ isWhiteSpace c = true) ->
  isKnownCommand ctx = true /\ onMessage cfg env ctx s = s.
Proof.
  intros Hcmd Htext Hpad Hne Hw Hin Hrest.
  destruct (command_word pad word rest Hpad Hne Hw Hrest) as [Hnonempty Hfirst].
  assert (Hknown : isKnownCommand ctx = true).
  { unfold isKnownCommand, commandOf. rewrite Hcmd, Htext. simpl.
    apply String.eqb_neq in Hnonempty as ->. simpl.
    rewrite Hfirst. by apply bool_decide_eq_true. }
  split; [done|]. unfold onMessage.
  destruct (chatIdOf ctx); [|done]. destruct (message ctx); [|done].
  destruct (_ || _); [done|]. by rewrite Hknown.
Qed.

Lemma command_is_never_enforced_witness :
  isKnownCommand (commandMessage "g@g.us" "m9" "u@s.whatsapp.net"
                    (" " +:+ "/AntiLink" +:+ " see http://x.org")) = true /\
  onMessage defaultConfig (enforcing [])
    (commandMessage "g@g.us" "m9" "u@s.whatsapp.net"
       (" " +:+ "/AntiLink" +:+ " see http://x.org")) (initial 0) = initial 0.
Proof.
  apply (command_is_never_enforced defaultConfig (enforcing []) _ (initial 0)
           " " "/AntiLink" " see http://x.org"); try reflexivity.
  - discriminate.
  - vm_compute. apply list_elem_of_In. simpl. tauto.
  - right. by exists " "%char, "see http://x.org".
Defined.

Section Keys.

Lemma colon_split a a' i i' :
  allChars isNotColon a = true -> allChars isNotColon a' = true ->
  a +:+ String ":" i = a' +:+ String ":" i' -> a = a' /\ i = i'.
Proof.
  revert a'. induction a as [|c a IH]; intros [|c' a'] Ha Ha' Heq.
  - simpl in Heq. by injection Heq.
  - rewrite append_cons in Heq. simpl in Heq. injection Heq as <- _.
    simpl in Ha'. done.
  - rewrite append_cons in Heq. simpl in Heq. injection Heq as -> _.
    simpl in Ha. done.
  - rewrite !append_cons in Heq. injection Heq as -> Heq.
    simpl in Ha, Ha'. apply andb_prop in Ha as [_ Ha]. apply andb_prop in Ha' as [_ Ha'].
    destruct (IH a' Ha Ha' Heq) as [-> ->]. done.
Qed.

Lemma getMessageKey_value c g :
  chatIdOf c = Some g ->
  getMessageKey c =
    match messageIdOf c with
    | Some i => if String.eqb i "" then None else Some (g +:+ String ":" i)
    | None => None
    end.
Proof.
  unfold chatIdOf, getMessageKey, messageIdOf. destruct (key c) as [k|]; [|done].
  intros ->. done.
Qed.

End Keys.

(** X19.  When the duplicate test takes two messages for the same.  For
    messages of chats whose JID holds no colon, [getMessageKey] gives the
    same key exactly if both messages lack an id (then the key is [null] for
    both, whatever their chats) or both have the same chat and the same
    non-empty id. *)
Theorem message_key_identifies (c1 c2 : context) (g1 g2 : string) :
  chatIdOf c1 = Some g1 -> chatIdOf c2 = Some g2 ->
  allChars isNotColon g1 = true -> allChars isNotColon g2 = true ->
  (getMessageKey c1 = getMessageKey c2 <->
     (truthy (messageIdOf c1) = false /\ truthy (messageIdOf c2) = false) \/
     (truthy (messageIdOf c1) = true /\ g1 = g2 /\ messageIdOf c1 = messageIdOf c2)).
Proof.
  intros H1 H2 Hg1 Hg2.
  rewrite (getMessageKey_value c1 g1 H1), (getMessageKey_value c2 g2 H2).
  destruct (messageIdOf c1) as [i1|], (messageIdOf c2) as [i2|]; simpl.
  - destruct (String.eqb i1 "") eqn:E1, (String.eqb i2 "") eqn:E2; simpl.
    + split; [by left|done].
    + split; [done|]. intros [[_ ?]|[? _]]; done.
    + split; [done|]. intros [[? _]|(_ & _ & [= ->])]; [done|]. congruence.
    + split.
      * intros [= Heq]. destruct (colon_split _ _ _ _ Hg1 Hg2 Heq) as [-> ->].
        by right.
      * intros [[? _]|(_ & -> & [= ->])]; done.
  - destruct (String.eqb i1 "") eqn:E1; simpl.
    + split; [by left|done].
    + split; [done|]. intros [[? _]|(_ & _ & ?)]; done.
  - destruct (String.eqb i2 "") eqn:E2; simpl.
    + split; [by left|done].
    + split; [done|]. intros [[_ ?]|(? & _)]; done.
  - split; [by left|done].
Qed.

Lemma message_key_identifies_witness :
  getMessageKey A1 = getMessageKey A1 <->
    (truthy (messageIdOf A1) = false /\ truthy (messageIdOf A1) = false) \/
    (truthy (messageIdOf A1) = true /\ "g@g.us" = "g@g.us" /\
     messageIdOf A1 = messageIdOf A1).
Proof.
  apply (message_key_identifies A1 A1 "g@g.us" "g@g.us"); reflexivity.
Defined.

Section EmptyEntry.

Lemma includes_empty t : includes t "" = true.
Proof. by destruct t. Qed.

End EmptyEntry.

(** X20.  An empty whitelist entry exempts everything.  If the
    whitelist of a group holds the empty string, every message of the group
    is exempt, links or not: the entry holds no [@], and every text includes
    the empty string. *)
Theorem empty_entry_exempts_all (cfg : config) (env : answers) (ctx : context)
    (s : state) (sender body : string) :
  "" ∈ whitelist (setting env) ->
  isWhitelisted (whitelist (setting env)) sender body = true /\
  onMessage cfg env ctx s = s.
Proof.
  intros Hin.
  assert (Hwl : forall sd bd, isWhitelisted (whitelist (setting env)) sd bd = true).
  { intros sd bd. apply isWhitelisted_iff. exists "". split; [done|]. right.
    split; [done|]. apply includes_empty. }
  split; [apply Hwl|]. unfold onMessage.
  destruct (chatIdOf ctx); [|done]. destruct (message ctx); [|done].
  destruct (_ || _); [done|]. destruct (isKnownCommand ctx); [done|].
  destruct (endsWith _ _); [|done]. destruct (negb _); [done|].
  destruct (_ || _); [done|]. by rewrite Hwl.
Qed.

Lemma empty_entry_exempts_all_witness :
  isWhitelisted (whitelist (setting (enforcing ["example.com"; ""])))
    "u@s.whatsapp.net" "http://x.org/1" = true /\
  onMessage defaultConfig (enforcing ["example.com"; ""]) A1 (initial 0) = initial 0.
Proof.
  apply (empty_entry_exempts_all defaultConfig (enforcing ["example.com"; ""]) A1
           (initial 0)).
  simpl. set_solver.
Defined.

Section LedgerBound.
Variable cfg : config.
Hypothesis removing : REMOVE_ON_MAX cfg = true.

Lemma increment_bounded ctx w :
  ledgerOK cfg w ->
  let r := incrementWarningAndMaybeRemove cfg true ctx w in
  ledgerOK cfg r.1 /\
  (removed r.2 = false -> count r.2 = 0 \/ 1 <= count r.2 < MAX_WARNS cfg) /\
  (removed r.2 = true -> MAX_WARNS cfg <= count r.2).
Proof.
  intros Hok. unfold incrementWarningAndMaybeRemove, beginWarning.
  destruct (chatIdOf ctx) as [g|]; [|split; [done|split; [by left|done]]].
  destruct (senderJidOf ctx ||| Some "") as [u|]; [|split; [done|split; [by left|done]]].
  destruct (String.eqb g "" || String.eqb u ""); [split; [done|split; [by left|done]]|].
  rewrite removing. cbn [andb]. cbv zeta.
  set (k := userKey g u). set (n := default 0 (w !! k) + 1).
  assert (Hn : 1 <= n).
  { unfold n. destruct (w !! k) as [v|] eqn:Hv; simpl; [|lia].
    destruct (Hok k v Hv). lia. }
  clearbody n.
  destruct (MAX_WARNS cfg <=? n) eqn:Hmax.
  - apply Z.leb_le in Hmax. simpl. split; [|split; [done|done]].
    intros k' v. destruct (decide (k' = k)) as [->|Hne].
    + by rewrite lookup_delete_eq.
    + rewrite lookup_delete_ne, lookup_insert_ne by done. apply Hok.
  - apply Z.leb_gt in Hmax. simpl. split; [|split; [right; lia|done]].
    intros k' v. destruct (decide (k' = k)) as [->|Hne].
    + rewrite lookup_insert_eq. intros [= <-]. lia.
    + rewrite lookup_insert_ne by done. apply Hok.
Qed.

Lemma warnAll_bounded ctxs w : ledgerOK cfg w -> ledgerOK cfg (warnAll cfg ctxs w).
Proof.
  unfold warnAll. revert w. induction ctxs as [|c ctxs IH]; intros w Hok; [done|].
  simpl. apply IH. by apply increment_bounded.
Qed.

End LedgerBound.

(** X21.  With [REMOVE_ON_MAX] on and removals that succeed, nobody
    stays on record with [MAX_WARNS] warnings or more.  After any sequence
    of violations every counter in [perUserWarnings] is at least 1 and below
    [MAX_WARNS]; each further violation either removes its author (the
    count returned is then [MAX_WARNS] or more and the counter is dropped)
    or returns a count below [MAX_WARNS], so that the warning sent for it
    announces at least one remaining warning. *)
Theorem ledger_stays_below_limit (cfg : config) (ctxs : list context) (ctx : context) :
  REMOVE_ON_MAX cfg = true ->
  let w := warnAll cfg ctxs ∅ in
  let r := incrementWarningAndMaybeRemove cfg true ctx w in
  ledgerOK cfg w /\ ledgerOK cfg r.1 /\
  (removed r.2 = true -> MAX_WARNS cfg <= count r.2) /\
  (removed r.2 = false -> count r.2 <> 0 ->
     1 <= count r.2 < MAX_WARNS cfg /\ 1 <= remainingWarnings cfg (count r.2)).
Proof.
  intros Hrem w r.
  assert (Hw : ledgerOK cfg w).
  { apply warnAll_bounded; [done|]. intros k v. by rewrite lookup_empty. }
  destruct (increment_bounded cfg Hrem ctx w Hw) as (H1 & H2 & H3).
  split; [done|]. split; [done|]. split; [done|].
  subst r. cbv zeta in H2.
  intros Hno Hcount. destruct (H2 Hno) as [H|H]; [done|].
  split; [done|]. unfold remainingWarnings. lia.
Qed.

Lemma ledger_stays_below_limit_witness :
  let w := warnAll defaultConfig [A1; A2] ∅ in
  let r := incrementWarningAndMaybeRemove defaultConfig true A3 w in
  ledgerOK defaultConfig w /\ ledgerOK defaultConfig r.1 /\
  (removed r.2 = true -> MAX_WARNS defaultConfig <= count r.2) /\
  (removed r.2 = false -> count r.2 <> 0 ->
     1 <= count r.2 < MAX_WARNS defaultConfig /\
     1 <= remainingWarnings defaultConfig (count r.2)).
Proof.
  apply (ledger_stays_below_limit defaultConfig [A1; A2] A3). reflexivity.
Defined.

Section StoredWhitelist.

Lemma uniqueFirst_spec seen xs x :
  x ∈ uniqueFirst seen xs <-> x ∈ xs /\ x ∉ seen.
Proof.
  revert seen. induction xs as [|y xs IH]; intros seen; simpl.
  - split; [intros H; by apply elem_of_nil in H|intros [H _]; by apply elem_of_nil in H].
  - destruct (bool_decide (y ∈ seen)) eqn:Hy.
    + apply bool_decide_eq_true in Hy. rewrite IH, elem_of_cons. split.
      * intros [H1 H2]. split; [by right|done].
      * intros [[->|H1] H2]; [done|by split].
    + apply bool_decide_eq_false in Hy. rewrite !elem_of_cons, IH, elem_of_cons.
      split.
      * intros [->|[H1 H2]]; [split; [by left|done]|].
        split; [by right|]. intros H. apply H2. by right.
      * intros [[->|H1] H2]; [by left|].
        destruct (decide (x = y)) as [->|Hne]; [by left|right].
        split; [done|]. by intros [?|?].
Qed.

Lemma uniqueFirst_NoDup seen xs : NoDup (uniqueFirst seen xs).
Proof.
  revert seen. induction xs as [|y xs IH]; intros seen; simpl; [apply NoDup_nil_2|].
  destruct (bool_decide (y ∈ seen)); [apply IH|].
  apply NoDup_cons. split; [|apply IH].
  rewrite uniqueFirst_spec. intros [_ H]. apply H, elem_of_cons. by left.
Qed.

Lemma uniqueFirst_fixed seen xs :
  NoDup xs -> (forall x, x ∈ xs -> x ∉ seen) -> uniqueFirst seen xs = xs.
Proof.
  revert seen. induction xs as [|y xs IH]; intros seen Hnd Hseen; simpl; [done|].
  apply NoDup_cons in Hnd as [Hy Hnd].
  rewrite bool_decide_eq_false_2 by (apply Hseen, elem_of_cons; by left).
  f_equal. apply IH; [done|]. intros x Hx [->|H]%elem_of_cons; [done|].
  apply (Hseen x); [apply elem_of_cons; by right|done].
Qed.

Lemma uniqueFirst_sublist seen xs : uniqueFirst seen xs `sublist_of` xs.
Proof.
  revert seen. induction xs as [|y xs IH]; intros seen; simpl; [done|].
  destruct (bool_decide (y ∈ seen)).
  - by apply sublist_cons.
  - by apply sublist_skip.
Qed.

Lemma filter_nonempty_spec wl x :
  x ∈ List.filter (fun item => negb (String.eqb item "")) wl <-> x ∈ wl /\ x <> "".
Proof.
  rewrite !list_elem_of_In, filter_In, negb_true_iff, String.eqb_neq. done.
Qed.

Lemma filter_nonempty_fixed wl :
  (forall x, x ∈ wl -> x <> "") ->
  List.filter (fun item => negb (String.eqb item "")) wl = wl.
Proof.
  induction wl as [|y wl IH]; intros H; simpl; [done|].
  assert (Hy : String.eqb y "" = false).
  { apply String.eqb_neq, H, elem_of_cons. by left. }
  rewrite Hy. simpl. f_equal. apply IH. intros x Hx. apply H, elem_of_cons. by right.
Qed.

Lemma filter_nonempty_sublist wl :
  List.filter (fun item => negb (String.eqb item "")) wl `sublist_of` wl.
Proof.
  induction wl as [|y wl IH]; simpl; [done|].
  destruct (negb _); [by apply sublist_skip|by apply sublist_cons].
Qed.

Lemma uniqueWl_spec wl x : x ∈ uniqueWl wl <-> x ∈ wl /\ x <> "".
Proof.
  unfold uniqueWl. rewrite uniqueFirst_spec, filter_nonempty_spec.
  split; [by intros [H _]|]. intros H. split; [done|]. intros H'. by apply elem_of_nil in H'.
Qed.

End StoredWhitelist.

(** X22.  What [setGroupWhitelist] writes.  The list it stores has
    no duplicates and no empty entry, holds exactly the non-empty entries it
    was given, in the order of their first occurrence, and storing it again
    changes nothing.  In particular it never holds the empty entry, which
    would exempt every message of the group; apart from that entry the
    stored list exempts the same messages as the list given. *)
Theorem stored_whitelist_is_clean (stringify : list string -> string)
    (chatJid : string) (wl : list string) (t : gmap string settingsRow) :
  row_whitelist <$> (setGroupWhitelist stringify true chatJid wl t).1 !! chatJid =
    Some (Some (stringify (uniqueWl wl))) /\
  NoDup (uniqueWl wl) /\
  (forall item, item ∈ uniqueWl wl <-> item ∈ wl /\ item <> "") /\
  uniqueWl wl `sublist_of` wl /\
  uniqueWl (uniqueWl wl) = uniqueWl wl /\
  (forall sender body,
     isWhitelisted (uniqueWl wl) sender body = true <->
     exists item, item ∈ wl /\ item <> "" /\ whitelistMatch sender body item = true).
Proof.
  split.
  { unfold setGroupWhitelist, upsertWhitelist. cbn [fst].
    destruct (t !! chatJid); by rewrite lookup_insert_eq. }
  split; [apply uniqueFirst_NoDup|].
  split; [apply uniqueWl_spec|]. split; [|split].
  - unfold uniqueWl. etrans; [apply uniqueFirst_sublist|].
    apply filter_nonempty_sublist.
  - unfold uniqueWl at 1. rewrite filter_nonempty_fixed.
    + apply uniqueFirst_fixed; [apply uniqueFirst_NoDup|].
      intros x _ H. by apply elem_of_nil in H.
    + intros x Hx. by apply uniqueWl_spec in Hx as [_ ?].
  - intros sender body. unfold isWhitelisted. rewrite existsb_exists. split.
    + intros (item & Hin & Hm). exists item.
      apply list_elem_of_In, uniqueWl_spec in Hin as [H1 H2]. done.
    + intros (item & Hin & Hne & Hm). exists item. split; [|done].
      apply list_elem_of_In, uniqueWl_spec. done.
Qed.

Section FailOpen.
Variable parse : string -> option (list string).

Lemma getGroupSetting_enabled r :
  enabled (getGroupSetting parse r) = true ->
  exists row wl, r = DbRow (Some row) /\ row_enabled row <> 0 /\
    parse (default "[]" (row_whitelist row ||| Some "[]")) = Some wl /\
    getGroupSetting parse r = {| enabled := true; whitelist := wl |}.
Proof.
  destruct r as [|[row|]]; simpl; [done| |done].
  destruct (parse _) as [wl|] eqn:Hp; simpl; [|done].
  intros H. exists row, wl. apply negb_true_iff in H. rewrite H. simpl.
  split; [done|]. split; [|done]. by apply Z.eqb_neq.
Qed.

End FailOpen.

(** X23.  Trouble with the settings fails open.  [getGroupSetting]
    reports a group as enabled only if the database delivered its row, the
    row's [enabled] is not 0 and its whitelist column parses; when [db.get]
    rejects, the row is missing or the column is malformed, the setting is
    disabled with an empty whitelist, and [onMessage] then enqueues nothing
    for the group, whatever the message. *)
Theorem settings_trouble_fails_open (parse : string -> option (list string))
    (r : dbGet) (cfg : config) (ctx : context) (s : state) (adm link : bool) :
  let setting := getGroupSetting parse r in
  (enabled setting = true <->
     exists row wl, r = DbRow (Some row) /\ row_enabled row <> 0 /\
       parse (default "[]" (row_whitelist row ||| Some "[]")) = Some wl /\
       whitelist setting = wl) /\
  (enabled setting = false ->
     whitelist setting = [] \/ (exists row, r = DbRow (Some row) /\ row_enabled row = 0)) /\
  (enabled setting = false ->
     onMessage cfg {| setting := setting; admin := adm; containsLink := link |} ctx s = s).
Proof.
  intros setting. split; [|split].
  - split.
    + intros H. destruct (getGroupSetting_enabled parse r H) as (row & wl & H1 & H2 & H3 & H4).
      exists row, wl. unfold setting. by rewrite H4.
    + intros (row & wl & -> & H2 & H3 & H4). unfold setting. simpl. rewrite H3. simpl.
      apply negb_true_iff. by apply Z.eqb_neq.
  - unfold setting. destruct r as [|[row|]]; simpl; [by left| |by left].
    destruct (parse _); simpl; [|by left].
    intros H. right. exists row. split; [done|]. apply negb_false_iff in H.
    by apply Z.eqb_eq.
  - intros Hoff. unfold onMessage.
    destruct (chatIdOf ctx); [|done]. destruct (message ctx); [|done].
    destruct (_ || _); [done|]. destruct (isKnownCommand ctx); [done|].
    destruct (endsWith _ _); [|done]. simpl. by rewrite Hoff.
Qed.

Section RoundTrip.
Variable stringify : list string -> string.
Variable parse : string -> option (list string).
Variable wl : list string.
Hypothesis parse_stringify : parse (stringify (uniqueWl wl)) = Some (uniqueWl wl).
Hypothesis stringify_nonempty : stringify (uniqueWl wl) <> "".
Hypothesis parse_empty : parse "[]" = Some [].

Lemma column_written :
  parse (default "[]" (Some (stringify (uniqueWl wl)) ||| Some "[]")) =
    Some (uniqueWl wl).
Proof.
  unfold or_else. simpl.
  pose proof stringify_nonempty as Hne. apply String.eqb_neq in Hne.
  rewrite Hne. simpl. apply parse_stringify.
Qed.

Lemma read_after_enable chatJid e t :
  (forall row, t !! chatJid = Some row -> readable parse row) ->
  getGroupSetting parse (DbRow ((setGroupEnabled true chatJid e t).1 !! chatJid)) =
    {| enabled := e;
       whitelist := whitelist (getGroupSetting parse (DbRow (t !! chatJid))) |}.
Proof.
  intros Hparse. unfold setGroupEnabled, upsertEnabled. cbn [fst].
  destruct (t !! chatJid) as [row|] eqn:Hrow; rewrite lookup_insert_eq; simpl.
  - specialize (Hparse row eq_refl). unfold readable in Hparse.
    destruct (parse (default "[]" (row_whitelist row ||| Some "[]"))) as [l|];
      [|done].
    by destruct e.
  - rewrite parse_empty. by destruct e.
Qed.

Lemma read_after_whitelist chatJid t :
  (forall row, t !! chatJid = Some row -> readable parse row) ->
  getGroupSetting parse
    (DbRow ((setGroupWhitelist stringify true chatJid wl t).1 !! chatJid)) =
    {| enabled := enabled (getGroupSetting parse (DbRow (t !! chatJid)));
       whitelist := uniqueWl wl |}.
Proof.
  intros Hparse. unfold setGroupWhitelist, upsertWhitelist. cbn [fst].
  destruct (t !! chatJid) as [row|] eqn:Hrow; rewrite lookup_insert_eq.
  - cbn [getGroupSetting row_whitelist row_enabled]. rewrite column_written.
    specialize (Hparse row eq_refl). unfold readable in Hparse.
    by destruct (parse (default "[]" (row_whitelist row ||| Some "[]"))).
  - cbn [getGroupSetting row_whitelist row_enabled]. by rewrite column_written.
Qed.

Lemma upsert_others chatJid other e json (t : gmap string settingsRow) :
  other <> chatJid ->
  upsertEnabled chatJid e t !! other = t !! other /\
  upsertWhitelist chatJid json t !! other = t !! other.
Proof.
  intros Hne. unfold upsertEnabled, upsertWhitelist.
  destruct (t !! chatJid); by rewrite !lookup_insert_ne.
Qed.

End RoundTrip.

(** X24.  Writing and reading a group's setting.  With a
    [JSON.parse] that reads back what [JSON.stringify] wrote, and a row
    whose whitelist column is readable if there is one: after
    [setGroupEnabled] the group reads as enabled or disabled as written,
    with the whitelist it had (empty for a new row); after
    [setGroupWhitelist] it reads with the cleaned list and the [enabled] it
    had (off for a new row); no other group's row changes; and a write that
    the database rejects changes nothing and returns [false]. *)
Theorem settings_round_trip (stringify : list string -> string)
    (parse : string -> option (list string)) (chatJid : string) (e : bool)
    (wl : list string) (t : gmap string settingsRow) :
  parse (stringify (uniqueWl wl)) = Some (uniqueWl wl) ->
  stringify (uniqueWl wl) <> "" ->
  parse "[]" = Some [] ->
  (forall row, t !! chatJid = Some row -> readable parse row) ->
  let before := getGroupSetting parse (selectRow true chatJid t) in
  let t1 := (setGroupEnabled true chatJid e t).1 in
  let t2 := (setGroupWhitelist stringify true chatJid wl t).1 in
  getGroupSetting parse (selectRow true chatJid t1) =
    {| enabled := e; whitelist := whitelist before |} /\
  getGroupSetting parse (selectRow true chatJid t2) =
    {| enabled := enabled before; whitelist := uniqueWl wl |} /\
  (forall other, other <> chatJid ->
     t1 !! other = t !! other /\ t2 !! other = t !! other) /\
  setGroupEnabled false chatJid e t = (t, false) /\
  setGroupWhitelist stringify false chatJid wl t = (t, false).
Proof.
  intros Hps Hne Hpe Hread before t1 t2.
  split; [by apply read_after_enable|].
  split; [by apply read_after_whitelist|].
  split; [|done]. intros other Hother. by apply upsert_others.
Qed.

Lemma settings_round_trip_witness :
  let before := getGroupSetting toyParse (selectRow true "g@g.us" ∅) in
  let t1 := (setGroupEnabled true "g@g.us" true ∅).1 in
  let t2 := (setGroupWhitelist toyStringify true "g@g.us" ["x.org"; ""; "x.org"] ∅).1 in
  getGroupSetting toyParse (selectRow true "g@g.us" t1) =
    {| enabled := true; whitelist := whitelist before |} /\
  getGroupSetting toyParse (selectRow true "g@g.us" t2) =
    {| enabled := enabled before; whitelist := uniqueWl ["x.org"; ""; "x.org"] |} /\
  (forall other, other <> "g@g.us" ->
     t1 !! other = (∅ : gmap string settingsRow) !! other /\
     t2 !! other = (∅ : gmap string settingsRow) !! other) /\
  setGroupEnabled false "g@g.us" true ∅ = (∅, false) /\
  setGroupWhitelist toyStringify false "g@g.us" ["x.org"; ""; "x.org"] ∅ = (∅, false).
Proof.
  apply (settings_round_trip toyStringify toyParse "g@g.us" true
           ["x.org"; ""; "x.org"] ∅).
  - reflexivity.
  - discriminate.
  - reflexivity.
  - intros row Hrow. by rewrite lookup_empty in Hrow.
Defined.

Section Commands.
Variable w : world.

Lemma setAll_spec enable targets t :
  let r := setAll w enable targets t in
  (r.2 <= length targets)%nat /\
  r.2 = length (List.filter (w_runOk w) targets) /\
  (forall g, g ∉ targets -> r.1 !! g = t !! g) /\
  (forall g, (forall c, c ∈ targets -> c = g -> w_runOk w c = false) ->
             r.1 !! g = t !! g) /\
  (forall g, g ∈ targets -> w_runOk w g = true ->
     exists row, r.1 !! g = Some row /\ row_enabled row = if enable then 1 else 0).
Proof.
  revert t. induction targets as [|c rest IH]; intros t; simpl.
  - split; [lia|]. split; [done|]. split; [done|]. split; [done|].
    intros g H. by apply elem_of_nil in H.
  - unfold setGroupEnabled.
    destruct (w_runOk w c) eqn:Hok.
    + specialize (IH (upsertEnabled c (if enable then 1 else 0) t)).
      destruct (setAll w enable rest _) as [t2 n]. simpl in *.
      destruct IH as (I1 & I2 & I3 & I4 & I5).
      split; [lia|]. split; [by rewrite I2|]. split; [|split].
      * intros g Hg. rewrite I3.
        -- unfold upsertEnabled. destruct (t !! c); rewrite lookup_insert_ne; try done;
             intros ->; apply Hg, elem_of_cons; by left.
        -- intros H. apply Hg, elem_of_cons. by right.
      * intros g Hg. rewrite I4.
        -- unfold upsertEnabled.
           assert (Hne : c <> g).
           { intros ->. specialize (Hg g). rewrite Hok in Hg.
             assert (true = false); [|done]. apply Hg; [apply elem_of_cons; by left|done]. }
           destruct (t !! c); by rewrite lookup_insert_ne.
        -- intros c' Hc'. apply Hg, elem_of_cons. by right.
      * intros g Hg Hrun.
        destruct (decide (g ∈ rest)) as [Hin|Hnin]; [by apply I5|].
        apply elem_of_cons in Hg as [->|Hg]; [|done].
        rewrite I3 by done. unfold upsertEnabled.
        destruct (t !! c); rewrite lookup_insert_eq; by eexists.
    + specialize (IH t). destruct (setAll w enable rest t) as [t2 n]. simpl in *.
      destruct IH as (I1 & I2 & I3 & I4 & I5).
      split; [lia|]. split; [done|]. split; [|split].
      * intros g Hg. apply I3. intros H. apply Hg, elem_of_cons. by right.
      * intros g Hg. apply I4. intros c' Hc'. apply Hg, elem_of_cons. by right.
      * intros g Hg Hrun. apply I5; [|done].
        apply elem_of_cons in Hg as [->|Hg]; [congruence|done].
Qed.

(** The shapes of what an authorized [antilink] command does. *)
Lemma antilinkCommand_cases auth cmdText senderKey t :
  let r := antilinkCommand w auth cmdText senderKey t in
  let parts := splitRestForGp (trim (stripCommand "antilink" cmdText)) in
  let mode := modeOf (rp_left parts) in
  (exists b, r = (t, [{| dest := finalDest auth; body := b |}]) /\
     match b with
     | Toggled _ _ _ => False
     | StatusReport lines =>
         mode = "status" /\
         exists targets, targetsFor w auth (rp_gp parts) senderKey = inl targets /\
                         lines = statusLines w targets t
     | _ => True
     end) \/
  (exists (targets : list string) (enable : bool),
     targetsFor w auth (rp_gp parts) senderKey = inl targets /\ targets <> [] /\
     mode = (if enable then "on" else "off") /\
     r = ((setAll w enable targets t).1,
          [{| dest := finalDest auth;
              body := Toggled enable (setAll w enable targets t).2 (length targets) |}])).
Proof.
  intros r parts mode. unfold r, antilinkCommand. fold parts. fold mode.
  destruct (String.eqb mode "") eqn:E0; [left; by eexists|].
  destruct (bool_decide (mode ∈ modes)) eqn:Hin; simpl; [|left; by eexists].
  apply bool_decide_eq_true in Hin.
  destruct (targetsFor w auth (rp_gp parts) senderKey) as [targets|b] eqn:Ht.
  - assert (Hne : targets <> []).
    { unfold targetsFor in Ht. intros ->.
      destruct (isSudoPM auth).
      - destruct (truthy _); [|done].
        destruct (resolveTargetsForSudo _ _) eqn:Hr; simpl in Ht; [done|].
        by injection Ht.
      - destruct (resolveTargetsForGroupAdmin _ _ _) eqn:Hr; simpl in Ht; [done|].
        by injection Ht. }
    destruct (String.eqb mode "on") eqn:Eon.
    + right. exists targets, true. apply String.eqb_eq in Eon.
      split; [done|]. split; [done|]. split; [done|]. simpl.
      by destruct (setAll w true targets t).
    + destruct (String.eqb mode "off") eqn:Eoff; simpl.
      * right. exists targets, false. apply String.eqb_eq in Eoff.
        split; [done|]. split; [done|]. split; [done|].
        by destruct (setAll w false targets t).
      * left. eexists. split; [done|]. simpl.
        apply String.eqb_neq in Eon, Eoff.
        split; [|by exists targets].
        unfold modes in Hin. apply list_elem_of_In in Hin. simpl in Hin.
        destruct Hin as [H|[H|[H|[]]]]; congruence.
  - left. exists b. split; [done|].
    unfold targetsFor in Ht. destruct (isSudoPM auth).
    + destruct (truthy _); [|by injection Ht as <-].
      destruct (nonEmpty _); [done|]. by injection Ht as <-.
    + destruct (nonEmpty _); [done|]. by injection Ht as <-.
Qed.

End Commands.

(** X25.  What an antilink command can do.  Handling a message
    as a command sends at most one message and nothing else, unless it is
    an authorized [antilink on] or [antilink off] with targets: while
    shutting down, for a message that is no known command, without
    authorization (in a group: [isadmin]; elsewhere: the bot itself or a
    sudo user) and for the command [antilinkwl] nothing is sent and nothing
    changes; [status] and every error answer leave the settings table as it
    is; [on] and [off] try one write per target, change no other row, leave
    every target whose write succeeded at the value asked for, and report
    the number of writes that succeeded out of the number of targets. *)
Theorem command_effects (w : world) (down : bool) (ctx : context)
    (t : gmap string settingsRow) (remote : string) :
  chatIdOf ctx = Some remote ->
  let auth := authorize w ctx remote in
  let r := commandBranch w down ctx t in
  (down = true \/ isKnownCommand ctx = false \/ isAuthorized auth = false \/
   commandOf ctx <> Some "antilink" -> r = (t, [])) /\
  (r = (t, []) \/
   (exists b, r = (t, [{| dest := finalDest auth; body := b |}]) /\
              forall e n k, b <> Toggled e n k) \/
   exists (targets : list string) (enable : bool) (n : nat),
     targets <> [] /\
     r.2 = [{| dest := finalDest auth; body := Toggled enable n (length targets) |}] /\
     n = length (List.filter (w_runOk w) targets) /\
     (forall g, g ∉ targets -> r.1 !! g = t !! g) /\
     (forall g, g ∈ targets -> w_runOk w g = true ->
        exists row, r.1 !! g = Some row /\
                    row_enabled row = if enable then 1 else 0)).
Proof.
  intros Hremote auth r. unfold r, commandBranch. rewrite Hremote.
  destruct (message ctx); [|split; [done|by left]].
  destruct (String.eqb remote "" || down) eqn:Hgate; [split; [done|by left]|].
  apply orb_false_iff in Hgate as [_ ->].
  destruct (isKnownCommand ctx) eqn:Hknown; simpl; [|split; [done|by left]].
  fold auth.
  destruct (isAuthorized auth) eqn:Hauth; simpl.
  2: { split; [done|by left]. }
  destruct (String.eqb (default "" (commandOf ctx)) "antilink") eqn:Hcmd.
  2: { split; [done|by left]. }
  apply String.eqb_eq in Hcmd. split.
  { intros [H|[H|[H|H]]]; [done..|]. exfalso. apply H.
    destruct (commandOf ctx) as [c|]; simpl in Hcmd; [by rewrite Hcmd|done]. }
  right.
  set (cmdText := trim _). set (senderKey := userPart _).
  destruct (antilinkCommand_cases w auth cmdText senderKey t)
    as [(b & Hr & Hb)|(targets & enable & Ht & Hne & Hmode & Hr)].
  - left. exists b. split; [done|]. intros e n k ->. done.
  - right. destruct (setAll_spec w enable targets t) as (S1 & S2 & S3 & S4 & S5).
    exists targets, enable, (setAll w enable targets t).2.
    rewrite Hr. simpl. by repeat split.
Qed.

Lemma command_effects_witness :
  chatIdOf (ownCommand "/antilink on gp:all") = Some "bot@s.whatsapp.net" /\
  commandBranch calmWorld false (ownCommand "/antilink on gp:all") ∅ =
    (<["b@g.us" := {| row_enabled := 1; row_whitelist := Some "[]" |}]>
       (<["a@g.us" := {| row_enabled := 1; row_whitelist := Some "[]" |}]> ∅),
     [{| dest := "bot@s.whatsapp.net"; body := Toggled true 2 2 |}]) /\
  exists (targets : list string) (enable : bool) (n : nat),
     targets <> [] /\
     (commandBranch calmWorld false (ownCommand "/antilink on gp:all") ∅).2 =
       [{| dest := "bot@s.whatsapp.net"; body := Toggled enable n (length targets) |}].
Proof.
  split; [reflexivity|]. split; [vm_compute; reflexivity|].
  destruct (command_effects calmWorld false (ownCommand "/antilink on gp:all") ∅
              "bot@s.whatsapp.net" eq_refl) as [_ [H|[(b & H & Hb)|H]]].
  - exfalso. revert H. vm_compute. discriminate.
  - exfalso. apply (Hb true 2%nat 2%nat). apply (f_equal snd) in H.
    revert H. vm_compute. by intros [= <-].
  - destruct H as (targets & enable & n & Hne & Hsent & _).
    exists targets, enable, n. by split.
Defined.

Section PmUsage.

Lemma endsNonWs_app_cons a c r : endsNonWs (a +:+ String c r) = endsNonWs (String c r).
Proof.
  induction a as [|d a IH]; [done|]. rewrite append_cons.
  change (endsNonWs (String d (a +:+ String c r)))
    with (match a +:+ String c r with
          | EmptyString => negb (isWhiteSpace d)
          | _ => endsNonWs (a +:+ String c r)
          end).
  rewrite IH. by destruct a.
Qed.

Lemma isGpSep_false c :
  isGpSep c = false -> isWhiteSpace c = false /\ Ascii.eqb c ":" = false.
Proof. unfold isGpSep. intros [? ?]%orb_false_iff. by split. Qed.

Lemma trimEnd_fixed_tail P c r :
  endsNonWs (String c r) = true -> trimEnd (P +:+ String c r) = P +:+ String c r.
Proof. intros H. apply trimEnd_fixed. by rewrite endsNonWs_app_cons. Qed.

Lemma trim_tail c r :
  isWhiteSpace c = false -> endsNonWs (String c r) = true ->
  trim (String c r) = String c r.
Proof.
  intros Hc Hend. unfold trim. rewrite trimStart_fixed; [by apply trimEnd_fixed|].
  simpl. by rewrite Hc.
Qed.

Lemma matchGp_usage c r :
  isGpSep c = false -> allChars isNotLineTerminator (String c r) = true ->
  matchGp ("gp:" +:+ String c r) = Some (String c r).
Proof.
  intros Hc Hlt.
  change ("gp:" +:+ String c r) with (String "g" (String "p" (String ":" (String c r)))).
  unfold matchGp.
  change (Ascii.eqb (toLowerChar "g") "g" && Ascii.eqb (toLowerChar "p") "p") with true.
  cbv iota.
  change (takeWhile isGpSep (String ":" (String c r)))
    with (String ":" (if isGpSep c then String c (takeWhile isGpSep r) else EmptyString)).
  change (dropWhile isGpSep (String ":" (String c r)))
    with (if isGpSep c then dropWhile isGpSep r else String c r).
  rewrite Hc. cbv zeta iota.
  change (allChars (fun c0 => negb (isLineTerminator c0)) (String c r))
    with (allChars isNotLineTerminator (String c r)).
  by rewrite Hlt.
Qed.

Lemma scanGp_hit idx s cap : matchGp s = Some cap -> scanGp false idx s = Some (idx, cap).
Proof. intros H. destruct s; [done|]. cbn [scanGp]. by rewrite H. Qed.

(** The documented usage [/antilink <mode> gp:<name>], parsed. *)
Lemma usage_parses m c r :
  m ∈ modes -> isGpSep c = false ->
  allChars isNotLineTerminator (String c r) = true ->
  endsNonWs (String c r) = true ->
  let body := "/antilink " +:+ m +:+ " gp:" +:+ String c r in
  trim body = body /\
  firstWord body = "/antilink" /\
  splitRestForGp (trim (stripCommand "antilink" body)) =
    {| rp_left := m; rp_gp := Some (String c r) |} /\
  modeOf m = m.
Proof.
  intros Hm Hc Hlt Hend body.
  destruct (isGpSep_false c Hc) as [Hws _].
  pose proof (matchGp_usage c r Hc Hlt) as Hgp.
  pose proof (trim_tail c r Hws Hend) as Htail.
  unfold modes in Hm. apply list_elem_of_In in Hm. simpl in Hm.
  destruct Hm as [<-|[<-|[<-|[]]]]; unfold body.
  - split; [apply (trimEnd_fixed_tail "/antilink on gp:" c r Hend)|].
    split; [done|]. split; [|done].
    change (stripCommand "antilink" ("/antilink " +:+ "on" +:+ " gp:" +:+ String c r))
      with (" " +:+ "on gp:" +:+ String c r).
    unfold trim.
    change (trimStart (" " +:+ "on gp:" +:+ String c r)) with ("on gp:" +:+ String c r).
    rewrite (trimEnd_fixed_tail "on gp:" c r Hend).
    unfold splitRestForGp.
    change (String.eqb ("on gp:" +:+ String c r) "") with false. cbv iota.
    change (scanGp false 0 ("on gp:" +:+ String c r))
      with (scanGp false 3 ("gp:" +:+ String c r)).
    rewrite (scanGp_hit 3 _ _ Hgp).
    change (sliceTo 3 ("on gp:" +:+ String c r)) with "on ".
    fold (trim (String c r)). rewrite Htail. done.
  - split; [apply (trimEnd_fixed_tail "/antilink off gp:" c r Hend)|].
    split; [done|]. split; [|done].
    change (stripCommand "antilink" ("/antilink " +:+ "off" +:+ " gp:" +:+ String c r))
      with (" " +:+ "off gp:" +:+ String c r).
    unfold trim.
    change (trimStart (" " +:+ "off gp:" +:+ String c r)) with ("off gp:" +:+ String c r).
    rewrite (trimEnd_fixed_tail "off gp:" c r Hend).
    unfold splitRestForGp.
    change (String.eqb ("off gp:" +:+ String c r) "") with false. cbv iota.
    change (scanGp false 0 ("off gp:" +:+ String c r))
      with (scanGp false 4 ("gp:" +:+ String c r)).
    rewrite (scanGp_hit 4 _ _ Hgp).
    change (sliceTo 4 ("off gp:" +:+ String c r)) with "off ".
    fold (trim (String c r)). rewrite Htail. done.
  - split; [apply (trimEnd_fixed_tail "/antilink status gp:" c r Hend)|].
    split; [done|]. split; [|done].
    change (stripCommand "antilink" ("/antilink " +:+ "status" +:+ " gp:" +:+ String c r))
      with (" " +:+ "status gp:" +:+ String c r).
    unfold trim.
    change (trimStart (" " +:+ "status gp:" +:+ String c r))
      with ("status gp:" +:+ String c r).
    rewrite (trimEnd_fixed_tail "status gp:" c r Hend).
    unfold splitRestForGp.
    change (String.eqb ("status gp:" +:+ String c r) "") with false. cbv iota.
    change (scanGp false 0 ("status gp:" +:+ String c r))
      with (scanGp false 7 ("gp:" +:+ String c r)).
    rewrite (scanGp_hit 7 _ _ Hgp).
    change (sliceTo 7 ("status gp:" +:+ String c r)) with "status ".
    fold (trim (String c r)). rewrite Htail. done.
Qed.

End PmUsage.

(** X26.  The documented private-chat usage works.  Outside a group,
    from the bot's own account or a sudo user, the command text
    [/antilink <mode> gp:<name>] with one of the three modes and a name
    that starts with neither white space nor a colon, holds no line
    terminator and does not end in white space is read as that mode and
    that name: the name is resolved, and the mode is applied to every
    resolved group, or the sender is told that nothing could be resolved. *)
Theorem documented_pm_usage (w : world) (ctx : context) (t : gmap string settingsRow)
    (remote : string) (msg : messageBody) (m : string) (c : ascii) (r : string) :
  chatIdOf ctx = Some remote -> remote <> "" -> endsWith remote "@g.us" = false ->
  message ctx = Some msg -> isCommand ctx = true ->
  fromMeOf ctx = true \/ w_isSudo w = true ->
  text ctx ||| Some (extractTextFromMessage ctx) =
    Some ("/antilink " +:+ m +:+ " gp:" +:+ String c r) ->
  m ∈ modes -> isGpSep c = false ->
  allChars isNotLineTerminator (String c r) = true ->
  endsNonWs (String c r) = true ->
  let auth := authorize w ctx remote in
  let targets := resolveTargetsForSudo (w_groups w) (Some (String c r)) in
  let say b := [{| dest := finalDest auth; body := b |}] in
  commandBranch w false ctx t =
    if nonEmpty targets then
      if String.eqb m "status" then (t, say (StatusReport (statusLines w targets t)))
      else ((setAll w (String.eqb m "on") targets t).1,
            say (Toggled (String.eqb m "on") (setAll w (String.eqb m "on") targets t).2
                   (length targets)))
    else (t, say (NoTargetsFor (String c r))).
Proof.
  intros Hremote Hne Hpm Hmsg Hcmd Hwho Htext Hm Hc Hlt Hend auth targets say.
  destruct (usage_parses m c r Hm Hc Hlt Hend) as (Htrim & Hfirst & Hparts & Hmode).
  assert (HcmdOf : commandOf ctx = Some "antilink").
  { unfold commandOf. rewrite Hcmd, Htext. cbn [from_option Datatypes.id].
    rewrite Htrim, Hfirst.
    assert (Hnz : String.eqb ("/antilink " +:+ m +:+ " gp:" +:+ String c r) "" = false)
      by done.
    by rewrite Hnz. }
  assert (Hauth : isAuthorized auth = true /\ isSudoPM auth = true).
  { unfold auth, authorize. rewrite Hpm.
    destruct (fromMeOf ctx); [done|]. destruct Hwho as [Hw|Hw]; [done|]. by rewrite Hw. }
  destruct Hauth as [Hauth Hsudo].
  unfold commandBranch. rewrite Hremote, Hmsg.
  apply String.eqb_neq in Hne. rewrite Hne. cbn [orb].
  unfold isKnownCommand. rewrite Hcmd, HcmdOf. cbn [andb negb].
  change (bool_decide ("antilink" ∈ commands)) with true. cbn [negb].
  fold auth. rewrite Hauth. cbn [negb from_option Datatypes.id].
  change (String.eqb "antilink" "antilink") with true. cbv iota.
  rewrite Htext. cbn [from_option Datatypes.id]. rewrite Htrim.
  unfold antilinkCommand. rewrite Hparts. cbn [rp_left rp_gp]. rewrite Hmode.
  unfold targetsFor. rewrite Hsudo.
  change (truthy (Some (String c r))) with true. cbv iota. fold targets.
  cbn [from_option Datatypes.id].
  unfold modes in Hm. apply list_elem_of_In in Hm. simpl in Hm.
  destruct Hm as [<-|[<-|[<-|[]]]]; destruct (nonEmpty targets); try done.
  - change (String.eqb "on" "") with false. cbv iota.
    change (negb (bool_decide ("on" ∈ modes))) with false. cbv iota.
    change (String.eqb "on" "on" || String.eqb "on" "off") with true.
    change (String.eqb "on" "status") with false. change (String.eqb "on" "on") with true.
    cbv iota zeta. by destruct (setAll w true targets t).
  - change (String.eqb "off" "") with false. cbv iota.
    change (negb (bool_decide ("off" ∈ modes))) with false. cbv iota.
    change (String.eqb "off" "on" || String.eqb "off" "off") with true.
    change (String.eqb "off" "status") with false. change (String.eqb "off" "on") with false.
    cbv iota zeta. by destruct (setAll w false targets t).
Qed.

Lemma documented_pm_usage_witness :
  commandBranch calmWorld false (ownCommand "/antilink off gp:Family")
    (<["a@g.us" := {| row_enabled := 1; row_whitelist := Some "[1]" |}]> ∅) =
  (<["a@g.us" := {| row_enabled := 0; row_whitelist := Some "[1]" |}]> ∅,
   [{| dest := "bot@s.whatsapp.net"; body := Toggled false 1 1 |}]).
Proof.
  rewrite (documented_pm_usage calmWorld (ownCommand "/antilink off gp:Family")
             (<["a@g.us" := {| row_enabled := 1; row_whitelist := Some "[1]" |}]> ∅)
             "bot@s.whatsapp.net"
             {| conversation := Some "/antilink off gp:Family"; extendedText := None;
                imageCaption := None; videoCaption := None |}
             "off" "F" "amily");
    [vm_compute; reflexivity | reflexivity | discriminate | reflexivity | reflexivity
    | reflexivity | left; reflexivity | reflexivity
    | apply list_elem_of_In; simpl; auto
    | reflexivity | reflexivity | reflexivity ].
Defined.

End AntilinkFacts.
